(** * A shallow embedding of the B+ tree of data-structure-rs

    The main model is [src/unsafebplus/src/lib.rs] (module [UnsafeBPlus]);
    the leaf split of the earlier variant [src/bplus/src/lib.rs] is modelled
    in module [BPlus].

    Keys and values are [usize]; they are modelled as [nat] (no arithmetic
    is done on them, only comparisons).

    Leaf forward references are raw pointers [*const LeafNode] in the source.
    They are modelled by the identity of the leaf object they were taken
    from: each leaf carries an identifier [l_id], allocated from a counter
    [cnt] when the leaf is created (the counter stands for the allocator), and
    [l_next] holds the identifier of the leaf the pointer was taken from, or
    [None] for [ptr::null].  A pointer stays valid while its target stays in
    place.  Leaves live inline in the [Vec] of their parent: [push] and
    [sort_by_key] move them, but [InternalNode::insert] then rewrites every
    forward reference of its leaf children; [InternalNode::split]
    ([split_off]) moves the upper half to a new buffer and rewrites nothing,
    so the references into the moved leaves then point at slots that no
    longer hold them.  The flag [l_stale] records such a reference; reading
    it is not determined by the model (the program reads a stale copy or
    freed memory), and the operations that read it give [None]. *)

From Stdlib Require Import List Arith Lia Bool Permutation Sorted.
Import ListNotations.
Local Set Warnings "-register-all".
Local Set Warnings "-notation-overridden".


Module UnsafeBPlus.

Abbreviation Key := nat (only parsing).
Abbreviation Data := nat (only parsing).

(** [struct LeafNode { cap, data: Vec<DataPair>, next: *const LeafNode }];
    [l_stale]: the target of [next] has moved since the pointer was taken. *)
Record LeafNode := MkLeaf {
  l_cap : nat;
  l_data : list (Key * Data);
  l_next : option nat;
  l_id : nat;
  l_stale : bool
}.

(** A leaf whose forward reference is null or points at its target's
    current place. *)
Definition mkLeaf (cap : nat) (data : list (Key * Data)) (next : option nat) (id : nat)
  : LeafNode := MkLeaf cap data next id false.

(** [enum Node { Internal(InternalNode), Leaf(LeafNode) }];
    [struct InternalNode { cap, nodes: Vec<NodePair> }]. *)
Inductive Node :=
| Internal (cap : nat) (nodes : list (Key * Node))
| Leaf (leaf : LeafNode).

(** [struct BPlusTree { cap, node: Option<Node> }], with the allocation
    counter of leaf identities. *)
Record BPlusTree := mkTree {
  t_cap : nat;
  t_node : option Node;
  t_cnt : nat
}.

(** Writing [next] (with a pointer to the target's current place). *)
Definition set_next (l : LeafNode) (p : option nat) : LeafNode :=
  mkLeaf (l_cap l) (l_data l) p (l_id l).

Definition set_data (l : LeafNode) (d : list (Key * Data)) : LeafNode :=
  MkLeaf (l_cap l) d (l_next l) (l_id l) (l_stale l).

(** ** Vec helpers *)

(** [sort_by_key(|p| p.key)]: Rust's [sort_by_key] is a stable sort; a
    stable sort's result is unique, and insertion sort computes it.
    [ins_by_key x s] puts [x] after every element of [s] whose key is
    [<=] its own (it comes later in the input than all of them). *)
Fixpoint ins_by_key {A} (x : Key * A) (s : list (Key * A)) : list (Key * A) :=
  match s with
  | [] => [x]
  | y :: s' => if fst y <=? fst x then y :: ins_by_key x s' else x :: s
  end.

Definition sort_by_key {A} (l : list (Key * A)) : list (Key * A) :=
  fold_left (fun s x => ins_by_key x s) l [].

(** [self.nodes.split_off(self.nodes.len() / 2)]: (kept left, returned right). *)
Definition split_off_half {A} (l : list A) : list A * list A :=
  (firstn (length l / 2) l, skipn (length l / 2) l).

Fixpoint take_while {A} (f : A -> bool) (l : list A) : list A :=
  match l with
  | [] => []
  | x :: r => if f x then x :: take_while f r else []
  end.

(** ** Node::min_key *)
Definition min_key (n : Node) : option Key :=
  match n with
  | Internal _ nodes => option_map fst (hd_error nodes)
  | Leaf l => option_map fst (hd_error (l_data l))
  end.

(** ** LeafNode *)

Definition leaf_is_full (l : LeafNode) : bool := l_cap l <? length (l_data l).

(** [LeafNode::split]: the new leaf (identity [fresh]) takes the upper half
    and a copy of [self.next]; [self.next] itself is not written. *)
Definition leaf_split (l : LeafNode) (fresh : nat) : LeafNode * LeafNode :=
  let '(lo, hi) := split_off_half (l_data l) in
  (set_data l lo, MkLeaf (l_cap l) hi (l_next l) fresh (l_stale l)).

(** [LeafNode::insert]: push, stable sort, split when full.  Returns the
    updated leaf, the split-off sibling, and the allocation counter. *)
Definition leaf_insert (l : LeafNode) (key : Key) (d : Data) (c : nat)
  : LeafNode * option Node * nat :=
  let l1 := set_data l (sort_by_key (l_data l ++ [(key, d)])) in
  if leaf_is_full l1 then
    let '(l2, nw) := leaf_split l1 c in (l2, Some (Leaf nw), S c)
  else (l1, None, c).

Definition leaf_search (l : LeafNode) (key : Key) : option Data :=
  option_map snd (find (fun p => fst p =? key) (l_data l)).

(** ** InternalNode routing *)

(** [find_mut_node]: if some key is [<=] the probe, the last element of
    [take_while(key <= probe)], else the first element.  As an index. *)
Definition find_mut_node {A} (nodes : list (Key * A)) (key : Key) : option nat :=
  if existsb (fun p => fst p <=? key) nodes then
    match length (take_while (fun p => fst p <=? key) nodes) with
    | 0 => None
    | S m => Some m
    end
  else match nodes with [] => None | _ => Some 0 end.

(** [find_node]: [take_while(key <= probe).last().or_else(first)]. *)
Definition find_node {A} (nodes : list (Key * A)) (key : Key) : option nat :=
  match length (take_while (fun p => fst p <=? key) nodes) with
  | S m => Some m
  | 0 => match nodes with [] => None | _ => Some 0 end
  end.

(** The relinking loop of [InternalNode::insert]: walking the children from
    the last to the first, every leaf child gets [next] := the previously
    visited leaf (null for the first visited, i.e. the last leaf). *)
Fixpoint relink (nodes : list (Key * Node)) : list (Key * Node) * option nat :=
  match nodes with
  | [] => ([], None)
  | (k, n) :: rest =>
      let '(rest', p) := relink rest in
      match n with
      | Leaf l => ((k, Leaf (set_next l p)) :: rest', Some (l_id l))
      | Internal _ _ => ((k, n) :: rest', p)
      end
  end.



Definition internal_is_full (cap : nat) (nodes : list (Key * Node)) : bool :=
  cap + 1 <? length nodes.

Definition new_leaf_node (cap : nat) (key : Key) (d : Data) (c : nat) : Node :=
  Leaf (mkLeaf cap [(key, d)] None c).

(** [find_node_for_insert]: pushes a fresh leaf when [nodes] is empty, then
    [find_mut_node(key).unwrap()] ([None] is the panic). *)
Definition find_node_for_insert (cap : nat) (nodes : list (Key * Node))
  (key : Key) (d : Data) (c : nat) : list (Key * Node) * nat * option nat :=
  let '(nodes1, c1) :=
    match nodes with
    | [] => ([(key, new_leaf_node cap key d c)], S c)
    | _ => (nodes, c)
    end in
  (nodes1, c1, find_mut_node nodes1 key).

(** The forward reference of a leaf child whose target has moved. *)
Definition mark_stale (p : Key * Node) : Key * Node :=
  match p with
  | (k, Leaf l) => (k, Leaf (MkLeaf (l_cap l) (l_data l) (l_next l) (l_id l) true))
  | _ => p
  end.

(** [InternalNode::split]: [split_off(len / 2)] moves the upper half to a
    new buffer.  The leaf children of the upper half point at one another's
    former slots, and the last leaf child of the lower half at the former
    slot of the first moved one. *)
Fixpoint mark_last (l : list (Key * Node)) : list (Key * Node) :=
  match l with
  | [] => []
  | [p] => [mark_stale p]
  | p :: rest => p :: mark_last rest
  end.

Definition internal_split (nodes : list (Key * Node)) : list (Key * Node) * list (Key * Node) :=
  let '(lo, hi) := split_off_half nodes in (mark_last lo, map mark_stale hi).

(** The part of [InternalNode::insert] after the child insertion: the
    returned sibling is pushed with its minimum key (dropped if it has
    none), the children are sorted and the leaf children relinked; then the
    fullness check and [InternalNode::split]. *)
Definition internal_after (cap : nat) (nodes : list (Key * Node))
  (splited : option Node) : Node * option Node :=
  let nodes1 :=
    match splited with
    | Some n =>
        match min_key n with
        | Some k => fst (relink (sort_by_key (nodes ++ [(k, n)])))
        | None => nodes
        end
    | None => nodes
    end in
  if internal_is_full cap nodes1 then
    let '(lo, hi) := internal_split nodes1 in
    (Internal cap lo, Some (Internal cap hi))
  else (Internal cap nodes1, None).

(** Applying [f] to the [i]-th child of [nodes] and putting the result back
    in its place ([None] if there is no such child or [f] panics). *)
Fixpoint update_child (f : Node -> option (Node * option Node * nat))
  (l : list (Key * Node)) (i : nat) : option (list (Key * Node) * option Node * nat) :=
  match l, i with
  | [], _ => None
  | (k, ch) :: rest, 0 =>
      match f ch with
      | Some (ch', s, c') => Some ((k, ch') :: rest, s, c')
      | None => None
      end
  | p :: rest, S j =>
      match update_child f rest j with
      | Some (rest', s, c') => Some (p :: rest', s, c')
      | None => None
      end
  end.

(** [Node::insert] (dispatching to [InternalNode::insert] and
    [LeafNode::insert]).  [None] is a panic. *)
Fixpoint node_insert (n : Node) (key : Key) (d : Data) (c : nat) {struct n}
  : option (Node * option Node * nat) :=
  match n with
  | Leaf l => let '(l', s, c') := leaf_insert l key d c in Some (Leaf l', s, c')
  | Internal cap nodes =>
      match nodes with
      | [] => Some (Internal cap [(key, new_leaf_node cap key d c)], None, S c)
      | _ :: _ =>
          (* [find_node_for_insert] on a non-empty [nodes] pushes nothing
             ([find_node_for_insert_nonempty] below), so the child is looked up
             in [nodes] itself with [find_mut_node]. *)
          match find_mut_node nodes key with
          | None => None
          | Some i =>
              match update_child (fun ch => node_insert ch key d c) nodes i with
              | None => None
              | Some (nodes2, s, c2) =>
                  let '(n', s') := internal_after cap nodes2 s in
                  Some (n', s', c2)
              end
          end
      end
  end.

(** [BPlusTree::new] and [BPlusTree::insert] (root growth included). *)
Definition new_tree (cap : nat) : BPlusTree := mkTree cap None 0.

Definition grow_root (cap : nat) (old_child node : Node) : option Node :=
  match min_key old_child, min_key node with
  | Some a, Some b =>
      let next_ptr := match node with Leaf l => Some (l_id l) | _ => None end in
      let old' := match old_child with
                  | Leaf l => Leaf (set_next l next_ptr)
                  | Internal _ _ => old_child
                  end in
      Some (Internal cap [(a, old'); (b, node)])
  | _, _ => None
  end.

Definition tree_insert (t : BPlusTree) (key : Key) (d : Data) : option BPlusTree :=
  match t_node t with
  | None => Some (mkTree (t_cap t) (Some (new_leaf_node (t_cap t) key d (t_cnt t)))
                         (S (t_cnt t)))
  | Some n =>
      match node_insert n key d (t_cnt t) with
      | None => None
      | Some (n', None, c') => Some (mkTree (t_cap t) (Some n') c')
      | Some (n', Some s, c') =>
          match grow_root (t_cap t) n' s with
          | Some r => Some (mkTree (t_cap t) (Some r) c')
          | None => None
          end
      end
  end.

(** A sequence of insertions from [BPlusTree::new(cap)]. *)
Fixpoint insert_all (t : BPlusTree) (ops : list (Key * Data)) : option BPlusTree :=
  match ops with
  | [] => Some t
  | (k, d) :: ops' =>
      match tree_insert t k d with
      | Some t' => insert_all t' ops'
      | None => None
      end
  end.

Definition build (cap : nat) (ops : list (Key * Data)) : option BPlusTree :=
  insert_all (new_tree cap) ops.

(** ** Search *)

(** Applying [f] to the [i]-th child of [nodes] ([dflt] if there is none). *)
Fixpoint child_apply {B} (f : Node -> B) (dflt : B) (l : list (Key * Node)) (i : nat) : B :=
  match l, i with
  | [], _ => dflt
  | (_, ch) :: _, 0 => f ch
  | _ :: rest, S j => child_apply f dflt rest j
  end.

(** [Node::search] / [InternalNode::search] / [LeafNode::search]. *)
Fixpoint node_search (n : Node) (key : Key) {struct n} : option Data :=
  match n with
  | Leaf l => leaf_search l key
  | Internal _ nodes =>
      match find_node nodes key with
      | Some i => child_apply (fun ch => node_search ch key) None nodes i
      | None => None
      end
  end.

Definition search (t : BPlusTree) (key : Key) : option Data :=
  match t_node t with
  | Some n => node_search n key
  | None => None
  end.

(** ** The leaves of a tree (the memory the forward references point into) *)

Fixpoint leaves (n : Node) : list LeafNode :=
  match n with
  | Leaf l => [l]
  | Internal _ nodes => flat_map (fun '(_, ch) => leaves ch) nodes
  end.

(** Dereferencing the forward reference of [l]: [Some None] for null,
    [Some (Some nx)] for the leaf [nx] it points at, [None] when the read is
    not determined (a stale pointer, or one naming no leaf of the tree). *)
Definition deref (heap : list LeafNode) (l : LeafNode) : option (option LeafNode) :=
  match l_next l with
  | None => Some None
  | Some id =>
      if l_stale l then None
      else match find (fun x => l_id x =? id) heap with
           | Some nx => Some (Some nx)
           | None => None
           end
  end.

(** ** Range scan *)

(** The [loop] of [LeafNode::search_range], from the leaf [cur] on.  Each
    round visits one more leaf; [fuel] bounds the rounds ([None] when it runs
    out, which only a cyclic chain can cause with the fuel given below, or
    when a read is not determined). *)
Fixpoint scan_chain (heap : list LeafNode) (fuel : nat) (cur : LeafNode)
  (max_key : Key) (result : list Data) : option (list Data) :=
  match fuel with
  | 0 => None
  | S f =>
      match deref heap cur with
      | None => None
      | Some None => Some result
      | Some (Some nx) =>
          let data := map snd (filter (fun x => fst x <=? max_key) (l_data nx)) in
          let result' := result ++ data in
          if length data <? length (l_data nx) then Some result'
          else scan_chain heap f nx max_key result'
      end
  end.

Definition leaf_search_range (heap : list LeafNode) (l : LeafNode)
  (min_key max_key : Key) : option (list Data) :=
  let result := map snd (filter (fun p => (min_key <=? fst p) && (fst p <=? max_key))
                                (l_data l)) in
  scan_chain heap (S (length heap)) l max_key result.

(** [Node::search_range] / [InternalNode::search_range]. *)
Fixpoint node_search_range (heap : list LeafNode) (n : Node) (min_key max_key : Key)
  {struct n} : option (list Data) :=
  if max_key <? min_key then Some [] else
  match n with
  | Leaf l => leaf_search_range heap l min_key max_key
  | Internal _ nodes =>
      match find_node nodes min_key with
      | Some i => child_apply (fun ch => node_search_range heap ch min_key max_key)
                              (Some []) nodes i
      | None => Some []
      end
  end.

(** [BPlusTree::search_range]. *)
Definition search_range (t : BPlusTree) (min_key max_key : Key) : option (list Data) :=
  match t_node t with
  | Some n => node_search_range (leaves n) n min_key max_key
  | None => Some []
  end.

(** ** The leaf chain *)

(** The structurally leftmost leaf. *)
Fixpoint leftmost (n : Node) : option LeafNode :=
  match n with
  | Leaf l => Some l
  | Internal _ ((_, ch) :: _) => leftmost ch
  | Internal _ [] => None
  end.

(** The leaves met following forward references from [l] ([l] included). *)
Fixpoint follow (heap : list LeafNode) (fuel : nat) (l : LeafNode)
  : option (list LeafNode) :=
  match fuel with
  | 0 => None
  | S f =>
      match deref heap l with
      | None => None
      | Some None => Some [l]
      | Some (Some nx) => option_map (cons l) (follow heap f nx)
      end
  end.

Definition leaf_chain (n : Node) : option (list LeafNode) :=
  match leftmost n with
  | Some l => follow (leaves n) (S (length (leaves n))) l
  | None => Some []
  end.

(** All entries met walking the chain from the leftmost leaf. *)
Definition chain_entries (n : Node) : option (list (Key * Data)) :=
  option_map (flat_map l_data) (leaf_chain n).

(** All leaf entries of a node, in structural order. *)
Definition entries (n : Node) : list (Key * Data) := flat_map l_data (leaves n).

(** Every separator key equals the minimum key of the child it precedes,
    the child's minimum being the first key of its leftmost leaf. *)
Definition first_leaf_key (n : Node) : option Key :=
  match leftmost n with
  | Some l => option_map fst (hd_error (l_data l))
  | None => None
  end.

Fixpoint separators_ok (n : Node) : bool :=
  match n with
  | Leaf _ => true
  | Internal _ nodes =>
      let fix go (l : list (Key * Node)) : bool :=
        match l with
        | [] => true
        | (k, ch) :: rest =>
            match first_leaf_key ch with
            | Some m => (k =? m) && separators_ok ch && go rest
            | None => false
            end
        end in
      go nodes
  end.

(** The internal nodes of a tree: [sub_node n m] when [m] occurs in [n]. *)
Inductive sub_node : Node -> Node -> Prop :=
| sub_refl n : sub_node n n
| sub_child cap nodes k ch m :
    In (k, ch) nodes -> sub_node ch m -> sub_node (Internal cap nodes) m.

(** The routing rule as the spec words it: the last entry whose key is
    [<=] the probe, or the first entry when there is none. *)
Fixpoint last_le {A} (nodes : list (Key * A)) (key : Key) (i : nat)
  (acc : option nat) : option nat :=
  match nodes with
  | [] => acc
  | (k, _) :: rest => last_le rest key (S i) (if k <=? key then Some i else acc)
  end.

Definition spec_route {A} (nodes : list (Key * A)) (key : Key) : option nat :=
  match last_le nodes key 0 None with
  | Some i => Some i
  | None => match nodes with [] => None | _ => Some 0 end
  end.

(** ** Structural invariants *)

Definition key_le {A} (a b : Key * A) : Prop := fst a <= fst b.

(** A node with the forward reference of a leaf erased. *)
Definition forget (n : Node) : Node :=
  match n with
  | Leaf l => Leaf (set_next l None)
  | Internal _ _ => n
  end.

Fixpoint all_children (P : Node -> Prop) (l : list (Key * Node)) : Prop :=
  match l with
  | [] => True
  | (_, ch) :: rest => P ch /\ all_children P rest
  end.

(** Entries of every leaf and children of every internal node are sorted
    by key. *)
Fixpoint sorted_node (n : Node) : Prop :=
  match n with
  | Leaf l => StronglySorted key_le (l_data l)
  | Internal _ nodes => StronglySorted key_le nodes /\ all_children sorted_node nodes
  end.

(** Every leaf is at depth [h] and holds an entry; every internal node has
    a child. *)
Fixpoint bal (h : nat) (n : Node) {struct n} : Prop :=
  match n with
  | Leaf l => h = 0 /\ l_data l <> []
  | Internal _ nodes =>
      match h with
      | 0 => False
      | S h' => nodes <> [] /\ all_children (bal h') nodes
      end
  end.

(** Height, along the first children. *)
Fixpoint height (n : Node) : nat :=
  match n with
  | Leaf _ => 0
  | Internal _ ((_, ch) :: _) => S (height ch)
  | Internal _ [] => 1
  end.

(** The leaf entries that a node and its optional split-off sibling hold. *)
Definition entries_opt (s : option Node) : list (Key * Data) :=
  match s with
  | Some n => entries n
  | None => []
  end.

Definition tree_entries (t : BPlusTree) : list (Key * Data) := entries_opt (t_node t).

(** Occupancy: every leaf (of the tree's capacity) holds at most
    [max cap 1] entries and every internal node at most [max (cap + 1) 2]
    children. *)
Fixpoint sizes_ok (cap : nat) (n : Node) : Prop :=
  match n with
  | Leaf l => l_cap l = cap /\ length (l_data l) <= Nat.max cap 1
  | Internal c nodes =>
      c = cap /\ length nodes <= Nat.max (cap + 1) 2 /\ all_children (sizes_ok cap) nodes
  end.

Definition tree_sizes (t : BPlusTree) : Prop :=
  match t_node t with Some r => sizes_ok (t_cap t) r | None => True end.

Definition key_lt {A} (a b : Key * A) : Prop := fst a < fst b.

(** The ordered shape under which search finds every stored key: balanced,
    every separator the minimum key of its child, and the leaves, read left
    to right, holding strictly increasing keys. *)
Definition ordered_node (n : Node) : Prop :=
  (exists h, bal h n) /\ separators_ok n = true /\ StronglySorted key_lt (entries n).

Definition tree_ordered (t : BPlusTree) : Prop :=
  match t_node t with Some r => ordered_node r | None => True end.

(** A value [v] read from the leaves [heap] under the bound [max_key]. *)
Definition from_heap (heap : list LeafNode) (max_key : Key) (v : Data) : Prop :=
  exists k, k <= max_key /\ In (k, v) (flat_map l_data heap).

(** Leaf identities (the modelled [*const LeafNode] addresses). *)
Definition ids (n : Node) : list nat := map l_id (leaves n).

Definition ids_opt (s : option Node) : list nat :=
  match s with Some n => ids n | None => [] end.

Definition tree_ids (t : BPlusTree) : list nat := ids_opt (t_node t).

End UnsafeBPlus.

(** ** The leaf split of [src/bplus/src/lib.rs] *)
Module BPlus.

(** [struct Record { key, value }] *)
Definition Record := (nat * nat)%type.

(** [struct LeafNode { cap, data: Vec<Record>, next: Option<Weak<..>> }];
    the [Weak] reference is modelled by the identity of its allocation. *)
Record LeafNode := mkLeaf {
  l_cap : nat;
  l_data : list Record;
  l_next : option nat;
  l_id : nat
}.

(** [LeafNode::split]: the new leaf (allocated as [Rc] number [fresh]) takes
    the upper half and [self.next.take()]; then
    [self.next = Some(Rc::downgrade(&ref_node))]. *)
Definition leaf_split (l : LeafNode) (fresh : nat) : LeafNode * LeafNode :=
  let n := length (l_data l) / 2 in
  let right := skipn n (l_data l) in
  let next := l_next l in
  let new_next := mkLeaf (l_cap l) right next fresh in
  (mkLeaf (l_cap l) (firstn n (l_data l)) (Some fresh) (l_id l), new_next).

(** ** Insertion *)

(** [enum Node { Root(RootNode), Internal(InternalNode), Leaf(LeafNode) }];
    [struct RootNode { cap, data: Option<Box<Node>> }];
    [struct InternalNode { cap, data: Vec<Pair> }], a [Pair] holding a key
    and an [Rc<RefCell<Node>>].  Each [Rc] has a single owner (its pair),
    so a child is modelled by its value; a leaf carries the identity of its
    allocation, which the [Weak] forward references name. *)
Inductive Node :=
| Root (cap : nat) (data : option Node)
| Internal (cap : nat) (data : list (nat * Node))
| Leaf (leaf : LeafNode).

(** [Node::min_key]. *)
Fixpoint min_key (n : Node) : option nat :=
  match n with
  | Root _ data => match data with Some ch => min_key ch | None => None end
  | Internal _ data => option_map fst (hd_error data)
  | Leaf l => option_map fst (hd_error (l_data l))
  end.

(** [LeafNode::is_full]. *)
Definition leaf_is_full (l : LeafNode) : bool := l_cap l <? length (l_data l).

(** [LeafNode::insert]: push, stable sort by key, split when full.  The new
    leaf of a split is allocated as [Rc] number [c]. *)
Definition leaf_insert (l : LeafNode) (r : Record) (c : nat) : LeafNode * option Node * nat :=
  let l1 := mkLeaf (l_cap l) (UnsafeBPlus.sort_by_key (l_data l ++ [r])) (l_next l) (l_id l) in
  if leaf_is_full l1 then let '(l2, nw) := leaf_split l1 c in (l2, Some (Leaf nw), S c)
  else (l1, None, c).

(** [InternalNode::is_full]. *)
Definition internal_is_full (cap : nat) (data : list (nat * Node)) : bool :=
  cap + 1 <? length data.

(** The child chosen by [InternalNode::insert]: the last pair of
    [take_while(pair.key < key)], else the first pair.  As an index. *)
Definition find_child (data : list (nat * Node)) (key : nat) : nat :=
  match length (UnsafeBPlus.take_while (fun p => fst p <? key) data) with
  | S m => m
  | 0 => 0
  end.

(** The part of [InternalNode::insert] after the child insertion: the
    returned node is pushed with its minimum key (not pushed if it has
    none) and the pairs sorted by key; then [is_full] and
    [InternalNode::split]. *)
Definition internal_after (cap : nat) (data : list (nat * Node)) (splited : option Node)
  : Node * option Node :=
  let data1 :=
    match splited with
    | Some n => match min_key n with
                | Some k => UnsafeBPlus.sort_by_key (data ++ [(k, n)])
                | None => data
                end
    | None => data
    end in
  if internal_is_full cap data1 then
    let '(lo, hi) := UnsafeBPlus.split_off_half data1 in (Internal cap lo, Some (Internal cap hi))
  else (Internal cap data1, None).

(** Applying [f] to the [i]-th child and putting the result back. *)
Fixpoint update_child (f : Node -> option (Node * option Node * nat))
  (l : list (nat * Node)) (i : nat) : option (list (nat * Node) * option Node * nat) :=
  match l, i with
  | [], _ => None
  | (k, ch) :: rest, 0 =>
      match f ch with
      | Some (ch', s, c') => Some ((k, ch') :: rest, s, c')
      | None => None
      end
  | p :: rest, S j =>
      match update_child f rest j with
      | Some (rest', s, c') => Some (p :: rest', s, c')
      | None => None
      end
  end.

(** [Node::insert], dispatching to [RootNode::insert],
    [InternalNode::insert] and [LeafNode::insert].  The result is the node
    after the insertion, the split-off node returned by [Ok(Some ..)], and
    the allocation counter of leaves; [None] is a panic (an [unwrap] of
    [None] in [RootNode::insert]).  No path returns [Err]. *)
Fixpoint node_insert (n : Node) (r : Record) (c : nat) {struct n}
  : option (Node * option Node * nat) :=
  match n with
  | Root cap None => Some (Root cap (Some (Leaf (mkLeaf cap [r] None c))), None, S c)
  | Root cap (Some ch) =>
      match node_insert ch r c with
      | None => None
      | Some (ch', None, c') => Some (Root cap (Some ch'), None, c')
      | Some (ch', Some ins, c') =>
          match min_key ch', min_key ins with
          | Some a, Some b => Some (Root cap (Some (Internal cap [(a, ch'); (b, ins)])), None, c')
          | _, _ => None
          end
      end
  | Internal cap data =>
      match data with
      | [] =>
          (* the pushed empty leaf (allocation [c]) is the only child, so
             [x] is its pair and the insertion is [LeafNode::insert] *)
          let '(l', s, c') := leaf_insert (mkLeaf cap [] None c) r (S c) in
          let '(n', s') := internal_after cap [(fst r, Leaf l')] s in
          Some (n', s', c')
      | _ :: _ =>
          match update_child (fun ch => node_insert ch r c) data (find_child data (fst r)) with
          | None => None
          | Some (data2, s, c2) => let '(n', s') := internal_after cap data2 s in Some (n', s', c2)
          end
      end
  | Leaf l => let '(l', s, c') := leaf_insert l r c in Some (Leaf l', s, c')
  end.

(** [Node::new(cap)] followed by a sequence of [insert(..).unwrap()]; the
    leaf allocation counter starts at 0. *)
Fixpoint insert_all (n : Node) (ops : list Record) (c : nat) : option (Node * nat) :=
  match ops with
  | [] => Some (n, c)
  | r :: ops' =>
      match node_insert n r c with
      | Some (n', _, c') => insert_all n' ops' c'
      | None => None
      end
  end.

Definition build (cap : nat) (ops : list Record) : option (Node * nat) :=
  insert_all (Root cap None) ops 0.

(** ** Views of a tree *)

Fixpoint leaves (n : Node) : list LeafNode :=
  match n with
  | Root _ data => match data with Some ch => leaves ch | None => [] end
  | Internal _ data => flat_map (fun '(_, ch) => leaves ch) data
  | Leaf l => [l]
  end.

Definition leaves_opt (s : option Node) : list LeafNode :=
  match s with Some n => leaves n | None => [] end.

Definition entries (n : Node) : list Record := flat_map l_data (leaves n).

Definition ids (n : Node) : list nat := map l_id (leaves n).

(** Upgrading a [Weak] forward reference: the leaf of that allocation. *)
Definition deref (heap : list LeafNode) (p : option nat) : option LeafNode :=
  match p with
  | Some id => find (fun l => l_id l =? id) heap
  | None => None
  end.

(** The leaves met following forward references from [l] ([l] included);
    [fuel] bounds the steps. *)
Fixpoint follow (heap : list LeafNode) (fuel : nat) (l : LeafNode) : option (list LeafNode) :=
  match fuel with
  | 0 => None
  | S f =>
      match deref heap (l_next l) with
      | None => Some [l]
      | Some nx => option_map (cons l) (follow heap f nx)
      end
  end.

Fixpoint all_children (P : Node -> Prop) (l : list (nat * Node)) : Prop :=
  match l with
  | [] => True
  | (_, ch) :: rest => P ch /\ all_children P rest
  end.

(** Below the root: every leaf at depth [h] and holding a record, every
    internal node with a child. *)
Fixpoint bal (h : nat) (n : Node) {struct n} : Prop :=
  match n with
  | Root _ _ => False
  | Leaf l => h = 0 /\ l_data l <> []
  | Internal _ data =>
      match h with
      | 0 => False
      | S h' => data <> [] /\ all_children (bal h') data
      end
  end.

(** An order of leaf identities read as a chain: the successor of [x]. *)
Fixpoint next_in (order : list nat) (x : nat) : option nat :=
  match order with
  | [] => None
  | y :: r => if y =? x then hd_error r else next_in r x
  end.

(** [order] with [c] put right after [a]. *)
Fixpoint insert_after (a c : nat) (order : list nat) : list nat :=
  match order with
  | [] => []
  | y :: r => if y =? a then y :: c :: r else y :: insert_after a c r
  end.

(** A tree handle: a [RootNode], empty or over a balanced node. *)
Definition root_ok (n : Node) : Prop :=
  match n with
  | Root _ None => True
  | Root _ (Some ch) => exists h, bal h ch
  | _ => False
  end.

End BPlus.

(** * Properties *)


(** ** Sample inputs *)
Module Samples.
Import UnsafeBPlus.

(** Eight distinct keys with capacity 4: the fallback insertions of 1, 2, 3
    into the first leaf leave its separator at 10, and the split of that leaf
    sorts its upper half [3; 10; 20] in front of it. *)
Definition stale_ops : list (Key * Data) :=
  [(10, 10); (20, 20); (30, 30); (40, 40); (50, 50); (1, 1); (2, 2); (3, 3)].

(** Four distinct keys with capacity 1: a three-level tree in which the
    last split relinks the leaves of the first internal child only. *)
Definition cut_ops : list (Key * Data) := [(10, 10); (20, 20); (30, 30); (15, 15)].

(** The insertions of the repository's range-scan test, capacity 3. *)
Definition sample_ops : list (Key * Data) :=
  [(11, 11); (25, 25); (12, 12); (24, 24); (13, 13); (10, 10); (14, 14)].

Definition sample_tree : BPlusTree :=
  Eval vm_compute in match build 3 sample_ops with Some t => t | None => new_tree 3 end.

Definition sample_children : list (Key * Node) :=
  Eval vm_compute in
    match t_node sample_tree with Some (Internal _ ns) => ns | _ => [] end.

(** A single leaf [1; 2; 3] of capacity 3, before inserting a fourth key. *)
Definition full_tree : BPlusTree :=
  Eval vm_compute in match build 3 [(1, 1); (2, 2); (3, 3)] with
                     | Some t => t | None => new_tree 3 end.

Definition full_leaf : Node :=
  Eval vm_compute in match t_node full_tree with Some n => n | None => Internal 3 [] end.

(** Distinct keys whose first key is the smallest, capacity 2. *)
Definition asc_ops : list (Key * Data) :=
  [(2, 20); (9, 90); (5, 50); (7, 70); (3, 30); (8, 80); (4, 40)].

Definition asc_tree : BPlusTree :=
  Eval vm_compute in match build 2 asc_ops with Some t => t | None => new_tree 2 end.

(** The insertions of the second case of the [bplus] crate's insert test,
    capacity 2. *)
Definition b_test_ops : list BPlus.Record := [(9, 11); (8, 11); (7, 11); (10, 11); (11, 11)].

Definition b_test_tree : BPlus.Node :=
  Eval vm_compute in
    match BPlus.build 2 b_test_ops with Some (n, _) => n | None => BPlus.Root 2 None end.

End Samples.

Module Facts.
Import UnsafeBPlus.

(** ** Induction on nodes *)
Section NodeInd.
Variable P : Node -> Prop.
Hypothesis HLeaf : forall l, P (Leaf l).
Hypothesis HInternal : forall cap nodes,
  Forall (fun p => P (snd p)) nodes -> P (Internal cap nodes).

Fixpoint node_ind' (n : Node) : P n :=
  match n with
  | Leaf l => HLeaf l
  | Internal cap nodes =>
      HInternal cap nodes
        ((fix go (l : list (Key * Node)) : Forall (fun p => P (snd p)) l :=
            match l with
            | [] => Forall_nil _
            | (k, ch) :: rest => @Forall_cons _ (fun p => P (snd p)) (k, ch) rest
                                   (node_ind' ch) (go rest)
            end) nodes)
  end.
End NodeInd.

Lemma all_children_Forall P l :
  all_children P l <-> Forall (fun p => P (snd p)) l.
Proof.
  induction l as [| [k ch] l IH]; simpl.
  - split; auto.
  - rewrite Forall_cons_iff, IH. reflexivity.
Qed.

Lemma find_node_for_insert_nonempty cap nodes key d c :
  nodes <> [] ->
  find_node_for_insert cap nodes key d c = (nodes, c, find_mut_node nodes key).
Proof. destruct nodes; [congruence | reflexivity]. Qed.

(** ** Sorting by key *)

Lemma ins_by_key_perm {A} (x : Key * A) s : Permutation (ins_by_key x s) (x :: s).
Proof.
  induction s as [| y s IH]; simpl; [reflexivity |].
  destruct (fst y <=? fst x).
  - rewrite IH. apply perm_swap.
  - reflexivity.
Qed.

Lemma sort_by_key_perm_acc {A} (l acc : list (Key * A)) :
  Permutation (fold_left (fun s x => ins_by_key x s) l acc) (l ++ acc).
Proof.
  revert acc; induction l as [| x l IH]; intros acc; simpl; [reflexivity |].
  rewrite IH, ins_by_key_perm. symmetry. apply Permutation_middle.
Qed.

Lemma sort_by_key_perm {A} (l : list (Key * A)) : Permutation (sort_by_key l) l.
Proof. unfold sort_by_key. rewrite sort_by_key_perm_acc, app_nil_r. reflexivity. Qed.

Lemma ins_by_key_sorted {A} (x : Key * A) s :
  StronglySorted key_le s -> StronglySorted key_le (ins_by_key x s).
Proof.
  induction s as [| y s IH]; simpl; intros Hs.
  - repeat constructor.
  - apply StronglySorted_inv in Hs as [Hs Hy].
    destruct (fst y <=? fst x) eqn:E.
    + apply Nat.leb_le in E. constructor; [now apply IH |].
      eapply Permutation_Forall; [symmetry; apply ins_by_key_perm |].
      constructor; assumption.
    + apply Nat.leb_gt in E. constructor; [constructor; assumption |].
      constructor; [unfold key_le; lia |].
      eapply Forall_impl; [| exact Hy]. unfold key_le; intros; lia.
Qed.

Lemma sort_by_key_sorted {A} (l : list (Key * A)) : StronglySorted key_le (sort_by_key l).
Proof.
  unfold sort_by_key.
  assert (H : forall acc, StronglySorted key_le acc ->
            StronglySorted key_le (fold_left (fun s x => ins_by_key x s) l acc)).
  { induction l as [| x l IH]; simpl; intros acc Hacc; [assumption |].
    apply IH, ins_by_key_sorted, Hacc. }
  apply H. constructor.
Qed.

Lemma sort_by_key_snoc {A} (l : list (Key * A)) x :
  sort_by_key (l ++ [x]) = ins_by_key x (sort_by_key l).
Proof. unfold sort_by_key. rewrite fold_left_app. reflexivity. Qed.

(** Inserting into a sorted list puts [x] after all elements of key [<=] its
    own and before the others, which all have a greater key. *)
Lemma ins_by_key_split {A} (x : Key * A) s :
  StronglySorted key_le s ->
  exists l1 l2, ins_by_key x s = l1 ++ x :: l2 /\ s = l1 ++ l2 /\
                Forall (fun y => fst x < fst y) l2.
Proof.
  induction s as [| y s IH]; simpl; intros Hs.
  - exists [], []. auto.
  - apply StronglySorted_inv in Hs as [Hs Hy].
    destruct (fst y <=? fst x) eqn:E.
    + destruct (IH Hs) as (l1 & l2 & E1 & E2 & F).
      exists (y :: l1), l2. rewrite E1, E2. auto.
    + apply Nat.leb_gt in E. exists [], (y :: s). split; [reflexivity | split; [reflexivity |]].
      constructor; [assumption |].
      eapply Forall_impl; [| exact Hy]. intros a Ha. unfold key_le in Ha. simpl in *. lia.
Qed.

Lemma StronglySorted_app_inv {A} (R : A -> A -> Prop) l1 l2 :
  StronglySorted R (l1 ++ l2) ->
  StronglySorted R l1 /\ StronglySorted R l2 /\
  (forall a b, In a l1 -> In b l2 -> R a b).
Proof.
  induction l1 as [| x l1 IH]; simpl; intros H.
  - split; [constructor | split; [assumption | tauto]].
  - apply StronglySorted_inv in H as [H Hx].
    destruct (IH H) as (H1 & H2 & H3).
    rewrite Forall_app in Hx. destruct Hx as [Hx1 Hx2].
    split; [constructor; assumption | split; [assumption |]].
    intros a b [<- | Ha] Hb; [| now apply H3].
    rewrite Forall_forall in Hx2. now apply Hx2.
Qed.

Lemma split_off_half_app {A} (l : list A) :
  fst (split_off_half l) ++ snd (split_off_half l) = l.
Proof. apply firstn_skipn. Qed.

(** ** Relinking changes forward references only *)

Definition forget_pair (p : Key * Node) : Key * Node := (fst p, forget (snd p)).

Lemma relink_forget nodes :
  map forget_pair (fst (relink nodes)) = map forget_pair nodes.
Proof.
  induction nodes as [| [k n] rest IH]; simpl; [reflexivity |].
  destruct (relink rest) as [rest' p]; simpl in *.
  destruct n; simpl; rewrite IH; reflexivity.
Qed.

Lemma forget_keys l l' : map forget_pair l = map forget_pair l' -> map fst l = map fst l'.
Proof.
  intros E. apply (f_equal (map fst)) in E. rewrite !map_map in E. exact E.
Qed.

Lemma forget_pair_mark_stale p : forget_pair (mark_stale p) = forget_pair p.
Proof. destruct p as [k [| l]]; reflexivity. Qed.

Lemma forget_mark_last l : map forget_pair (mark_last l) = map forget_pair l.
Proof.
  induction l as [| p r IH]; [reflexivity |]. destruct r as [| q r].
  - simpl. rewrite forget_pair_mark_stale. reflexivity.
  - change (mark_last (p :: q :: r)) with (p :: mark_last (q :: r)).
    change (map forget_pair (p :: mark_last (q :: r))) with (forget_pair p :: map forget_pair (mark_last (q :: r))).
    rewrite IH. reflexivity.
Qed.

Lemma forget_map_mark_stale l : map forget_pair (map mark_stale l) = map forget_pair l.
Proof. rewrite map_map. apply map_ext, forget_pair_mark_stale. Qed.

Lemma length_mark_last l : length (mark_last l) = length l.
Proof. pose proof (f_equal (@length _) (forget_mark_last l)) as E. now rewrite !length_map in E. Qed.

Lemma Forall_forget (P : Node -> Prop) (HP : forall n, P (forget n) <-> P n) l l' :
  map forget_pair l = map forget_pair l' ->
  Forall (fun p => P (snd p)) l -> Forall (fun p => P (snd p)) l'.
Proof.
  revert l'; induction l as [| [k n] l IH]; intros [| [k' n'] l'] E H;
    simpl in E; try discriminate; [constructor |].
  unfold forget_pair in E; simpl in E. injection E as Ek En El.
  inversion H; subst. simpl in *.
  constructor; [| now apply IH].
  simpl. apply HP. rewrite <- En. now apply HP.
Qed.

Lemma flat_map_forget {B} (g : Node -> list B) (Hg : forall n, g (forget n) = g n) l l' :
  map forget_pair l = map forget_pair l' ->
  flat_map (fun p => g (snd p)) l = flat_map (fun p => g (snd p)) l'.
Proof.
  revert l'; induction l as [| [k n] l IH]; intros [| [k' n'] l'] E;
    simpl in E; try discriminate; [reflexivity |].
  unfold forget_pair in E; simpl in E. injection E as Ek En El.
  simpl. rewrite (IH _ El). f_equal.
  rewrite <- Hg, En, Hg. reflexivity.
Qed.

Lemma StronglySorted_keys {A B} (l : list (Key * A)) (l' : list (Key * B)) :
  map fst l = map fst l' -> StronglySorted key_le l -> StronglySorted key_le l'.
Proof.
  revert l'; induction l as [| p l IH]; intros [| p' l'] E H; simpl in E;
    try discriminate; [constructor |].
  injection E as E1 E2. apply StronglySorted_inv in H as [H Hp].
  constructor; [now apply (IH _ E2) |].
  clear IH H. revert l' E2; induction l as [| q l IHl]; intros [| q' l'] E2;
    simpl in E2; try discriminate; [constructor |].
  injection E2 as E3 E4. inversion Hp; subst.
  constructor; [unfold key_le in *; congruence | now apply IHl].
Qed.

Lemma leaves_forget n : leaves (forget n) = leaves n \/
  exists l, n = Leaf l /\ leaves (forget n) = [set_next l None].
Proof. destruct n; [left; reflexivity | right; eexists; split; reflexivity]. Qed.

Lemma entries_forget n : entries (forget n) = entries n.
Proof. destruct n as [| l]; [reflexivity | destruct l; reflexivity]. Qed.

Lemma entries_internal cap nodes :
  entries (Internal cap nodes) = flat_map (fun p => entries (snd p)) nodes.
Proof.
  unfold entries; simpl. induction nodes as [| [k ch] rest IH]; simpl; [reflexivity |].
  rewrite flat_map_app, IH. reflexivity.
Qed.

(** ** The child updated by an insertion *)

Lemma update_child_spec f l i l' s c' :
  update_child f l i = Some (l', s, c') ->
  exists l1 k ch ch' l2, l = l1 ++ (k, ch) :: l2 /\ l' = l1 ++ (k, ch') :: l2 /\
                         f ch = Some (ch', s, c').
Proof.
  revert i l'; induction l as [| [k ch] rest IH]; intros i l' H; simpl in H;
    [discriminate |].
  destruct i as [| j].
  - destruct (f ch) as [[[ch' s0] c0] |] eqn:E; [| discriminate].
    injection H as <- <- <-. exists [], k, ch, ch', rest. auto.
  - destruct (update_child f rest j) as [[[rest' s0] c0] |] eqn:E; [| discriminate].
    injection H as <- <- <-. destruct (IH _ _ E) as (l1 & k' & ch0 & ch' & l2 & -> & -> & Hf).
    exists ((k, ch) :: l1), k', ch0, ch', l2. auto.
Qed.

(** ** After the child insertion *)

Lemma internal_after_spec cap ns s n' s' :
  internal_after cap ns s = (n', s') ->
  exists nodes1,
    ((nodes1 = ns /\ (s = None \/ exists sn, s = Some sn /\ min_key sn = None)) \/
     (exists sn k, s = Some sn /\ min_key sn = Some k /\
        map forget_pair nodes1 = map forget_pair (sort_by_key (ns ++ [(k, sn)])))) /\
    ((n' = Internal cap nodes1 /\ s' = None) \/
     (n' = Internal cap (mark_last (firstn (length nodes1 / 2) nodes1)) /\
      s' = Some (Internal cap (map mark_stale (skipn (length nodes1 / 2) nodes1))) /\
      2 <= length nodes1)).
Proof.
  unfold internal_after. intros H.
  set (nodes1 := match s with
                 | Some n => match min_key n with
                             | Some k => fst (relink (sort_by_key (ns ++ [(k, n)])))
                             | None => ns
                             end
                 | None => ns
                 end) in H.
  exists nodes1. split.
  - subst nodes1. destruct s as [sn |]; [| left; auto].
    destruct (min_key sn) as [k |] eqn:E; [right | left; eauto].
    exists sn, k. split; [reflexivity | split; [assumption |]]. apply relink_forget.
  - destruct (internal_is_full cap nodes1) eqn:F.
    + right. unfold internal_split, split_off_half in H. injection H as <- <-.
      unfold internal_is_full in F. apply Nat.ltb_lt in F.
      split; [reflexivity | split; [reflexivity | lia]].
    + left. injection H as <- <-. auto.
Qed.

Lemma firstn_half_nonempty {A} (l : list A) :
  2 <= length l -> firstn (length l / 2) l <> [] /\ skipn (length l / 2) l <> [].
Proof.
  intros H. split.
  - intros E. apply (f_equal (@length A)) in E. rewrite length_firstn in E.
    change (length (@nil A)) with 0 in E.
    assert (1 <= length l / 2) by (apply Nat.div_le_lower_bound; lia).
    assert (length l / 2 <= length l) by (apply Nat.Div0.div_le_upper_bound; lia).
    rewrite Nat.min_l in E by assumption. lia.
  - intros E. apply (f_equal (@length A)) in E. rewrite length_skipn in E.
    change (length (@nil A)) with 0 in E.
    assert (length l / 2 < length l) by (apply Nat.div_lt; lia). lia.
Qed.

(** A property of nodes blind to forward references holds of all children
    after [internal_after] when it held of the children before and of the
    split-off sibling; the children are those before, or those before with
    the sibling, sorted (up to forward references). *)
Lemma internal_after_Forall (P : Node -> Prop) (HP : forall n, P (forget n) <-> P n)
  cap ns s n' s' :
  internal_after cap ns s = (n', s') ->
  Forall (fun p => P (snd p)) ns -> (forall sn, s = Some sn -> P sn) ->
  exists lo hi, n' = Internal cap lo /\ Forall (fun p => P (snd p)) (lo ++ hi) /\
    ((s' = None /\ hi = []) \/ (s' = Some (Internal cap hi) /\ lo <> [] /\ hi <> [])) /\
    ((map forget_pair (lo ++ hi) = map forget_pair ns /\
      (s = None \/ exists sn, s = Some sn /\ min_key sn = None)) \/
     (exists sn k, s = Some sn /\ min_key sn = Some k /\
        map forget_pair (lo ++ hi) = map forget_pair (sort_by_key (ns ++ [(k, sn)])))).
Proof.
  intros H Hns Hs. destruct (internal_after_spec _ _ _ _ _ H) as (nodes1 & Hn1 & Hsh).
  assert (F1 : Forall (fun p => P (snd p)) nodes1).
  { destruct Hn1 as [[-> _] | (sn & k & -> & _ & E)]; [assumption |].
    eapply Forall_forget; [exact HP | symmetry; exact E |].
    eapply Permutation_Forall; [symmetry; apply sort_by_key_perm |].
    apply Forall_app; split; [assumption |]. constructor; [now apply Hs | constructor]. }
  assert (C1 : (map forget_pair nodes1 = map forget_pair ns /\
                (s = None \/ exists sn, s = Some sn /\ min_key sn = None)) \/
               (exists sn k, s = Some sn /\ min_key sn = Some k /\
                  map forget_pair nodes1 = map forget_pair (sort_by_key (ns ++ [(k, sn)])))).
  { destruct Hn1 as [[-> Hs'] | Hn1]; [left; auto | right; exact Hn1]. }
  destruct Hsh as [[-> ->] | (-> & -> & L)].
  - exists nodes1, []. rewrite app_nil_r.
    split; [reflexivity | split; [assumption | split; [left; auto | exact C1]]].
  - exists (mark_last (firstn (length nodes1 / 2) nodes1)),
      (map mark_stale (skipn (length nodes1 / 2) nodes1)).
    assert (E : map forget_pair (mark_last (firstn (length nodes1 / 2) nodes1) ++
                                 map mark_stale (skipn (length nodes1 / 2) nodes1)) =
                map forget_pair nodes1).
    { rewrite map_app, forget_mark_last, forget_map_mark_stale, <- map_app, firstn_skipn.
      reflexivity. }
    destruct (firstn_half_nonempty _ L) as [N1 N2].
    split; [reflexivity | split; [eapply Forall_forget; [exact HP | symmetry; exact E | exact F1] |]].
    split.
    + right. split; [reflexivity | split].
      * intros Z. apply N1, length_zero_iff_nil. rewrite <- length_mark_last, Z. reflexivity.
      * intros Z. apply N2, length_zero_iff_nil. rewrite <- (length_map mark_stale), Z. reflexivity.
    + rewrite E. exact C1.
Qed.

Lemma node_insert_internal cap p r key d c :
  node_insert (Internal cap (p :: r)) key d c =
  match find_mut_node (p :: r) key with
  | None => None
  | Some i =>
      match update_child (fun ch => node_insert ch key d c) (p :: r) i with
      | None => None
      | Some (nodes2, s, c2) => let '(n', s') := internal_after cap nodes2 s in Some (n', s', c2)
      end
  end.
Proof. reflexivity. Qed.

Lemma leaf_insert_spec l key d c l' s c' :
  leaf_insert l key d c = (l', s, c') ->
  forall sorted, sorted = sort_by_key (l_data l ++ [(key, d)]) ->
  (s = None /\ l' = set_data l sorted /\ c' = c) \/
  (exists nw, s = Some (Leaf nw) /\
     l' = set_data l (firstn (length sorted / 2) sorted) /\
     nw = MkLeaf (l_cap l) (skipn (length sorted / 2) sorted) (l_next l) c (l_stale l) /\ c' = S c).
Proof.
  unfold leaf_insert. intros H sorted Es. rewrite <- Es in H.
  destruct (leaf_is_full (set_data l sorted)).
  - right. injection H as <- <- <-. eexists. split; [reflexivity |]. auto.
  - left. injection H as <- <- <-. auto.
Qed.

Lemma sort_snoc_length {A} (l : list (Key * A)) x :
  length (sort_by_key (l ++ [x])) = S (length l).
Proof.
  rewrite (Permutation_length (sort_by_key_perm _)), length_app. simpl. lia.
Qed.

(** ** Insertion keeps nodes sorted *)

Lemma sorted_node_forget n : sorted_node (forget n) <-> sorted_node n.
Proof. destruct n as [| l]; [reflexivity | destruct l; reflexivity]. Qed.

Lemma sorted_internal cap ns :
  sorted_node (Internal cap ns) <->
  StronglySorted key_le ns /\ Forall (fun p => sorted_node (snd p)) ns.
Proof. simpl. rewrite all_children_Forall. reflexivity. Qed.

Lemma min_key_le_of_sorted {A} (lo hi : list (Key * A)) a b :
  StronglySorted key_le (lo ++ hi) ->
  option_map fst (hd_error lo) = Some a -> option_map fst (hd_error hi) = Some b -> a <= b.
Proof.
  intros H Ha Hb. apply StronglySorted_app_inv in H as (_ & _ & H).
  destruct lo as [| x lo]; [discriminate |]. destruct hi as [| y hi]; [discriminate |].
  simpl in Ha, Hb. injection Ha as <-. injection Hb as <-.
  apply (H x y); simpl; auto.
Qed.

Lemma node_insert_sorted n : forall key d c n' s c',
  sorted_node n -> node_insert n key d c = Some (n', s, c') ->
  sorted_node n' /\
  (forall sn, s = Some sn ->
     sorted_node sn /\ forall a b, min_key n' = Some a -> min_key sn = Some b -> a <= b).
Proof.
  induction n as [l | cap ns IH] using node_ind'; intros key d c n' s c' Hn H.
  - simpl in H. destruct (leaf_insert l key d c) as [[l' s0] c0] eqn:E.
    injection H as <- <- <-.
    pose proof (sort_by_key_sorted (l_data l ++ [(key, d)])) as Hs.
    destruct (leaf_insert_spec _ _ _ _ _ _ _ E _ eq_refl) as [(-> & -> & _) | (nw & -> & -> & -> & _)].
    + split; [exact Hs | discriminate].
    + rewrite <- (firstn_skipn (length (sort_by_key (l_data l ++ [(key, d)])) / 2)) in Hs.
      pose proof Hs as Hs'. apply StronglySorted_app_inv in Hs' as (H1 & H2 & _).
      split; [exact H1 |]. intros sn E'. injection E' as <-.
      split; [exact H2 |]. intros a b Ha Hb. exact (min_key_le_of_sorted _ _ _ _ Hs Ha Hb).
  - destruct ns as [| p r].
    + simpl in H. injection H as <- <- <-. split; [| discriminate].
      simpl. repeat constructor.
    + rewrite node_insert_internal in H.
      destruct (find_mut_node (p :: r) key) as [i |]; [| discriminate].
      destruct (update_child _ _ _) as [[[ns2 s0] c2] |] eqn:U; [| discriminate].
      destruct (internal_after cap ns2 s0) as [n1 s1] eqn:A. injection H as <- <- <-.
      apply sorted_internal in Hn as [Hsort Hall].
      destruct (update_child_spec _ _ _ _ _ _ U) as (l1 & k & ch & ch' & l2 & E1 & E2 & Hf).
      rewrite E1 in Hall, IH.
      assert (Hch : sorted_node ch).
      { rewrite Forall_app in Hall. exact (Forall_inv (proj2 Hall)). }
      rewrite Forall_app in IH. pose proof (Forall_inv (proj2 IH)) as IHch. simpl in IHch.
      destruct (IHch _ _ _ _ _ _ Hch Hf) as [Hch' Hs0].
      assert (Hns2 : Forall (fun p => sorted_node (snd p)) ns2).
      { rewrite E2. rewrite Forall_app in Hall |- *. destruct Hall as [Ha Hb].
        inversion Hb; subst. split; [assumption | constructor; assumption]. }
      assert (Sns2 : StronglySorted key_le ns2).
      { apply (StronglySorted_keys (p :: r)); [| assumption].
        rewrite E1, E2, !map_app. reflexivity. }
      destruct (internal_after_Forall sorted_node sorted_node_forget _ _ _ _ _ A Hns2
                  (fun sn Esn => proj1 (Hs0 sn Esn)))
        as (lo & hi & -> & Fall & Hshape & Hcont).
      assert (Slh : StronglySorted key_le (lo ++ hi)).
      { destruct Hcont as [[Ec _] | (sn & k' & _ & _ & Ec)].
        - apply (StronglySorted_keys ns2); [| assumption].
          symmetry. now apply forget_keys.
        - apply (StronglySorted_keys (sort_by_key (ns2 ++ [(k', sn)])));
            [| apply sort_by_key_sorted].
          symmetry. now apply forget_keys. }
      pose proof Slh as Slh'. apply StronglySorted_app_inv in Slh' as (Slo & Shi & _).
      rewrite Forall_app in Fall. destruct Fall as [Flo Fhi].
      split; [apply sorted_internal; auto |].
      destruct Hshape as [[-> _] | (-> & _ & _)]; [discriminate |].
      intros sn E'. injection E' as <-. split; [apply sorted_internal; auto |].
      intros a b Ha Hb. exact (min_key_le_of_sorted _ _ _ _ Slh Ha Hb).
Qed.

(** ** Insertion keeps the tree balanced *)

Lemma bal_forget h n : bal h (forget n) <-> bal h n.
Proof. destruct n as [| l]; [reflexivity | destruct l; reflexivity]. Qed.

Lemma bal_internal h cap ns :
  bal (S h) (Internal cap ns) <-> ns <> [] /\ Forall (fun p => bal h (snd p)) ns.
Proof. simpl. rewrite all_children_Forall. reflexivity. Qed.

Lemma nonempty_of_forget (l l' : list (Key * Node)) :
  map forget_pair l = map forget_pair l' -> l' <> [] -> l <> [].
Proof. intros E H ->. destruct l'; [congruence | discriminate]. Qed.

Lemma node_insert_bal n : forall h key d c n' s c',
  bal h n -> node_insert n key d c = Some (n', s, c') ->
  bal h n' /\ (forall sn, s = Some sn -> bal h sn).
Proof.
  induction n as [l | cap ns IH] using node_ind'; intros h key d c n' s c' Hn H.
  - simpl in H. destruct (leaf_insert l key d c) as [[l' s0] c0] eqn:E.
    injection H as <- <- <-. destruct Hn as [-> Hne].
    assert (L : 2 <= length (sort_by_key (l_data l ++ [(key, d)]))).
    { rewrite sort_snoc_length. destruct (l_data l); [congruence | simpl; lia]. }
    destruct (leaf_insert_spec _ _ _ _ _ _ _ E _ eq_refl) as [(-> & -> & _) | (nw & -> & -> & -> & _)].
    + split; [| discriminate]. split; [reflexivity |]. simpl. intros E'.
      rewrite E' in L. simpl in L. lia.
    + destruct (firstn_half_nonempty _ L) as [N1 N2].
      split; [split; [reflexivity | exact N1] |].
      intros sn E'. injection E' as <-. split; [reflexivity | exact N2].
  - destruct h as [| h]; [destruct Hn |].
    apply bal_internal in Hn as [Hne Hall].
    destruct ns as [| p r]; [congruence |].
    rewrite node_insert_internal in H.
    destruct (find_mut_node (p :: r) key) as [i |]; [| discriminate].
    destruct (update_child _ _ _) as [[[ns2 s0] c2] |] eqn:U; [| discriminate].
    destruct (internal_after cap ns2 s0) as [n1 s1] eqn:A. injection H as <- <- <-.
    destruct (update_child_spec _ _ _ _ _ _ U) as (l1 & k & ch & ch' & l2 & E1 & E2 & Hf).
    rewrite E1 in Hall, IH.
    assert (Hch : bal h ch).
    { rewrite Forall_app in Hall. exact (Forall_inv (proj2 Hall)). }
    rewrite Forall_app in IH. pose proof (Forall_inv (proj2 IH)) as IHch. simpl in IHch.
    destruct (IHch _ _ _ _ _ _ _ Hch Hf) as [Hch' Hs0].
    assert (Hns2 : Forall (fun p => bal h (snd p)) ns2).
    { rewrite E2. rewrite Forall_app in Hall |- *. destruct Hall as [Ha Hb].
      inversion Hb; subst. split; [assumption | constructor; assumption]. }
    destruct (internal_after_Forall (bal h) (bal_forget h) _ _ _ _ _ A Hns2 Hs0)
      as (lo & hi & -> & Fall & Hshape & Hcont).
    assert (Nlh : lo ++ hi <> []).
    { destruct Hcont as [[Ec _] | (sn & k' & _ & _ & Ec)];
        eapply nonempty_of_forget; try exact Ec.
      - rewrite E2. destruct l1; discriminate.
      - intros Es. apply (f_equal (@length _)) in Es.
        rewrite sort_snoc_length in Es. discriminate. }
    rewrite Forall_app in Fall. destruct Fall as [Flo Fhi].
    destruct Hshape as [[-> ->] | (-> & Nlo & Nhi)].
    + rewrite app_nil_r in Nlh. split; [apply bal_internal; auto | discriminate].
    + split; [apply bal_internal; auto |].
      intros sn E'. injection E' as <-. apply bal_internal; auto.
Qed.

(** ** Insertion adds exactly one entry *)

Lemma entries_leaf l : entries (Leaf l) = l_data l.
Proof. unfold entries. simpl. apply app_nil_r. Qed.

Lemma entries_no_min n : min_key n = None -> entries n = [].
Proof.
  destruct n as [cap [| [k ch] ns] | l]; simpl; try discriminate; [reflexivity |].
  rewrite entries_leaf. destruct (l_data l); [reflexivity | discriminate].
Qed.

Lemma perm_swap_middle {A} (a x c y : list A) :
  Permutation (a ++ x ++ c ++ y) (a ++ (x ++ y) ++ c).
Proof.
  apply Permutation_app_head. rewrite <- app_assoc. apply Permutation_app_head.
  apply Permutation_app_comm.
Qed.

Lemma node_insert_entries n : forall key d c n' s c',
  node_insert n key d c = Some (n', s, c') ->
  Permutation (entries n' ++ entries_opt s) ((key, d) :: entries n).
Proof.
  induction n as [l | cap ns IH] using node_ind'; intros key d c n' s c' H.
  - simpl in H. destruct (leaf_insert l key d c) as [[l' s0] c0] eqn:E.
    injection H as <- <- <-. rewrite entries_leaf.
    assert (P : Permutation (sort_by_key (l_data l ++ [(key, d)])) ((key, d) :: l_data l))
      by (eapply perm_trans; [apply sort_by_key_perm | apply Permutation_app_comm]).
    destruct (leaf_insert_spec _ _ _ _ _ _ _ E _ eq_refl) as [(-> & -> & _) | (nw & -> & -> & -> & _)].
    + simpl. rewrite entries_leaf, app_nil_r. exact P.
    + simpl. rewrite !entries_leaf. simpl. rewrite firstn_skipn. exact P.
  - destruct ns as [| p r].
    + simpl in H. injection H as <- <- <-. reflexivity.
    + rewrite node_insert_internal in H.
      destruct (find_mut_node (p :: r) key) as [i |]; [| discriminate].
      destruct (update_child _ _ _) as [[[ns2 s0] c2] |] eqn:U; [| discriminate].
      destruct (internal_after cap ns2 s0) as [n1 s1] eqn:A. injection H as <- <- <-.
      destruct (update_child_spec _ _ _ _ _ _ U) as (l1 & k & ch & ch' & l2 & E1 & E2 & Hf).
      rewrite E1 in IH. rewrite Forall_app in IH. pose proof (Forall_inv (proj2 IH)) as IHch.
      simpl in IHch. specialize (IHch _ _ _ _ _ _ Hf).
      assert (T : Forall (fun p : Key * Node => True) ns2) by (apply Forall_forall; auto).
      destruct (internal_after_Forall (fun _ => True) (fun _ => iff_refl True) _ _ _ _ _ A
                  T (fun _ _ => I))
        as (lo & hi & -> & _ & Hshape & Hcont).
      assert (Eout : entries (Internal cap lo) ++ entries_opt s1 =
                     flat_map (fun p => entries (snd p)) (lo ++ hi)).
      { destruct Hshape as [[-> ->] | (-> & _ & _)]; simpl;
          rewrite ?entries_internal, ?flat_map_app, ?app_nil_r; reflexivity. }
      rewrite Eout, E1, entries_internal, (flat_map_app _ l1). simpl.
      destruct Hcont as [[Ec Hs0] | (sn & k' & -> & _ & Ec)].
      * rewrite (flat_map_forget entries entries_forget _ _ Ec), E2, flat_map_app. simpl.
        assert (entries_opt s0 = []) as Z.
        { destruct Hs0 as [-> | (sn & -> & Hm)]; [reflexivity | now apply entries_no_min]. }
        rewrite Z, app_nil_r in IHch. rewrite IHch. simpl.
        symmetry. apply Permutation_middle.
      * rewrite (flat_map_forget entries entries_forget _ _ Ec).
        rewrite (Permutation_flat_map _ (sort_by_key_perm _)).
        rewrite E2, !flat_map_app. simpl. rewrite <- !app_assoc, app_nil_r.
        rewrite perm_swap_middle. simpl in IHch. rewrite IHch. simpl.
        symmetry. apply Permutation_middle.
Qed.

(** ** Routing on sorted children *)

Lemma last_le_above {A} (r : list (Key * A)) key j acc :
  Forall (fun p => key < fst p) r -> last_le r key j acc = acc.
Proof.
  revert j; induction r as [| [k x] r IH]; intros j H; simpl; [reflexivity |].
  inversion H as [| ? ? Hk Hr]; subst. simpl in Hk.
  destruct (k <=? key) eqn:E; [apply Nat.leb_le in E; lia |]. now apply IH.
Qed.

Lemma above_of_sorted {A} k (x : A) r key :
  StronglySorted key_le ((k, x) :: r) -> key < k -> Forall (fun p => key < fst p) r.
Proof.
  intros H Hk. apply StronglySorted_inv in H as [_ H].
  eapply Forall_impl; [| exact H]. intros [k' x'] Hle. unfold key_le in Hle. simpl in *. lia.
Qed.

Lemma last_le_sorted {A} (ns : list (Key * A)) key : StronglySorted key_le ns ->
  forall i acc, last_le ns key i acc =
    match length (take_while (fun p => fst p <=? key) ns) with
    | 0 => acc
    | S m => Some (i + m)
    end.
Proof.
  induction ns as [| [k x] r IH]; intros H i acc; simpl; [reflexivity |].
  destruct (k <=? key) eqn:E; simpl.
  - rewrite IH by (now apply StronglySorted_inv in H).
    destruct (length _); f_equal; lia.
  - apply Nat.leb_gt in E. apply last_le_above. now apply (above_of_sorted k x).
Qed.

Lemma existsb_above {A} (r : list (Key * A)) key :
  Forall (fun p => key < fst p) r -> existsb (fun p => fst p <=? key) r = false.
Proof.
  induction r as [| [k x] r IH]; intros H; simpl; [reflexivity |].
  inversion H as [| ? ? Hk Hr]; subst. simpl in Hk.
  destruct (k <=? key) eqn:E; [apply Nat.leb_le in E; lia |]. now apply IH.
Qed.

Lemma route_sorted {A} (ns : list (Key * A)) key :
  StronglySorted key_le ns ->
  find_mut_node ns key = find_node ns key /\ find_node ns key = spec_route ns key.
Proof.
  intros H. unfold find_mut_node, find_node, spec_route.
  rewrite (last_le_sorted ns key H 0 None).
  destruct ns as [| [k x] r]; [split; reflexivity |].
  simpl. destruct (k <=? key) eqn:E; simpl.
  - split; reflexivity.
  - apply Nat.leb_gt in E. rewrite existsb_above by (now apply (above_of_sorted k x)).
    split; reflexivity.
Qed.

(** ** The tree handle *)

Lemma grow_root_spec cap n' s r :
  grow_root cap n' s = Some r ->
  exists a b old', min_key n' = Some a /\ min_key s = Some b /\
    r = Internal cap [(a, old'); (b, s)] /\ forget old' = forget n' /\
    min_key old' = min_key n'.
Proof.
  unfold grow_root. destruct (min_key n') as [a |] eqn:Ea; [| discriminate].
  destruct (min_key s) as [b |] eqn:Eb; [| discriminate]. intros H. injection H as <-.
  eexists a, b, _. split; [reflexivity | split; [reflexivity | split; [reflexivity |]]].
  destruct n'; split; simpl in *; first [reflexivity | congruence].
Qed.

Lemma forget_iff (P : Node -> Prop) (HP : forall n, P (forget n) <-> P n) n m :
  forget n = forget m -> P n <-> P m.
Proof. intros E. rewrite <- HP, E, HP. reflexivity. Qed.

Lemma insert_all_inv (Inv : BPlusTree -> Prop) :
  (forall t k d t', Inv t -> tree_insert t k d = Some t' -> Inv t') ->
  forall ops t t', Inv t -> insert_all t ops = Some t' -> Inv t'.
Proof.
  intros Step ops; induction ops as [| [k d] ops IH]; intros t t' Ht H; simpl in H.
  - injection H as <-. exact Ht.
  - destruct (tree_insert t k d) as [t1 |] eqn:E; [| discriminate].
    exact (IH _ _ (Step _ _ _ _ Ht E) H).
Qed.

Definition tree_sorted (t : BPlusTree) : Prop :=
  match t_node t with Some r => sorted_node r | None => True end.

Lemma tree_insert_sorted t k d t' :
  tree_sorted t -> tree_insert t k d = Some t' -> tree_sorted t'.
Proof.
  unfold tree_sorted, tree_insert. intros Ht H.
  destruct (t_node t) as [n |].
  - destruct (node_insert n k d (t_cnt t)) as [[[n' [s |]] c'] |] eqn:E; [| | discriminate].
    + destruct (grow_root (t_cap t) n' s) as [r |] eqn:G; [| discriminate].
      injection H as <-. simpl.
      destruct (node_insert_sorted _ _ _ _ _ _ _ Ht E) as [Hn' Hs].
      destruct (Hs s eq_refl) as [Hs' Hle].
      destruct (grow_root_spec _ _ _ _ G) as (a & b & old' & Ea & Eb & -> & Ef & Em).
      apply sorted_internal. split.
      * repeat constructor. unfold key_le. simpl. apply Hle; assumption.
      * repeat constructor; [| assumption].
        simpl. now apply (forget_iff sorted_node sorted_node_forget _ _ Ef).
    + injection H as <-. simpl. exact (proj1 (node_insert_sorted _ _ _ _ _ _ _ Ht E)).
  - injection H as <-. simpl. repeat constructor.
Qed.

Definition tree_bal (t : BPlusTree) : Prop :=
  match t_node t with Some r => exists h, bal h r | None => True end.

Lemma grow_root_bal h cap n' s r :
  bal h n' -> bal h s -> grow_root cap n' s = Some r -> bal (S h) r.
Proof.
  intros Hn Hs G. destruct (grow_root_spec _ _ _ _ G) as (a & b & old' & _ & _ & -> & Ef & _).
  apply bal_internal. split; [discriminate |].
  repeat constructor; [| assumption].
  simpl. now apply (forget_iff (bal h) (bal_forget h) _ _ Ef).
Qed.

Lemma tree_insert_bal t k d t' :
  tree_bal t -> tree_insert t k d = Some t' -> tree_bal t'.
Proof.
  unfold tree_bal, tree_insert. intros Ht H.
  destruct (t_node t) as [n |].
  - destruct Ht as [h Ht].
    destruct (node_insert n k d (t_cnt t)) as [[[n' [s |]] c'] |] eqn:E; [| | discriminate].
    + destruct (grow_root (t_cap t) n' s) as [r |] eqn:G; [| discriminate].
      injection H as <-. simpl.
      destruct (node_insert_bal _ _ _ _ _ _ _ _ Ht E) as [Hn' Hs].
      exists (S h). exact (grow_root_bal _ _ _ _ _ Hn' (Hs s eq_refl) G).
    + injection H as <-. simpl. exists h. exact (proj1 (node_insert_bal _ _ _ _ _ _ _ _ Ht E)).
  - injection H as <-. simpl. exists 0. split; [reflexivity | discriminate].
Qed.

Lemma sub_node_sorted r m : sub_node r m -> sorted_node r -> sorted_node m.
Proof.
  induction 1 as [n | cap nodes k ch m Hin _ IH]; intros H; [exact H |].
  apply sorted_internal in H as [_ H]. rewrite Forall_forall in H.
  apply IH, (H (k, ch) Hin).
Qed.

Lemma sub_node_bal r m : sub_node r m -> forall h, bal h r -> exists h', bal h' m.
Proof.
  induction 1 as [n | cap nodes k ch m Hin _ IH]; intros h H; [eauto |].
  destruct h as [| h]; [destruct H |].
  apply bal_internal in H as [_ H]. rewrite Forall_forall in H.
  exact (IH h (H (k, ch) Hin)).
Qed.

Lemma tree_insert_entries t k d t' :
  tree_insert t k d = Some t' -> Permutation (tree_entries t') ((k, d) :: tree_entries t).
Proof.
  unfold tree_entries, tree_insert. intros H.
  destruct (t_node t) as [n |].
  - destruct (node_insert n k d (t_cnt t)) as [[[n' s] c'] |] eqn:E; [| discriminate].
    pose proof (node_insert_entries _ _ _ _ _ _ _ E) as P.
    destruct s as [s |].
    + destruct (grow_root (t_cap t) n' s) as [r |] eqn:G; [| discriminate].
      injection H as <-. simpl.
      destruct (grow_root_spec _ _ _ _ G) as (a & b & old' & _ & _ & -> & Ef & _).
      rewrite entries_internal. simpl. rewrite app_nil_r.
      rewrite <- (entries_forget old'), Ef, entries_forget. exact P.
    + injection H as <-. simpl. simpl in P. rewrite app_nil_r in P. exact P.
  - injection H as <-. reflexivity.
Qed.

Lemma bal_min_key h n : bal h n -> exists a, min_key n = Some a.
Proof.
  destruct n as [cap [| [k ch] ns] | l]; intros H.
  - destruct h; [destruct H | destruct H as [H _]; congruence].
  - exists k. reflexivity.
  - destruct H as [_ H]. simpl. destruct (l_data l) as [| [k v] r]; [congruence |].
    exists k. reflexivity.
Qed.

Lemma bal_height n : forall h, bal h n -> height n = h.
Proof.
  induction n as [l | cap ns IH] using node_ind'; intros h H.
  - destruct H as [-> _]. reflexivity.
  - destruct h as [| h]; [destruct H |].
    apply bal_internal in H as [Hne Hall].
    destruct ns as [| [k ch] r]; [congruence |].
    simpl. f_equal. apply (Forall_inv IH). exact (Forall_inv Hall).
Qed.

Lemma build_sorted cap ops t : build cap ops = Some t -> tree_sorted t.
Proof. apply insert_all_inv; [exact tree_insert_sorted | exact I]. Qed.

Lemma build_bal cap ops t : build cap ops = Some t -> tree_bal t.
Proof. apply insert_all_inv; [exact tree_insert_bal | exact I]. Qed.

End Facts.

Module Facts2.
Import UnsafeBPlus Facts.

(** ** Insertion never panics on a sorted, balanced tree *)

Lemma take_while_length_le {A} (f : A -> bool) l : length (take_while f l) <= length l.
Proof.
  induction l as [| x l IH]; simpl; [lia |]. destruct (f x); simpl; lia.
Qed.

Lemma find_node_lt {A} (ns : list (Key * A)) key :
  ns <> [] -> exists i, find_node ns key = Some i /\ i < length ns.
Proof.
  intros H. unfold find_node.
  pose proof (take_while_length_le (fun p => fst p <=? key) ns) as L.
  destruct (length (take_while _ ns)) as [| m].
  - destruct ns; [congruence |]. exists 0. simpl. split; [reflexivity | lia].
  - exists m. split; [reflexivity | lia].
Qed.

Lemma update_child_some f l i :
  i < length l -> Forall (fun p => exists r, f (snd p) = Some r) l ->
  exists r, update_child f l i = Some r.
Proof.
  revert i; induction l as [| [k ch] rest IH]; intros i Hi H; simpl in Hi; [lia |].
  inversion H as [| ? ? Hch Hrest]; subst. simpl in Hch.
  destruct i as [| j]; simpl.
  - destruct Hch as [[[ch' s] c'] E]. rewrite E. eexists. reflexivity.
  - destruct (IH j ltac:(lia) Hrest) as [[[rest' s] c'] E]. rewrite E.
    eexists. reflexivity.
Qed.

Lemma node_insert_some n : forall h key d c,
  bal h n -> sorted_node n -> exists r, node_insert n key d c = Some r.
Proof.
  induction n as [l | cap ns IH] using node_ind'; intros h key d c Hb Hs.
  - simpl. destruct (leaf_insert l key d c) as [[l' s] c']. eexists. reflexivity.
  - destruct h as [| h]; [destruct Hb |].
    apply bal_internal in Hb as [Hne Hball].
    apply sorted_internal in Hs as [Hsort Hsall].
    destruct ns as [| p r]; [congruence |].
    rewrite node_insert_internal.
    destruct (route_sorted _ key Hsort) as [Er _]. rewrite Er.
    destruct (find_node_lt (p :: r) key Hne) as (i & -> & Hi).
    assert (F : Forall (fun q => exists r0, node_insert (snd q) key d c = Some r0) (p :: r)).
    { rewrite Forall_forall in IH, Hball, Hsall |- *. intros q Hq.
      exact (IH q Hq h key d c (Hball q Hq) (Hsall q Hq)). }
    destruct (update_child_some (fun ch => node_insert ch key d c) _ _ Hi F) as [[[ns2 s] c2] E]. rewrite E.
    destruct (internal_after cap ns2 s) as [n' s']. eexists. reflexivity.
Qed.

Lemma tree_insert_some t k d :
  tree_bal t -> tree_sorted t -> exists t', tree_insert t k d = Some t'.
Proof.
  unfold tree_bal, tree_sorted, tree_insert. intros Hb Hs.
  destruct (t_node t) as [n |]; [| eexists; reflexivity].
  destruct Hb as [h Hb].
  destruct (node_insert_some n h k d (t_cnt t) Hb Hs) as [[[n' s] c'] E]. rewrite E.
  destruct (node_insert_bal _ _ _ _ _ _ _ _ Hb E) as [Hn' Hs'].
  destruct s as [sn |]; [| eexists; reflexivity].
  destruct (bal_min_key _ _ Hn') as [a Ea].
  destruct (bal_min_key _ _ (Hs' sn eq_refl)) as [b Eb].
  unfold grow_root. rewrite Ea, Eb. eexists. reflexivity.
Qed.

Lemma insert_all_some ops : forall t,
  tree_bal t -> tree_sorted t -> exists t', insert_all t ops = Some t'.
Proof.
  induction ops as [| [k d] ops IH]; intros t Hb Hs; simpl; [eexists; reflexivity |].
  destruct (tree_insert_some t k d Hb Hs) as [t1 E]. rewrite E.
  exact (IH t1 (tree_insert_bal _ _ _ _ Hb E) (tree_insert_sorted _ _ _ _ Hs E)).
Qed.

(** ** The entries of a built tree *)

Lemma insert_all_entries ops : forall t t',
  insert_all t ops = Some t' -> Permutation (tree_entries t') (rev ops ++ tree_entries t).
Proof.
  induction ops as [| [k d] ops IH]; intros t t' H; simpl in H.
  - injection H as <-. reflexivity.
  - destruct (tree_insert t k d) as [t1 |] eqn:E; [| discriminate].
    rewrite (IH _ _ H), (tree_insert_entries _ _ _ _ E). simpl.
    rewrite <- app_assoc. simpl. reflexivity.
Qed.

Lemma build_entries cap ops t :
  build cap ops = Some t -> Permutation (tree_entries t) ops.
Proof.
  intros H. rewrite (insert_all_entries _ _ _ H). simpl. rewrite app_nil_r.
  symmetry. apply Permutation_rev.
Qed.

(** ** Search returns stored entries *)

Lemma child_apply_cases {B} (f : Node -> B) dflt l i :
  child_apply f dflt l i = dflt \/
  exists k ch, In (k, ch) l /\ child_apply f dflt l i = f ch.
Proof.
  revert i; induction l as [| [k ch] rest IH]; intros i; simpl; [left; reflexivity |].
  destruct i as [| j].
  - right. exists k, ch. auto.
  - destruct (IH j) as [E | (k' & ch' & Hin & E)]; [left; exact E |].
    right. exists k', ch'. auto.
Qed.

Lemma entries_child cap ns k ch x :
  In (k, ch) ns -> In x (entries ch) -> In x (entries (Internal cap ns)).
Proof.
  intros Hk Hx. rewrite entries_internal. apply in_flat_map. exists (k, ch). auto.
Qed.

Lemma node_search_sound n : forall key v,
  node_search n key = Some v -> In (key, v) (entries n).
Proof.
  induction n as [l | cap ns IH] using node_ind'; intros key v H.
  - rewrite entries_leaf. simpl in H. unfold leaf_search in H.
    destruct (find (fun p => fst p =? key) (l_data l)) as [[k v'] |] eqn:E; [| discriminate].
    simpl in H. injection H as <-.
    destruct (find_some _ _ E) as [Hin Hk]. simpl in Hk. apply Nat.eqb_eq in Hk.
    subst. exact Hin.
  - simpl in H. destruct (find_node ns key) as [i |]; [| discriminate].
    destruct (child_apply_cases (fun ch => node_search ch key) None ns i)
      as [E | (k & ch & Hin & E)]; rewrite E in H; [discriminate |].
    rewrite Forall_forall in IH.
    exact (entries_child cap ns k ch _ Hin (IH (k, ch) Hin key v H)).
Qed.

(** ** Occupancy bounds *)

Lemma sizes_forget cap n : sizes_ok cap (forget n) <-> sizes_ok cap n.
Proof. destruct n as [| l]; [reflexivity | destruct l; reflexivity]. Qed.

Lemma sizes_internal cap c ns :
  sizes_ok cap (Internal c ns) <->
  c = cap /\ length ns <= Nat.max (cap + 1) 2 /\ Forall (fun p => sizes_ok cap (snd p)) ns.
Proof. simpl. rewrite all_children_Forall. reflexivity. Qed.

Lemma relink_length ns : length (fst (relink ns)) = length ns.
Proof.
  rewrite <- (length_map forget_pair), relink_forget, length_map. reflexivity.
Qed.

Lemma half_bounds M len :
  len <= S M -> 1 <= M -> len / 2 <= M /\ len - len / 2 <= M.
Proof.
  intros H1 H2.
  pose proof (Nat.div_mod_eq len 2). pose proof (Nat.mod_upper_bound len 2 ltac:(lia)).
  lia.
Qed.

Lemma internal_after_length cap ns s n' s' M :
  internal_after cap ns s = (n', s') -> length ns <= M -> cap + 1 <= M -> 1 <= M ->
  (exists lo, n' = Internal cap lo /\ length lo <= M) /\
  (forall sn, s' = Some sn -> exists hi, sn = Internal cap hi /\ length hi <= M).
Proof.
  unfold internal_after. intros H L1 L2 L3.
  set (nodes1 := match s with
                 | Some n => match min_key n with
                             | Some k => fst (relink (sort_by_key (ns ++ [(k, n)])))
                             | None => ns
                             end
                 | None => ns
                 end) in H.
  assert (L : length nodes1 <= S (length ns)).
  { subst nodes1. destruct s as [sn |]; [| lia].
    destruct (min_key sn) as [k |]; [| lia].
    rewrite relink_length, sort_snoc_length. lia. }
  destruct (internal_is_full cap nodes1) eqn:F.
  - unfold internal_split, split_off_half in H. injection H as <- <-.
    unfold internal_is_full in F. apply Nat.ltb_lt in F.
    destruct (half_bounds M (length nodes1)) as [B1 B2]; [lia | lia |].
    split.
    + eexists. split; [reflexivity |]. rewrite length_mark_last, length_firstn.
      change (fst (Nat.divmod (length nodes1) 1 0 1)) with (length nodes1 / 2).
      pose proof (Nat.le_min_l (length nodes1 / 2) (length nodes1)). lia.
    + intros sn E. injection E as <-. eexists. split; [reflexivity |].
      rewrite length_map, length_skipn.
      change (fst (Nat.divmod (length nodes1) 1 0 1)) with (length nodes1 / 2). lia.
  - injection H as <- <-. unfold internal_is_full in F. apply Nat.ltb_ge in F.
    split; [eexists; split; [reflexivity | lia] | discriminate].
Qed.

Lemma leaf_insert_sizes cap l key d c l' s c' :
  sizes_ok cap (Leaf l) -> leaf_insert l key d c = (l', s, c') ->
  sizes_ok cap (Leaf l') /\ (forall sn, s = Some sn -> sizes_ok cap sn).
Proof.
  intros [Hc Hl] H. unfold leaf_insert in H.
  set (sorted := sort_by_key (l_data l ++ [(key, d)])) in H.
  assert (L : length sorted = S (length (l_data l))) by apply sort_snoc_length.
  destruct (leaf_is_full (set_data l sorted)) eqn:F;
    unfold leaf_is_full in F; simpl in F.
  - apply Nat.ltb_lt in F. unfold leaf_split, split_off_half in H. simpl in H.
    injection H as <- <- <-.
    pose proof (Nat.le_max_r cap 1).
    destruct (half_bounds (Nat.max cap 1) (length sorted)) as [B1 B2]; [lia | lia |].
    split.
    + simpl. split; [exact Hc |]. rewrite length_firstn.
      change (fst (Nat.divmod (length sorted) 1 0 1)) with (length sorted / 2).
      pose proof (Nat.le_min_l (length sorted / 2) (length sorted)). lia.
    + intros sn E. injection E as <-. simpl. split; [exact Hc |].
      rewrite length_skipn.
      change (fst (Nat.divmod (length sorted) 1 0 1)) with (length sorted / 2). lia.
  - apply Nat.ltb_ge in F. injection H as <- <- <-.
    split; [| discriminate]. simpl. split; [exact Hc |].
    pose proof (Nat.le_max_l cap 1). rewrite Hc in F. lia.
Qed.

Lemma node_insert_sizes cap n : forall key d c n' s c',
  sizes_ok cap n -> node_insert n key d c = Some (n', s, c') ->
  sizes_ok cap n' /\ (forall sn, s = Some sn -> sizes_ok cap sn).
Proof.
  induction n as [l | c0 ns IH] using node_ind'; intros key d c n' s c' Hn H.
  - simpl in H. destruct (leaf_insert l key d c) as [[l' s0] c1] eqn:E.
    injection H as <- <- <-. exact (leaf_insert_sizes _ _ _ _ _ _ _ _ Hn E).
  - apply sizes_internal in Hn as (-> & Hlen & Hall).
    destruct ns as [| p r].
    + simpl in H. injection H as <- <- <-. split; [| discriminate].
      simpl. repeat split; try lia.
    + rewrite node_insert_internal in H.
      destruct (find_mut_node (p :: r) key) as [i |]; [| discriminate].
      destruct (update_child _ _ _) as [[[ns2 s0] c2] |] eqn:U; [| discriminate].
      destruct (internal_after cap ns2 s0) as [n1 s1] eqn:A. injection H as <- <- <-.
      destruct (update_child_spec _ _ _ _ _ _ U) as (l1 & k & ch & ch' & l2 & E1 & E2 & Hf).
      rewrite E1 in Hall, IH, Hlen.
      assert (Hch : sizes_ok cap ch).
      { rewrite Forall_app in Hall. exact (Forall_inv (proj2 Hall)). }
      rewrite Forall_app in IH. pose proof (Forall_inv (proj2 IH)) as IHch. simpl in IHch.
      destruct (IHch _ _ _ _ _ _ Hch Hf) as [Hch' Hs0].
      assert (Hns2 : Forall (fun p => sizes_ok cap (snd p)) ns2).
      { rewrite E2. rewrite Forall_app in Hall |- *. destruct Hall as [Ha Hb].
        inversion Hb; subst. split; [assumption | constructor; assumption]. }
      assert (L2 : length ns2 <= Nat.max (cap + 1) 2).
      { rewrite E2. rewrite length_app in Hlen |- *. simpl in Hlen |- *. lia. }
      pose proof (Nat.le_max_l (cap + 1) 2). pose proof (Nat.le_max_r (cap + 1) 2).
      destruct (internal_after_length _ _ _ _ _ (Nat.max (cap + 1) 2) A L2
                  ltac:(lia) ltac:(lia)) as [(lo' & En & Llo) Hhi].
      destruct (internal_after_Forall (sizes_ok cap) (sizes_forget cap) _ _ _ _ _ A Hns2 Hs0)
        as (lo & hi & En' & Fall & Hshape & _).
      rewrite En in En'. injection En' as <-.
      rewrite Forall_app in Fall. destruct Fall as [Flo Fhi].
      split; [rewrite En; apply sizes_internal; auto |].
      intros sn Esn. destruct (Hhi sn Esn) as (hi' & -> & Lhi).
      destruct Hshape as [[E' _] | (E' & _ & _)]; rewrite Esn in E'; [discriminate |].
      injection E' as ->. apply sizes_internal. auto.
Qed.

Lemma tree_insert_sizes t k d t' :
  tree_sizes t -> tree_insert t k d = Some t' -> tree_sizes t'.
Proof.
  unfold tree_sizes, tree_insert. intros Ht H.
  destruct (t_node t) as [n |].
  - destruct (node_insert n k d (t_cnt t)) as [[[n' [s |]] c'] |] eqn:E; [| | discriminate].
    + destruct (grow_root (t_cap t) n' s) as [r |] eqn:G; [| discriminate].
      injection H as <-. simpl.
      destruct (node_insert_sizes _ _ _ _ _ _ _ _ Ht E) as [Hn' Hs].
      destruct (grow_root_spec _ _ _ _ G) as (a & b & old' & _ & _ & -> & Ef & _).
      apply sizes_internal. split; [reflexivity | split; [simpl; lia |]].
      repeat constructor; [| exact (Hs s eq_refl)].
      simpl. now apply (forget_iff (sizes_ok (t_cap t)) (sizes_forget (t_cap t)) _ _ Ef).
    + injection H as <-. simpl. exact (proj1 (node_insert_sizes _ _ _ _ _ _ _ _ Ht E)).
  - injection H as <-. simpl. split; [reflexivity | lia].
Qed.

Lemma build_sizes cap ops t : build cap ops = Some t -> tree_sizes t.
Proof. apply insert_all_inv; [exact tree_insert_sizes | exact I]. Qed.

(** ** Exact separators and ordered leaves *)

Lemma SS_weaken {A} (R R' : A -> A -> Prop) (HR : forall a b, R a b -> R' a b) l :
  StronglySorted R l -> StronglySorted R' l.
Proof.
  induction 1 as [| a l _ IH Ha]; constructor; [exact IH |].
  eapply Forall_impl; [exact (HR a) | exact Ha].
Qed.

Lemma StronglySorted_app {A} (R : A -> A -> Prop) l1 l2 :
  StronglySorted R l1 -> StronglySorted R l2 ->
  (forall a b, In a l1 -> In b l2 -> R a b) -> StronglySorted R (l1 ++ l2).
Proof.
  induction l1 as [| x l1 IH]; simpl; intros H1 H2 H; [exact H2 |].
  apply StronglySorted_inv in H1 as [H1 Hx]. constructor.
  - apply IH; auto.
  - apply Forall_app. split; [exact Hx |]. apply Forall_forall. intros b Hb. auto.
Qed.

Lemma separators_ok_internal cap ns :
  separators_ok (Internal cap ns) = true <->
  Forall (fun p => first_leaf_key (snd p) = Some (fst p) /\ separators_ok (snd p) = true) ns.
Proof.
  simpl. induction ns as [| [k ch] rest IH]; simpl.
  - split; auto.
  - rewrite Forall_cons_iff, <- IH. simpl.
    destruct (first_leaf_key ch) as [m |].
    + rewrite !andb_true_iff, Nat.eqb_eq. split.
      * intros [[-> Hs] Hr]. auto.
      * intros [[E Hs] Hr]. injection E as ->. auto.
    + split; [discriminate | intros [[E _] _]; discriminate].
Qed.

Lemma first_leaf_key_forget n : first_leaf_key (forget n) = first_leaf_key n.
Proof. destruct n as [| l]; [reflexivity | destruct l; reflexivity]. Qed.

Lemma separators_ok_forget n : separators_ok (forget n) = separators_ok n.
Proof. destruct n as [| l]; [reflexivity | destruct l; reflexivity]. Qed.

Lemma first_leaf_key_internal cap k ch r :
  first_leaf_key (Internal cap ((k, ch) :: r)) = first_leaf_key ch.
Proof. reflexivity. Qed.

Lemma bal_entries_nonempty n : forall h, bal h n -> entries n <> [].
Proof.
  induction n as [l | cap ns IH] using node_ind'; intros h H.
  - rewrite entries_leaf. exact (proj2 H).
  - destruct h as [| h]; [destruct H |]. apply bal_internal in H as [Hne Hall].
    destruct ns as [| [k ch] r]; [congruence |].
    rewrite entries_internal. simpl. intros E. apply app_eq_nil in E as [E _].
    exact (Forall_inv IH h (Forall_inv Hall) E).
Qed.

Lemma first_leaf_key_entries n : forall h, bal h n ->
  first_leaf_key n = option_map fst (hd_error (entries n)).
Proof.
  induction n as [l | cap ns IH] using node_ind'; intros h H.
  - rewrite entries_leaf. reflexivity.
  - destruct h as [| h]; [destruct H |]. apply bal_internal in H as [Hne Hall].
    destruct ns as [| [k ch] r]; [congruence |].
    rewrite first_leaf_key_internal, entries_internal.
    pose proof (Forall_inv IH h (Forall_inv Hall)) as E1. cbn [snd] in E1. rewrite E1.
    cbn [flat_map snd].
    destruct (entries ch) eqn:E; [destruct (bal_entries_nonempty ch h (Forall_inv Hall) E) |].
    reflexivity.
Qed.

(** The first key of a node is a key of its first entry. *)
Lemma first_leaf_key_hd n h k :
  bal h n -> first_leaf_key n = Some k -> exists v rest, entries n = (k, v) :: rest.
Proof.
  intros Hb E. rewrite (first_leaf_key_entries n h Hb) in E.
  destruct (entries n) as [| [k' v] rest]; [discriminate |].
  injection E as ->. eauto.
Qed.

Lemma first_leaf_key_min h n :
  bal h n -> separators_ok n = true -> first_leaf_key n = min_key n.
Proof.
  intros Hb Hs. destruct n as [cap ns | l]; [| reflexivity].
  destruct h as [| h]; [destruct Hb |]. apply bal_internal in Hb as [Hne _].
  destruct ns as [| [k ch] r]; [congruence |].
  apply separators_ok_internal in Hs. rewrite first_leaf_key_internal.
  exact (proj1 (Forall_inv Hs)).
Qed.

Lemma ins_by_key_front {A} (x : Key * A) b :
  Forall (fun z => fst x < fst z) b -> ins_by_key x b = x :: b.
Proof.
  destruct b as [| z b]; intros H; simpl; [reflexivity |].
  inversion H; subst. destruct (fst z <=? fst x) eqn:E; [apply Nat.leb_le in E; lia |].
  reflexivity.
Qed.

Lemma ins_by_key_app {A} (x : Key * A) a b :
  Forall (fun y => fst y <= fst x) a -> Forall (fun z => fst x < fst z) b ->
  ins_by_key x (a ++ b) = a ++ x :: b.
Proof.
  induction a as [| y a IH]; intros Ha Hb; simpl; [now apply ins_by_key_front |].
  inversion Ha; subst. apply Nat.leb_le in H1. rewrite H1, IH; auto.
Qed.

Lemma sort_by_key_id {A} (l : list (Key * A)) :
  StronglySorted key_le l -> sort_by_key l = l.
Proof.
  induction l as [| x l IH] using rev_ind; intros H; [reflexivity |].
  apply StronglySorted_app_inv in H as (H1 & _ & H3).
  rewrite sort_by_key_snoc, (IH H1), <- (app_nil_r l) at 1.
  rewrite ins_by_key_app; [reflexivity | | constructor].
  apply Forall_forall. intros y Hy. exact (H3 y x Hy (or_introl eq_refl)).
Qed.

Lemma take_while_app_cons {A} (f : A -> bool) l1 x l2 :
  length (take_while f (l1 ++ x :: l2)) = S (length l1) ->
  f x = true /\ match l2 with [] => True | y :: _ => f y = false end.
Proof.
  induction l1 as [| a l1 IH]; simpl; intros H.
  - destruct (f x); [| discriminate]. split; [reflexivity |].
    destruct l2 as [| y l2]; [exact I |]. simpl in H.
    destruct (f y); [discriminate | reflexivity].
  - destruct (f a); [| discriminate]. simpl in H. exact (IH ltac:(lia)).
Qed.

Lemma take_while_prefix {A} (f : A -> bool) l1 x l2 :
  Forall (fun y => f y = true) (l1 ++ [x]) ->
  match l2 with [] => True | y :: _ => f y = false end ->
  take_while f (l1 ++ x :: l2) = l1 ++ [x].
Proof.
  induction l1 as [| a l1 IH]; simpl; intros H H2.
  - inversion H; subst. rewrite H3. destruct l2 as [| y l2]; [reflexivity |].
    simpl. rewrite H2. reflexivity.
  - inversion H; subst. rewrite H3, IH; auto.
Qed.

Lemma child_apply_at {B} (f : Node -> B) dflt l1 k ch l2 :
  child_apply f dflt (l1 ++ (k, ch) :: l2) (length l1) = f ch.
Proof. induction l1 as [| [k' c'] l1 IH]; simpl; [reflexivity | exact IH]. Qed.

Lemma update_child_spec_at f l i l' s c' :
  update_child f l i = Some (l', s, c') ->
  exists l1 k ch ch' l2, l = l1 ++ (k, ch) :: l2 /\ l' = l1 ++ (k, ch') :: l2 /\
                         f ch = Some (ch', s, c') /\ length l1 = i.
Proof.
  revert i l'; induction l as [| [k ch] rest IH]; intros i l' H; simpl in H;
    [discriminate |].
  destruct i as [| j].
  - destruct (f ch) as [[[ch' s0] c0] |] eqn:E; [| discriminate].
    injection H as <- <- <-. exists [], k, ch, ch', rest. auto.
  - destruct (update_child f rest j) as [[[rest' s0] c0] |] eqn:E; [| discriminate].
    injection H as <- <- <-.
    destruct (IH _ _ E) as (l1 & k' & ch0 & ch' & l2 & -> & -> & Hf & Hl).
    exists ((k, ch) :: l1), k', ch0, ch', l2. simpl. auto.
Qed.

Lemma Forall_forget_pair (Q : Key -> Node -> Prop) (HQ : forall k n, Q k (forget n) <-> Q k n)
  l l' : map forget_pair l = map forget_pair l' ->
  Forall (fun p => Q (fst p) (snd p)) l -> Forall (fun p => Q (fst p) (snd p)) l'.
Proof.
  revert l'; induction l as [| [k n] l IH]; intros [| [k' n'] l'] E H;
    simpl in E; try discriminate; [constructor |].
  unfold forget_pair in E; simpl in E. injection E as Ek En El.
  inversion H; subst. simpl in *.
  constructor; [| now apply IH].
  simpl. apply HQ. rewrite <- En. now apply HQ.
Qed.

(** With exact separators and ordered leaves, the separators are strictly
    increasing and every key of a child is at least its separator. *)
Lemma exact_children_sorted h ns :
  Forall (fun p => bal h (snd p)) ns ->
  Forall (fun p => first_leaf_key (snd p) = Some (fst p)) ns ->
  StronglySorted key_lt (flat_map (fun p => entries (snd p)) ns) ->
  StronglySorted key_lt ns.
Proof.
  induction ns as [| [k ch] r IH]; intros Hb Hf Hs; [constructor |].
  inversion Hb; subst. inversion Hf; subst. simpl in *.
  apply StronglySorted_app_inv in Hs as (_ & Hs2 & Hx).
  constructor; [now apply IH |].
  apply Forall_forall. intros [k' ch'] Hin. unfold key_lt. simpl.
  rewrite Forall_forall in H2, H4.
  destruct (first_leaf_key_hd ch h k H1 H3) as (v & rest & Ev).
  destruct (first_leaf_key_hd ch' h k' (H2 _ Hin) (H4 _ Hin)) as (v' & rest' & Ev').
  apply (Hx (k, v) (k', v')); [rewrite Ev; left; reflexivity |].
  apply in_flat_map. exists (k', ch'). split; [exact Hin |]. simpl. rewrite Ev'. left; reflexivity.
Qed.

Lemma first_leaf_key_le n h k e :
  bal h n -> first_leaf_key n = Some k -> StronglySorted key_lt (entries n) ->
  In e (entries n) -> k <= fst e.
Proof.
  intros Hb Hk Hs He. destruct (first_leaf_key_hd n h k Hb Hk) as (v & rest & Ev).
  rewrite Ev in Hs, He. destruct He as [<- | He]; [simpl; lia |].
  apply StronglySorted_inv in Hs as [_ Hs]. rewrite Forall_forall in Hs.
  specialize (Hs e He). unfold key_lt in Hs. simpl in Hs. lia.
Qed.

Lemma hd_error_firstn {A} (l : list A) m : 1 <= m -> hd_error (firstn m l) = hd_error l.
Proof. intros H. destruct m as [| m]; [lia |]. destruct l; reflexivity. Qed.

Lemma in_keys {A} (l : list (Key * A)) e : In e l -> In (fst e) (map fst l).
Proof. apply in_map. Qed.

(** Inserting into a leaf a key that is new and above the leaf's first key
    keeps the entries strictly increasing and the first key in place. *)
Lemma leaf_insert_ordered l key d c l' s c' :
  l_data l <> [] -> StronglySorted key_lt (l_data l) -> ~ In key (map fst (l_data l)) ->
  (forall m, first_leaf_key (Leaf l) = Some m -> m < key) ->
  leaf_insert l key d c = (l', s, c') ->
  first_leaf_key (Leaf l') = first_leaf_key (Leaf l) /\
  StronglySorted key_lt (l_data l' ++ entries_opt s) /\
  (forall sn, s = Some sn -> exists nw, sn = Leaf nw).
Proof.
  intros Hne Hs Hfresh Hfirst E.
  assert (Hs' : StronglySorted key_le (l_data l)).
  { apply (SS_weaken key_lt); [unfold key_lt, key_le; intros; lia | exact Hs]. }
  destruct (ins_by_key_split (key, d) (l_data l) Hs') as (l1 & l2 & E1 & E2 & F2).
  assert (Es : sort_by_key (l_data l ++ [(key, d)]) = l1 ++ (key, d) :: l2).
  { rewrite sort_by_key_snoc, sort_by_key_id by exact Hs'. exact E1. }
  pose proof (sort_by_key_sorted (l_data l ++ [(key, d)])) as Sk. rewrite Es in Sk.
  apply StronglySorted_app_inv in Sk as (_ & _ & X).
  rewrite E2 in Hs, Hfresh. apply StronglySorted_app_inv in Hs as (S1 & S2 & X12).
  assert (St : StronglySorted key_lt (l1 ++ (key, d) :: l2)).
  { apply StronglySorted_app; [exact S1 | constructor; [exact S2 |] |].
    - eapply Forall_impl; [| exact F2]. unfold key_lt. auto.
    - intros a b Ha [<- | Hb]; [| now apply X12].
      specialize (X a (key, d) Ha (or_introl eq_refl)). unfold key_le in X.
      unfold key_lt. simpl in *. assert (fst a <> key); [| lia].
      intros Ea. apply Hfresh. rewrite <- Ea, map_app. apply in_or_app. left. now apply in_keys. }
  assert (Hl1 : exists a l1', l1 = a :: l1').
  { destruct l1 as [| a l1']; [| eauto].
    simpl in E2. destruct l2 as [| z l2']; [rewrite E2 in Hne; congruence |].
    assert (Hf' : forall m, option_map fst (hd_error (l_data l)) = Some m -> m < key)
      by exact Hfirst.
    specialize (Hf' (fst z)). rewrite E2 in Hf'. simpl in Hf'.
    specialize (Hf' eq_refl). inversion F2; subst. simpl in *. lia. }
  destruct Hl1 as (a & l1' & ->).
  assert (Hhd : hd_error ((a :: l1') ++ (key, d) :: l2) = hd_error (l_data l))
    by (rewrite E2; reflexivity).
  assert (L : 2 <= length (sort_by_key (l_data l ++ [(key, d)]))).
  { rewrite sort_snoc_length. destruct (l_data l); [congruence | simpl; lia]. }
  destruct (leaf_insert_spec _ _ _ _ _ _ _ E _ eq_refl) as [(-> & -> & _) | (nw & -> & -> & -> & _)].
  - rewrite Es. simpl l_data. rewrite app_nil_r.
    split; [| split; [exact St | discriminate]].
    unfold first_leaf_key. simpl leftmost. cbv iota beta. simpl l_data.
    change ((a :: l1') ++ (key, d) :: l2) with (a :: l1' ++ (key, d) :: l2) in Hhd |- *.
    rewrite <- Hhd. reflexivity.
  - split; [| split].
    + unfold first_leaf_key. cbn [leftmost set_data l_data].
      rewrite hd_error_firstn by (apply Nat.div_le_lower_bound; lia).
      rewrite Es. rewrite Hhd. reflexivity.
    + cbn [set_data l_data entries_opt]. rewrite entries_leaf. cbn [l_data].
      rewrite firstn_skipn, Es. exact St.
    + intros sn Esn. injection Esn as <-. eauto.
Qed.

Lemma exact_forget k n :
  (first_leaf_key (forget n) = Some k /\ separators_ok (forget n) = true) <->
  (first_leaf_key n = Some k /\ separators_ok n = true).
Proof. rewrite first_leaf_key_forget, separators_ok_forget. reflexivity. Qed.

Lemma flat_map_entries_in (l : list (Key * Node)) x :
  In x (flat_map (fun p => entries (snd p)) l) ->
  exists k ch, In (k, ch) l /\ In x (entries ch).
Proof.
  intros H. apply in_flat_map in H as ([k ch] & Hin & Hx). eauto.
Qed.

(** Insertion of a new key above the node's first key keeps separators
    exact and the leaves in strictly increasing key order. *)
Lemma node_insert_ordered n : forall h key d c n' s c',
  bal h n -> separators_ok n = true -> StronglySorted key_lt (entries n) ->
  ~ In key (map fst (entries n)) ->
  (forall m, first_leaf_key n = Some m -> m < key) ->
  node_insert n key d c = Some (n', s, c') ->
  separators_ok n' = true /\ first_leaf_key n' = first_leaf_key n /\
  StronglySorted key_lt (entries n' ++ entries_opt s) /\
  (forall sn, s = Some sn -> separators_ok sn = true).
Proof.
  induction n as [l | cap ns IH] using node_ind';
    intros h key d c n' s c' Hb Hsep Hs Hfresh Hfirst H.
  - simpl in H. destruct (leaf_insert l key d c) as [[l' s0] c0] eqn:E.
    injection H as <- <- <-. destruct Hb as [_ Hne].
    rewrite entries_leaf in Hs, Hfresh.
    destruct (leaf_insert_ordered _ _ _ _ _ _ _ Hne Hs Hfresh Hfirst E) as (F & S & L).
    split; [reflexivity | split; [exact F | split; [rewrite entries_leaf; exact S |]]].
    intros sn Esn. destruct (L sn Esn) as [nw ->]. reflexivity.
  - destruct h as [| h]; [destruct Hb |]. apply bal_internal in Hb as [Hne Hball].
    pose proof Hsep as Hex. apply separators_ok_internal in Hex.
    destruct ns as [| [k0 c0] r]; [congruence |].
    assert (Hk0 : k0 < key).
    { apply Hfirst. rewrite first_leaf_key_internal. exact (proj1 (Forall_inv Hex)). }
    rewrite node_insert_internal in H.
    destruct (find_mut_node ((k0, c0) :: r) key) as [i |] eqn:Fm; [| discriminate].
    destruct (update_child _ _ _) as [[[ns2 s0] c2] |] eqn:U; [| discriminate].
    destruct (internal_after cap ns2 s0) as [n1 s1] eqn:A. injection H as <- <- <-.
    destruct (update_child_spec_at _ _ _ _ _ _ U) as (l1 & k & ch & ch' & l2 & E1 & E2 & Hf & Hi).
    (* the child chosen: its separator is [<=] the key, all later ones are above *)
    assert (Hroute : (k <=? key) = true /\
                     match l2 with [] => True | y :: _ => (fst y <=? key) = false end).
    { unfold find_mut_node in Fm. simpl in Fm.
      replace (k0 <=? key) with true in Fm by (symmetry; apply Nat.leb_le; lia).
      simpl in Fm. injection Fm as Fm.
      apply (take_while_app_cons (fun p => fst p <=? key) l1 (k, ch) l2).
      rewrite <- E1. simpl. replace (k0 <=? key) with true by (symmetry; apply Nat.leb_le; lia).
      simpl. rewrite Fm, Hi. reflexivity. }
    destruct Hroute as [Hkle Hnext]. apply Nat.leb_le in Hkle.
    rewrite entries_internal in Hs, Hfresh.
    assert (Fk : Forall (fun p => first_leaf_key (snd p) = Some (fst p)) ((k0, c0) :: r))
      by (eapply Forall_impl; [| exact Hex]; intros ? []; assumption).
    pose proof (exact_children_sorted h _ Hball Fk Hs) as Sns.
    rewrite E1 in Hex, Hball, Sns, Hs, Hfresh, IH.
    rewrite flat_map_app in Hs, Hfresh. cbn [flat_map snd] in Hs, Hfresh.
    set (E1s := flat_map (fun p => entries (snd p)) l1) in *.
    set (E2s := flat_map (fun p => entries (snd p)) l2) in *.
    apply StronglySorted_app_inv in Hs as (SE1 & Hs' & X1).
    apply StronglySorted_app_inv in Hs' as (Sch & SE2 & X2).
    apply Forall_app in Hex as [Hex1 Hex2]. apply Forall_app in Hball as [Hb1 Hb2].
    apply Forall_app in IH as [_ IH2].
    apply Forall_cons_iff in Hex2 as [[Fch Sepch] Hexl2].
    apply Forall_cons_iff in Hb2 as [Bch Hbl2].
    simpl in Fch, Sepch, Bch.
    assert (Fresh_ch : ~ In key (map fst (entries ch))).
    { intros Hin. apply Hfresh. rewrite !map_app. apply in_or_app. right. apply in_or_app. now left. }
    assert (Hklt : k < key).
    { destruct (first_leaf_key_hd ch h k Bch Fch) as (v & rest & Ev).
      assert (k <> key); [| lia]. intros ->. apply Fresh_ch. rewrite Ev. left. reflexivity. }
    assert (Hfch : forall m, first_leaf_key ch = Some m -> m < key)
      by (intros m Em; rewrite Fch in Em; injection Em as <-; exact Hklt).
    destruct (Forall_inv IH2 h key d c ch' s0 c2 Bch Sepch Sch Fresh_ch Hfch Hf)
      as (Sepch' & Fch' & Smid & Seps0).
    cbn [snd] in Fch'. rewrite Fch in Fch'.
    destruct (node_insert_bal _ _ _ _ _ _ _ _ Bch Hf) as [Bch' Bs0].
    pose proof (node_insert_entries _ _ _ _ _ _ _ Hf) as Pmid.
    (* facts on the keys of the later children *)
    assert (Sl2 : StronglySorted key_lt ((k, ch) :: l2))
      by (apply StronglySorted_app_inv in Sns as (_ & Sns2 & _); exact Sns2).
    assert (Hl2 : Forall (fun q => key < fst q) l2).
    { destruct l2 as [| y l2']; [constructor |]. apply Nat.leb_gt in Hnext.
      apply StronglySorted_inv in Sl2 as [Sl2 _]. apply StronglySorted_inv in Sl2 as [_ Hy].
      constructor; [exact Hnext |]. eapply Forall_impl; [| exact Hy].
      unfold key_lt. intros. lia. }
    assert (HE2 : forall z, In z E2s -> key < fst z /\ forall y, In y (entries ch) -> fst y < fst z).
    { intros z Hz. split; [| intros y Hy; exact (X2 y z Hy Hz)].
      destruct (flat_map_entries_in _ _ Hz) as (k2 & c2' & Hin & Hz').
      rewrite Forall_forall in Hl2, Hexl2, Hbl2.
      assert (k2 <= fst z).
      { apply (first_leaf_key_le c2' h k2 z (Hbl2 _ Hin) (proj1 (Hexl2 _ Hin))); [| exact Hz'].
        clear -Hin SE2. unfold E2s in SE2.
        induction l2 as [| [kk cc] l2 IHl]; [destruct Hin |]. simpl in SE2.
        apply StronglySorted_app_inv in SE2 as (Sa & Sb & _).
        destruct Hin as [Eq | Hin]; [injection Eq as -> ->; exact Sa | exact (IHl Sb Hin)]. }
      specialize (Hl2 _ Hin). simpl in Hl2. lia. }
    (* the children after the insertion, up to forward references *)
    assert (Tr : Forall (fun p : Key * Node => True) ns2) by (apply Forall_forall; auto).
    destruct (internal_after_Forall (fun _ => True) (fun _ => iff_refl True) _ _ _ _ _ A
                Tr (fun _ _ => I)) as (lo & hi & -> & _ & Hshape & Hcont).
    assert (HT : exists mid,
              map forget_pair (lo ++ hi) = map forget_pair (l1 ++ (k, ch') :: mid ++ l2) /\
              flat_map (fun p => entries (snd p)) mid = entries_opt s0 /\
              Forall (fun p => first_leaf_key (snd p) = Some (fst p) /\
                               separators_ok (snd p) = true) mid).
    { destruct s0 as [sn |].
      - specialize (Bs0 sn eq_refl). specialize (Seps0 sn eq_refl).
        destruct Hcont as [[_ [E | (sn' & E & Em)]] | (sn' & m & E & Em & Ec)];
          [discriminate | injection E as <-; destruct (bal_min_key _ _ Bs0); congruence |].
        injection E as <-.
        assert (Fsn : first_leaf_key sn = Some m) by (rewrite (first_leaf_key_min h sn Bs0 Seps0); exact Em).
        destruct (first_leaf_key_hd ch' h k Bch' Fch') as (v & rest & Ev).
        destruct (first_leaf_key_hd sn h m Bs0 Fsn) as (v' & rest' & Ev').
        assert (Hkm : k < m).
        { simpl in Smid. rewrite Ev, Ev' in Smid. apply StronglySorted_app_inv in Smid as (_ & _ & X).
          exact (X (k, v) (m, v') (or_introl eq_refl) (or_introl eq_refl)). }
        assert (Hml2 : Forall (fun z => m < fst z) l2).
        { assert (Hm : In (m, v') ((key, d) :: entries ch)).
          { apply (Permutation_in _ Pmid). simpl. rewrite Ev'. apply in_or_app. right. left. reflexivity. }
          rewrite Forall_forall in Hl2, Hexl2, Hbl2 |- *. intros [k2 c2'] Hin.
          destruct (first_leaf_key_hd c2' h k2 (Hbl2 _ Hin) (proj1 (Hexl2 _ Hin))) as (v2 & rest2 & Ev2).
          assert (Hz : In (k2, v2) E2s).
          { apply in_flat_map. exists (k2, c2'). split; [exact Hin |]. simpl. rewrite Ev2. left. reflexivity. }
          destruct Hm as [Eq | Hm]; [injection Eq as -> _; exact (Hl2 _ Hin) |].
          exact (proj2 (HE2 _ Hz) _ Hm). }
        assert (Hl1k : Forall (fun y => fst y <= m) (l1 ++ [(k, ch')])).
        { apply Forall_app. split; [| constructor; [simpl; lia | constructor]].
          apply StronglySorted_app_inv in Sns as (_ & _ & X).
          apply Forall_forall. intros y Hy. specialize (X y (k, ch) Hy (or_introl eq_refl)).
          unfold key_lt in X. simpl in X. lia. }
        exists [(m, sn)]. split; [| split].
        + rewrite Ec. f_equal.
          assert (S2 : StronglySorted key_le ns2).
          { apply (StronglySorted_keys (l1 ++ (k, ch) :: l2)).
            - rewrite E2, !map_app. reflexivity.
            - apply (SS_weaken key_lt); [unfold key_lt, key_le; intros; lia | exact Sns]. }
          rewrite sort_by_key_snoc, (sort_by_key_id _ S2), E2.
          replace (l1 ++ (k, ch') :: l2) with ((l1 ++ [(k, ch')]) ++ l2)
            by (rewrite <- app_assoc; reflexivity).
          rewrite (ins_by_key_app (m, sn) _ _ Hl1k Hml2), <- app_assoc. reflexivity.
        + simpl. rewrite app_nil_r. reflexivity.
        + constructor; [| constructor]. simpl. split; [exact Fsn | exact Seps0].
      - destruct Hcont as [[Ec _] | (sn' & m & E & _)]; [| discriminate].
        exists []. simpl. split; [rewrite Ec, E2; reflexivity | split; [reflexivity | constructor]]. }
    destruct HT as (mid & Ec & Emid & Fmid).
    assert (Fall : Forall (fun p => first_leaf_key (snd p) = Some (fst p) /\
                                    separators_ok (snd p) = true) (lo ++ hi)).
    { apply (Forall_forget_pair (fun k n => first_leaf_key n = Some k /\ separators_ok n = true)
               exact_forget (l1 ++ (k, ch') :: mid ++ l2)); [symmetry; exact Ec |].
      apply Forall_app. split; [exact Hex1 |]. constructor; [simpl; auto |].
      apply Forall_app. auto. }
    assert (Eout : entries (Internal cap lo) ++ entries_opt s1 =
                   E1s ++ (entries ch' ++ entries_opt s0) ++ E2s).
    { transitivity (flat_map (fun p => entries (snd p)) (lo ++ hi)).
      - destruct Hshape as [[-> ->] | (-> & _ & _)]; simpl;
          rewrite ?entries_internal, ?flat_map_app, ?app_nil_r; reflexivity.
      - rewrite (flat_map_forget entries entries_forget _ _ Ec), flat_map_app.
        cbn [flat_map snd]. rewrite flat_map_app, Emid, <- app_assoc. reflexivity. }
    apply Forall_app in Fall as [Flo Fhi].
    split; [| split; [| split]].
    + apply separators_ok_internal. exact Flo.
    + assert (Nlo : lo <> []).
      { destruct Hshape as [[_ ->] | (_ & Nlo & _)]; [| exact Nlo].
        rewrite app_nil_r in Ec. apply (nonempty_of_forget _ _ Ec). destruct l1; discriminate. }
      destruct lo as [| [ka ca] lo']; [congruence |].
      rewrite !first_leaf_key_internal.
      pose proof (proj1 (Forall_inv Flo)) as Fa. pose proof (Forall_inv Fk) as F0.
      cbn [fst snd] in Fa, F0. rewrite Fa, F0. apply forget_keys in Ec.
      destruct l1 as [| q l1']; simpl in Ec, E1; injection Ec as Eka _; injection E1 as Ek0 _.
      * congruence.
      * rewrite Eka, <- Ek0. reflexivity.
    + rewrite Eout.
      assert (HM : forall y, In y (entries ch' ++ entries_opt s0) -> y = (key, d) \/ In y (entries ch)).
      { intros y Hy. apply (Permutation_in _ Pmid) in Hy. destruct Hy as [<- | Hy]; auto. }
      destruct (first_leaf_key_hd ch h k Bch Fch) as (v & rest & Ev).
      apply StronglySorted_app; [exact SE1 | apply StronglySorted_app; [exact Smid | exact SE2 |] |].
      * intros y z Hy Hz. unfold key_lt. destruct (HM y Hy) as [-> | Hy']; [exact (proj1 (HE2 z Hz)) |].
        exact (proj2 (HE2 z Hz) y Hy').
      * intros x y Hx Hy. apply in_app_or in Hy as [Hy | Hy].
        -- destruct (HM y Hy) as [-> | Hy'].
           ++ assert (Hxk : key_lt x (k, v)) by (apply X1; [exact Hx | rewrite Ev; apply in_or_app; left; left; reflexivity]).
              unfold key_lt in *. simpl in *. lia.
           ++ apply X1; [exact Hx | apply in_or_app; left; exact Hy'].
        -- apply X1; [exact Hx | apply in_or_app; right; exact Hy].
    + intros sn Esn. destruct Hshape as [[E' _] | (E' & _ & _)]; rewrite Esn in E'; [discriminate |].
      injection E' as ->. apply separators_ok_internal. exact Fhi.
Qed.

Lemma tree_insert_ordered t k d t' :
  tree_ordered t -> ~ In k (map fst (tree_entries t)) ->
  (exists e, In e (tree_entries t) /\ fst e < k) \/ tree_entries t = [] ->
  tree_insert t k d = Some t' -> tree_ordered t'.
Proof.
  unfold tree_ordered, tree_entries, tree_insert. intros Ht Hfresh Hex H.
  destruct (t_node t) as [n |].
  - destruct Ht as ([h Hb] & Hsep & Hs). simpl in Hfresh, Hex.
    assert (Hfirst : forall m, first_leaf_key n = Some m -> m < k).
    { intros m Em. destruct Hex as [(e & He & Hlt) | E].
      - pose proof (first_leaf_key_le n h m e Hb Em Hs He). lia.
      - destruct (bal_entries_nonempty n h Hb E). }
    destruct (node_insert n k d (t_cnt t)) as [[[n' s] c'] |] eqn:E; [| discriminate].
    destruct (node_insert_ordered _ _ _ _ _ _ _ _ Hb Hsep Hs Hfresh Hfirst E)
      as (Sep' & _ & S' & Ss).
    destruct (node_insert_bal _ _ _ _ _ _ _ _ Hb E) as [Bn' Bs].
    destruct s as [sn |].
    + destruct (grow_root (t_cap t) n' sn) as [r |] eqn:G; [| discriminate].
      injection H as <-. simpl.
      specialize (Bs sn eq_refl). specialize (Ss sn eq_refl).
      destruct (grow_root_spec _ _ _ _ G) as (a & b & old' & Ea & Eb & -> & Ef & _).
      split; [exists (S h); exact (grow_root_bal _ _ _ _ _ Bn' Bs G) |]. split.
      * apply separators_ok_internal. constructor; [| constructor; [| constructor]]; simpl.
        -- rewrite <- first_leaf_key_forget, Ef, first_leaf_key_forget,
             <- separators_ok_forget, Ef, separators_ok_forget.
           rewrite (first_leaf_key_min h n' Bn' Sep'). auto.
        -- rewrite (first_leaf_key_min h sn Bs Ss). auto.
      * rewrite entries_internal. simpl. rewrite app_nil_r.
        rewrite <- (entries_forget old'), Ef, entries_forget. exact S'.
    + injection H as <-. simpl. simpl in S'. rewrite app_nil_r in S'.
      split; [exists h; exact Bn' | split; [exact Sep' | exact S']].
  - injection H as <-. simpl. split; [exists 0; split; [reflexivity | discriminate] |].
    split; [reflexivity |]. unfold new_leaf_node. rewrite entries_leaf. repeat constructor.
Qed.

Lemma insert_all_ordered ops : forall t t' k0 d0,
  tree_ordered t -> In (k0, d0) (tree_entries t) ->
  NoDup (map fst ops ++ map fst (tree_entries t)) ->
  Forall (fun e => k0 < fst e) ops ->
  insert_all t ops = Some t' -> tree_ordered t'.
Proof.
  induction ops as [| [k d] ops IH]; intros t t' k0 d0 Ht Hin Hnd Hgt H; simpl in H.
  - injection H as <-. exact Ht.
  - destruct (tree_insert t k d) as [t1 |] eqn:E; [| discriminate].
    simpl in Hnd. apply NoDup_cons_iff in Hnd as [Hk Hnd].
    inversion Hgt as [| ? ? Hk0 Hgt']; subst. simpl in Hk0.
    pose proof (tree_insert_entries _ _ _ _ E) as P.
    apply (IH t1 t' k0 d0); [| | | exact Hgt' | exact H].
    + apply (tree_insert_ordered t k d); [exact Ht | | left; exists (k0, d0); auto | exact E].
      intros Hk'. apply Hk. apply in_or_app. now right.
    + apply (Permutation_in _ (Permutation_sym P)). now right.
    + apply (Permutation_NoDup (l := k :: map fst ops ++ map fst (tree_entries t)));
        [| constructor; assumption].
      rewrite (Permutation_map fst P). simpl. apply Permutation_middle.
Qed.

Lemma find_sorted_key (l : list (Key * Data)) key v :
  StronglySorted key_lt l -> In (key, v) l -> find (fun p => fst p =? key) l = Some (key, v).
Proof.
  induction l as [| [k w] l IH]; intros Hs Hin; [destruct Hin |].
  apply StronglySorted_inv in Hs as [Hs Hk]. simpl.
  destruct Hin as [Eq | Hin].
  - injection Eq as -> ->. rewrite Nat.eqb_refl. reflexivity.
  - rewrite Forall_forall in Hk. specialize (Hk _ Hin). unfold key_lt in Hk. simpl in Hk.
    replace (k =? key) with false by (symmetry; apply Nat.eqb_neq; lia). now apply IH.
Qed.

Lemma node_search_complete n : forall h key v,
  bal h n -> separators_ok n = true -> StronglySorted key_lt (entries n) ->
  In (key, v) (entries n) -> node_search n key = Some v.
Proof.
  induction n as [l | cap ns IH] using node_ind'; intros h key v Hb Hsep Hs Hin.
  - rewrite entries_leaf in Hs, Hin. simpl. unfold leaf_search.
    rewrite (find_sorted_key _ _ _ Hs Hin). reflexivity.
  - destruct h as [| h]; [destruct Hb |]. apply bal_internal in Hb as [Hne Hball].
    apply separators_ok_internal in Hsep.
    assert (Fk : Forall (fun p => first_leaf_key (snd p) = Some (fst p)) ns)
      by (eapply Forall_impl; [| exact Hsep]; intros ? []; assumption).
    rewrite entries_internal in Hs, Hin.
    pose proof (exact_children_sorted h _ Hball Fk Hs) as Sns.
    destruct (flat_map_entries_in _ _ Hin) as (kj & cj & Hj & Hin').
    rewrite Forall_forall in IH, Hball, Hsep, Fk.
    pose proof (IH _ Hj h key v (Hball _ Hj) (proj2 (Hsep _ Hj))) as IHj.
    pose proof (Hball _ Hj) as Bj. pose proof (Fk _ Hj) as Fj. simpl in IHj, Bj, Fj.
    apply in_split in Hj as (l1 & l2 & Ens).
    rewrite Ens, flat_map_app in Hs. cbn [flat_map snd] in Hs.
    apply StronglySorted_app_inv in Hs as (_ & Hs' & _).
    apply StronglySorted_app_inv in Hs' as (Scj & _ & X2).
    simpl. rewrite Ens.
    assert (Hkj : kj <= key) by exact (first_leaf_key_le cj h kj (key, v) Bj Fj Scj Hin').
    unfold find_node. rewrite take_while_prefix.
    + rewrite length_app, Nat.add_1_r. rewrite child_apply_at. exact (IHj Scj Hin').
    + rewrite Ens in Sns. apply StronglySorted_app_inv in Sns as (_ & _ & X).
      apply Forall_app. split; [| constructor; [apply Nat.leb_le; exact Hkj | constructor]].
      apply Forall_forall. intros y Hy. apply Nat.leb_le.
      specialize (X y (kj, cj) Hy (or_introl eq_refl)). unfold key_lt in X. simpl in X. lia.
    + destruct l2 as [| [k2 c2] l2]; [exact I |]. apply Nat.leb_gt.
      assert (H2 : In (k2, c2) ns) by (rewrite Ens; apply in_or_app; right; right; left; reflexivity).
      pose proof (Hball _ H2) as B2. pose proof (Fk _ H2) as F2. simpl in B2, F2.
      destruct (first_leaf_key_hd c2 h k2 B2 F2) as (v2 & rest2 & Ev2).
      assert (Hin2 : In (k2, v2) (flat_map (fun p => entries (snd p)) ((k2, c2) :: l2))).
      { simpl. rewrite Ev2. left. reflexivity. }
      specialize (X2 _ _ Hin' Hin2). unfold key_lt in X2. simpl in X2. exact X2.
Qed.

Lemma build_ordered cap k0 d0 rest t :
  build cap ((k0, d0) :: rest) = Some t -> NoDup (map fst ((k0, d0) :: rest)) ->
  Forall (fun e => k0 < fst e) rest -> tree_ordered t.
Proof.
  intros H Hnd Hgt.
  change (insert_all (mkTree cap (Some (new_leaf_node cap k0 d0 0)) 1) rest = Some t) in H.
  apply (insert_all_ordered rest (mkTree cap (Some (new_leaf_node cap k0 d0 0)) 1) t k0 d0);
    [| | | exact Hgt | exact H].
  - split; [exists 0; split; [reflexivity | discriminate] |].
    split; [reflexivity |]. unfold new_leaf_node. rewrite entries_leaf. repeat constructor.
  - left. reflexivity.
  - change (map fst (tree_entries (mkTree cap (Some (new_leaf_node cap k0 d0 0)) 1)))
      with [k0].
    apply (Permutation_NoDup (l := k0 :: map fst rest)); [| exact Hnd].
    apply Permutation_cons_append.
Qed.

Lemma build_search cap k0 d0 rest t :
  build cap ((k0, d0) :: rest) = Some t -> NoDup (map fst ((k0, d0) :: rest)) ->
  Forall (fun e => k0 < fst e) rest ->
  forall k v, In (k, v) ((k0, d0) :: rest) -> search t k = Some v.
Proof.
  intros H Hnd Hgt k v Hin.
  pose proof (build_ordered _ _ _ _ _ H Hnd Hgt) as Ho.
  pose proof (build_entries _ _ _ H) as P.
  apply (Permutation_in _ (Permutation_sym P)) in Hin.
  unfold tree_ordered, tree_entries in *. unfold search.
  destruct (t_node t) as [r |]; [| destruct Hin].
  destruct Ho as ([h Hb] & Hsep & Hs). simpl in Hin.
  exact (node_search_complete r h k v Hb Hsep Hs Hin).
Qed.

(** ** Range scan soundness *)

Lemma scan_chain_sound heap max_key fuel : forall cur result r,
  scan_chain heap fuel cur max_key result = Some r ->
  (forall v, In v result -> from_heap heap max_key v) ->
  forall v, In v r -> from_heap heap max_key v.
Proof.
  induction fuel as [| f IH]; intros cur result r H Hres; simpl in H; [discriminate |].
  destruct (deref heap cur) as [[nx |] |] eqn:D; [| injection H as <-; exact Hres | discriminate].
  - assert (Hnx : In nx heap).
    { unfold deref in D. destruct (l_next cur) as [id |]; [| discriminate].
      destruct (l_stale cur); [discriminate |].
      destruct (find _ heap) as [x |] eqn:Fx; [injection D as <- | discriminate].
      exact (proj1 (find_some _ _ Fx)). }
    assert (Hd : forall v, In v (result ++ map snd (filter (fun x => fst x <=? max_key) (l_data nx))) ->
                           from_heap heap max_key v).
    { intros v Hv. apply in_app_or in Hv as [Hv | Hv]; [exact (Hres v Hv) |].
      apply in_map_iff in Hv as ([k w] & <- & Hx). apply filter_In in Hx as [Hx Hk].
      apply Nat.leb_le in Hk. exists k. split; [exact Hk |].
      apply in_flat_map. exists nx. auto. }
    destruct (_ <? _).
    + injection H as <-. exact Hd.
    + exact (IH _ _ _ H Hd).
Qed.

Lemma node_search_range_sound heap mn mx n : forall r,
  (forall l, In l (leaves n) -> In l heap) ->
  node_search_range heap n mn mx = Some r -> forall v, In v r -> from_heap heap mx v.
Proof.
  induction n as [l | cap ns IH] using node_ind'; intros r Hl H; simpl in H.
  - destruct (mx <? mn); [injection H as <-; intros v [] |].
    unfold leaf_search_range in H. apply (scan_chain_sound _ _ _ _ _ _ H).
    intros v Hv. apply in_map_iff in Hv as ([k w] & <- & Hx). apply filter_In in Hx as [Hx Hk].
    apply andb_true_iff in Hk as [_ Hk]. apply Nat.leb_le in Hk. exists k. split; [exact Hk |].
    apply in_flat_map. exists l. split; [apply Hl; left; reflexivity | exact Hx].
  - destruct (mx <? mn); [injection H as <-; intros v [] |].
    destruct (find_node ns mn) as [i |]; [| injection H as <-; intros v []].
    destruct (child_apply_cases (fun ch => node_search_range heap ch mn mx) (Some []) ns i)
      as [E | (k & ch & Hin & E)]; rewrite E in H; [injection H as <-; intros v [] |].
    rewrite Forall_forall in IH. apply (IH (k, ch) Hin r); [| exact H].
    intros l Hl'. apply Hl. simpl. apply in_flat_map. exists (k, ch). auto.
Qed.

Lemma search_range_sound t mn mx r :
  search_range t mn mx = Some r ->
  forall v, In v r -> exists k, k <= mx /\ In (k, v) (tree_entries t).
Proof.
  unfold search_range, tree_entries. intros H.
  destruct (t_node t) as [n |]; [| injection H as <-; intros v []].
  intros v Hv. exact (node_search_range_sound (leaves n) mn mx n r (fun l Hl => Hl) H v Hv).
Qed.

(** ** Leaf identities *)

Lemma ids_forget n : ids (forget n) = ids n.
Proof. destruct n; reflexivity. Qed.

Lemma ids_internal cap nodes :
  ids (Internal cap nodes) = flat_map (fun p => ids (snd p)) nodes.
Proof.
  unfold ids; simpl. induction nodes as [| [k ch] rest IH]; simpl; [reflexivity |].
  rewrite map_app, IH. reflexivity.
Qed.

Lemma node_insert_sibling_min n key d c n' sn c' :
  node_insert n key d c = Some (n', Some sn, c') -> min_key sn <> None.
Proof.
  destruct n as [cap ns | l]; intros H.
  - destruct ns as [| p r]; [simpl in H; injection H as _ E _; discriminate |].
    rewrite node_insert_internal in H.
    destruct (find_mut_node (p :: r) key) as [i |]; [| discriminate].
    destruct (update_child _ _ _) as [[[ns2 s0] c2] |] eqn:U; [| discriminate].
    destruct (internal_after cap ns2 s0) as [n1 s1] eqn:A. injection H as <- -> <-.
    assert (T : Forall (fun p : Key * Node => True) ns2) by (apply Forall_forall; auto).
    destruct (internal_after_Forall (fun _ => True) (fun _ => iff_refl True) _ _ _ _ _ A
                T (fun _ _ => I)) as (lo & hi & _ & _ & Hshape & _).
    destruct Hshape as [[E _] | (E & _ & Hhi)]; [discriminate |].
    injection E as ->. simpl. destruct hi; [contradiction | discriminate].
  - simpl in H. destruct (leaf_insert l key d c) as [[l' s0] c0] eqn:E.
    injection H as <- -> <-.
    destruct (leaf_insert_spec _ _ _ _ _ _ _ E _ eq_refl) as [(? & _) | (nw & Es & _ & -> & _)];
      [discriminate |].
    injection Es as ->. unfold min_key. cbn [l_data].
    set (sorted := sort_by_key (l_data l ++ [(key, d)])).
    assert (L : length sorted = S (length (l_data l))) by apply sort_snoc_length.
    assert (length sorted / 2 < length sorted) by (apply Nat.div_lt; lia).
    assert (Z : skipn (length sorted / 2) sorted <> []).
    { intros Z. apply (f_equal (@length _)) in Z. rewrite length_skipn in Z. cbn [length] in Z. lia. }
    change (option_map fst (hd_error (skipn (length sorted / 2) sorted)) <> None).
    destruct (skipn (length sorted / 2) sorted); [contradiction | discriminate].
Qed.

Lemma node_insert_ids n : forall key d c n' s c',
  node_insert n key d c = Some (n', s, c') ->
  c <= c' /\ Permutation (ids n' ++ ids_opt s) (ids n ++ seq c (c' - c)).
Proof.
  induction n as [l | cap ns IH] using node_ind'; intros key d c n' s c' H.
  - simpl in H. destruct (leaf_insert l key d c) as [[l' s0] c0] eqn:E.
    injection H as <- <- <-.
    destruct (leaf_insert_spec _ _ _ _ _ _ _ E _ eq_refl) as [(-> & -> & ->) | (nw & -> & -> & -> & ->)].
    + rewrite Nat.sub_diag. split; [lia | reflexivity].
    + rewrite Nat.sub_succ_l, Nat.sub_diag by lia. split; [lia | reflexivity].
  - destruct ns as [| p r].
    + simpl in H. injection H as <- <- <-. rewrite Nat.sub_succ_l, Nat.sub_diag by lia.
      split; [lia | reflexivity].
    + pose proof (node_insert_sibling_min (Internal cap (p :: r)) key d c n') as Hmin.
      rewrite node_insert_internal in H.
      destruct (find_mut_node (p :: r) key) as [i |]; [| discriminate].
      destruct (update_child _ _ _) as [[[ns2 s0] c2] |] eqn:U; [| discriminate].
      destruct (internal_after cap ns2 s0) as [n1 s1] eqn:A. injection H as <- <- <-.
      destruct (update_child_spec _ _ _ _ _ _ U) as (l1 & k & ch & ch' & l2 & E1 & E2 & Hf).
      rewrite E1 in IH. rewrite Forall_app in IH. pose proof (Forall_inv (proj2 IH)) as IHch.
      simpl in IHch. destruct (IHch _ _ _ _ _ _ Hf) as [Hc IHp]. split; [exact Hc |].
      assert (T : Forall (fun p : Key * Node => True) ns2) by (apply Forall_forall; auto).
      destruct (internal_after_Forall (fun _ => True) (fun _ => iff_refl True) _ _ _ _ _ A
                  T (fun _ _ => I))
        as (lo & hi & -> & _ & Hshape & Hcont).
      assert (Eout : ids (Internal cap lo) ++ ids_opt s1 =
                     flat_map (fun p => ids (snd p)) (lo ++ hi)).
      { destruct Hshape as [[-> ->] | (-> & _ & _)]; simpl;
          rewrite ?ids_internal, ?flat_map_app, ?app_nil_r; reflexivity. }
      rewrite Eout, E1, ids_internal, (flat_map_app _ l1). simpl.
      destruct Hcont as [[Ec Hs0] | (sn & k' & -> & _ & Ec)].
      * rewrite (flat_map_forget ids ids_forget _ _ Ec), E2, flat_map_app. simpl.
        assert (s0 = None) as ->.
        { destruct Hs0 as [-> | (sn & -> & Hm)]; [reflexivity |].
          destruct (node_insert_sibling_min _ _ _ _ _ _ _ Hf Hm). }
        simpl in IHp. rewrite app_nil_r in IHp. rewrite IHp.
        rewrite <- !app_assoc. apply Permutation_app_head, Permutation_app_head.
        apply Permutation_app_comm.
      * rewrite (flat_map_forget ids ids_forget _ _ Ec).
        rewrite (Permutation_flat_map _ (sort_by_key_perm _)).
        rewrite E2, !flat_map_app. simpl. rewrite <- !app_assoc, app_nil_r.
        rewrite perm_swap_middle. simpl in IHp. rewrite IHp.
        rewrite <- !app_assoc. apply Permutation_app_head, Permutation_app_head.
        apply Permutation_app_comm.
Qed.

Lemma tree_insert_ids t k d t' :
  tree_insert t k d = Some t' ->
  t_cnt t <= t_cnt t' /\ Permutation (tree_ids t') (tree_ids t ++ seq (t_cnt t) (t_cnt t' - t_cnt t)).
Proof.
  unfold tree_ids, tree_insert. intros H.
  destruct (t_node t) as [n |].
  - destruct (node_insert n k d (t_cnt t)) as [[[n' s] c'] |] eqn:E; [| discriminate].
    destruct (node_insert_ids _ _ _ _ _ _ _ E) as [Hc P].
    destruct s as [s |].
    + destruct (grow_root (t_cap t) n' s) as [r |] eqn:G; [| discriminate].
      injection H as <-. simpl. split; [exact Hc |].
      destruct (grow_root_spec _ _ _ _ G) as (a & b & old' & _ & _ & -> & Ef & _).
      rewrite ids_internal. simpl. rewrite app_nil_r.
      rewrite <- (ids_forget old'), Ef, ids_forget. exact P.
    + injection H as <-. simpl. simpl in P. rewrite app_nil_r in P. split; [exact Hc | exact P].
  - injection H as <-. cbn [t_cnt t_node ids_opt]. rewrite Nat.sub_succ_l, Nat.sub_diag by lia.
    split; [lia | reflexivity].
Qed.

Lemma insert_all_ids ops : forall t t',
  insert_all t ops = Some t' -> Permutation (tree_ids t) (seq 0 (t_cnt t)) ->
  Permutation (tree_ids t') (seq 0 (t_cnt t')).
Proof.
  induction ops as [| [k d] ops IH]; intros t t' H P; simpl in H.
  - injection H as <-. exact P.
  - destruct (tree_insert t k d) as [t1 |] eqn:E; [| discriminate].
    apply (IH t1 t' H). destruct (tree_insert_ids _ _ _ _ E) as [Hc P1].
    rewrite P1, P. replace (t_cnt t1) with (t_cnt t + (t_cnt t1 - t_cnt t)) at 2 by lia.
    rewrite seq_app. reflexivity.
Qed.

Lemma build_ids cap ops t :
  build cap ops = Some t -> Permutation (tree_ids t) (seq 0 (t_cnt t)).
Proof. intros H. apply (insert_all_ids ops _ _ H). reflexivity. Qed.

(** ** The relinking loop *)



End Facts2.

Module BPlusFacts.
Import BPlus.

Section BNodeInd.
Variable P : Node -> Prop.
Hypothesis HRootNone : forall cap, P (Root cap None).
Hypothesis HRootSome : forall cap ch, P ch -> P (Root cap (Some ch)).
Hypothesis HInternal : forall cap data,
  Forall (fun p => P (snd p)) data -> P (Internal cap data).
Hypothesis HLeaf : forall l, P (Leaf l).

Fixpoint bnode_ind (n : Node) : P n :=
  match n with
  | Root cap None => HRootNone cap
  | Root cap (Some ch) => HRootSome cap ch (bnode_ind ch)
  | Internal cap data =>
      HInternal cap data
        ((fix go (l : list (nat * Node)) : Forall (fun p => P (snd p)) l :=
            match l with
            | [] => Forall_nil _
            | (k, ch) :: rest => @Forall_cons _ (fun p => P (snd p)) (k, ch) rest
                                   (bnode_ind ch) (go rest)
            end) data)
  | Leaf l => HLeaf l
  end.
End BNodeInd.

Lemma b_all_children_Forall P l :
  all_children P l <-> Forall (fun p => P (snd p)) l.
Proof.
  induction l as [| [k ch] l IH]; simpl.
  - split; auto.
  - rewrite Forall_cons_iff, IH. reflexivity.
Qed.

Lemma b_bal_internal h cap d :
  bal (S h) (Internal cap d) <-> d <> [] /\ Forall (fun p => bal h (snd p)) d.
Proof. simpl. rewrite b_all_children_Forall. reflexivity. Qed.

Lemma leaves_internal cap d :
  leaves (Internal cap d) = flat_map (fun p => leaves (snd p)) d.
Proof. simpl. induction d as [| [k ch] d IH]; simpl; [reflexivity | rewrite IH; reflexivity]. Qed.

Lemma b_leaf_insert_spec l r c l' s c' :
  leaf_insert l r c = (l', s, c') ->
  forall sorted, sorted = UnsafeBPlus.sort_by_key (l_data l ++ [r]) ->
  (s = None /\ l' = mkLeaf (l_cap l) sorted (l_next l) (l_id l) /\ c' = c) \/
  (s = Some (Leaf (mkLeaf (l_cap l) (skipn (length sorted / 2) sorted) (l_next l) c)) /\
   l' = mkLeaf (l_cap l) (firstn (length sorted / 2) sorted) (Some c) (l_id l) /\ c' = S c).
Proof.
  unfold leaf_insert. intros H sorted Es. rewrite <- Es in H.
  destruct (leaf_is_full _).
  - right. unfold leaf_split in H. simpl in H. injection H as <- <- <-. auto.
  - left. injection H as <- <- <-. auto.
Qed.

Lemma sorted_length l r :
  length (UnsafeBPlus.sort_by_key (l_data l ++ [r])) = S (length (l_data l)).
Proof. apply Facts.sort_snoc_length. Qed.

Lemma leaf_halves_nonempty l r :
  let sorted := UnsafeBPlus.sort_by_key (l_data l ++ [r]) in
  skipn (length sorted / 2) sorted <> [] /\
  (l_data l <> [] -> firstn (length sorted / 2) sorted <> []).
Proof.
  intros sorted. pose proof (sorted_length l r) as L. fold sorted in L. split.
  - intros Z. apply (f_equal (@length _)) in Z. rewrite length_skipn in Z. cbn [length] in Z.
    assert (length sorted / 2 < length sorted) by (apply Nat.div_lt; lia). lia.
  - intros Hne. destruct (Facts.firstn_half_nonempty sorted) as [H _]; [| exact H].
    destruct (l_data l); [contradiction | simpl in L; lia].
Qed.

Lemma b_update_child_spec f l i l' s c' :
  update_child f l i = Some (l', s, c') ->
  exists l1 k ch ch' l2, l = l1 ++ (k, ch) :: l2 /\ l' = l1 ++ (k, ch') :: l2 /\
                         f ch = Some (ch', s, c').
Proof.
  revert i l'; induction l as [| [k ch] rest IH]; intros i l' H; simpl in H;
    [discriminate |].
  destruct i as [| j].
  - destruct (f ch) as [[[ch' s0] c0] |] eqn:E; [| discriminate].
    injection H as <- <- <-. exists [], k, ch, ch', rest. auto.
  - destruct (update_child f rest j) as [[[rest' s0] c0] |] eqn:E; [| discriminate].
    injection H as <- <- <-. destruct (IH _ _ E) as (l1 & k' & ch0 & ch' & l2 & -> & -> & Hf).
    exists ((k, ch) :: l1), k', ch0, ch', l2. auto.
Qed.

Lemma b_update_child_some f l i :
  i < length l -> Forall (fun p => exists r, f (snd p) = Some r) l ->
  exists r, update_child f l i = Some r.
Proof.
  revert i; induction l as [| [k ch] rest IH]; intros i Hi H; simpl in Hi; [lia |].
  inversion H as [| ? ? Hch Hrest]; subst. simpl in Hch.
  destruct i as [| j]; simpl.
  - destruct Hch as [[[ch' s] c'] E]. rewrite E. eexists. reflexivity.
  - destruct (IH j ltac:(lia) Hrest) as [[[rest' s] c'] E]. rewrite E.
    eexists. reflexivity.
Qed.

Lemma find_child_lt d key : d <> [] -> find_child d key < length d.
Proof.
  intros H. unfold find_child.
  pose proof (Facts2.take_while_length_le (fun p : nat * Node => fst p <? key) d) as L.
  destruct (length (UnsafeBPlus.take_while _ d)) as [| m]; [| lia].
  destruct d; [congruence | simpl; lia].
Qed.

Lemma b_internal_after_spec cap d s n' s' :
  internal_after cap d s = (n', s') ->
  exists d1,
    ((d1 = d /\ (s = None \/ exists sn, s = Some sn /\ min_key sn = None)) \/
     (exists sn k, s = Some sn /\ min_key sn = Some k /\
        d1 = UnsafeBPlus.sort_by_key (d ++ [(k, sn)]))) /\
    ((n' = Internal cap d1 /\ s' = None /\ length d1 <= cap + 1) \/
     (n' = Internal cap (firstn (length d1 / 2) d1) /\
      s' = Some (Internal cap (skipn (length d1 / 2) d1)) /\ cap + 1 < length d1)).
Proof.
  unfold internal_after. intros H.
  set (d1 := match s with
             | Some n => match min_key n with
                         | Some k => UnsafeBPlus.sort_by_key (d ++ [(k, n)])
                         | None => d
                         end
             | None => d
             end) in H.
  exists d1. split.
  - subst d1. destruct s as [sn |]; [| left; auto].
    destruct (min_key sn) as [k |] eqn:E; [right | left; eauto].
    exists sn, k. auto.
  - unfold internal_is_full in H. destruct (cap + 1 <? length d1) eqn:F.
    + right. unfold UnsafeBPlus.split_off_half in H. injection H as <- <-.
      apply Nat.ltb_lt in F. auto.
    + left. injection H as <- <-. apply Nat.ltb_ge in F. auto.
Qed.

Lemma b_node_insert_internal cap p q r c :
  node_insert (Internal cap (p :: q)) r c =
  match update_child (fun ch => node_insert ch r c) (p :: q) (find_child (p :: q) (fst r)) with
  | None => None
  | Some (data2, s, c2) => let '(n', s') := internal_after cap data2 s in Some (n', s', c2)
  end.
Proof. reflexivity. Qed.

Lemma skipn_half_nonempty {A} (l : list A) : 0 < length l -> skipn (length l / 2) l <> [].
Proof.
  intros H Z. apply (f_equal (@length _)) in Z. rewrite length_skipn in Z. cbn [length] in Z.
  assert (length l / 2 < length l) by (apply Nat.div_lt; lia). lia.
Qed.

Lemma min_key_internal_nonempty cap d : d <> [] -> min_key (Internal cap d) <> None.
Proof. destruct d; [contradiction | discriminate]. Qed.

Lemma b_node_insert_sibling_min n r c n' sn c' :
  node_insert n r c = Some (n', Some sn, c') -> min_key sn <> None.
Proof.
  destruct n as [cap [ch |] | cap [| p q] | l]; intros H.
  - simpl in H. destruct (node_insert ch r c) as [[[ch' [ins |]] c0] |]; [| | discriminate].
    + destruct (min_key ch'), (min_key ins); discriminate.
    + inversion H.
  - simpl in H. inversion H.
  - simpl in H. destruct (leaf_insert _ r (S c)) as [[l' s0] c0].
    destruct (internal_after cap _ s0) as [n1 s1] eqn:A. injection H as <- -> <-.
    destruct (b_internal_after_spec _ _ _ _ _ A) as (d1 & _ & [(_ & E & _) | (_ & E & L)]);
      [discriminate |].
    injection E as ->. apply min_key_internal_nonempty, skipn_half_nonempty. lia.
  - rewrite b_node_insert_internal in H.
    destruct (update_child _ _ _) as [[[d2 s0] c2] |]; [| discriminate].
    destruct (internal_after cap d2 s0) as [n1 s1] eqn:A. injection H as <- -> <-.
    destruct (b_internal_after_spec _ _ _ _ _ A) as (d1 & _ & [(_ & E & _) | (_ & E & L)]);
      [discriminate |].
    injection E as ->. apply min_key_internal_nonempty, skipn_half_nonempty. lia.
  - simpl in H. destruct (leaf_insert l r c) as [[l' s0] c0] eqn:E. injection H as <- -> <-.
    destruct (b_leaf_insert_spec _ _ _ _ _ _ E _ eq_refl) as [(? & _) | (Es & _)]; [discriminate |].
    injection Es as ->. unfold min_key.
    destruct (leaf_halves_nonempty l r) as [Hs _]. cbn [l_data].
    destruct (skipn _ _); [contradiction | cbn; intros Hc; discriminate Hc].
Qed.

Lemma Forall_halves {A} (P : A -> Prop) (l : list A) :
  Forall P l -> Forall P (firstn (length l / 2) l) /\ Forall P (skipn (length l / 2) l).
Proof. intros H. rewrite <- (firstn_skipn (length l / 2) l) in H. now apply Forall_app in H. Qed.

Lemma internal_after_children (P : Node -> Prop) cap d s n' s' :
  internal_after cap d s = (n', s') -> d <> [] ->
  Forall (fun p => P (snd p)) d -> (forall sn, s = Some sn -> P sn) ->
  exists d1, Forall (fun p => P (snd p)) d1 /\ d1 <> [] /\
    ((n' = Internal cap d1 /\ s' = None) \/
     (exists lo hi, n' = Internal cap lo /\ s' = Some (Internal cap hi) /\
        Forall (fun p => P (snd p)) lo /\ Forall (fun p => P (snd p)) hi /\
        lo <> [] /\ hi <> [])).
Proof.
  intros A Hne Hd Hs. destruct (b_internal_after_spec _ _ _ _ _ A) as (d1 & Hd1 & Hshape).
  assert (F : Forall (fun p => P (snd p)) d1 /\ d1 <> []).
  { destruct Hd1 as [[-> _] | (sn & k & -> & _ & ->)]; [auto |]. split.
    - eapply Permutation_Forall; [symmetry; apply Facts.sort_by_key_perm |].
      apply Forall_app. split; [exact Hd | constructor; [now apply Hs | constructor]].
    - intros Z. apply (f_equal (@length _)) in Z. rewrite Facts.sort_snoc_length in Z. discriminate. }
  destruct F as [F Hne1]. exists d1. split; [exact F | split; [exact Hne1 |]].
  destruct Hshape as [(-> & -> & _) | (-> & -> & L)]; [left; auto | right].
  destruct (Forall_halves _ _ F) as [F1 F2]. destruct (Facts.firstn_half_nonempty d1) as [N1 N2]; [lia |].
  eexists _, _. split; [reflexivity | split; [reflexivity | auto]].
Qed.

Lemma b_node_insert_bal n : forall h r c n' s c',
  bal h n -> node_insert n r c = Some (n', s, c') ->
  bal h n' /\ (forall sn, s = Some sn -> bal h sn).
Proof.
  induction n as [cap | cap ch _ | cap d IH | l] using bnode_ind; intros h r c n' s c' Hb H;
    [destruct Hb | destruct Hb | |].
  - destruct h as [| h]; [destruct Hb |]. apply b_bal_internal in Hb as [Hne Hall].
    destruct d as [| p q]; [contradiction |].
    rewrite b_node_insert_internal in H.
    destruct (update_child _ _ _) as [[[d2 s0] c2] |] eqn:U; [| discriminate].
    destruct (internal_after cap d2 s0) as [n1 s1] eqn:A. injection H as <- <- <-.
    destruct (b_update_child_spec _ _ _ _ _ _ U) as (l1 & k & ch & ch' & l2 & E1 & E2 & Hf).
    rewrite E1 in IH, Hall. apply Forall_app in IH as [_ IH]. apply Forall_app in Hall as [Hall1 Hall2].
    apply Forall_cons_iff in IH as [IHch _]. apply Forall_cons_iff in Hall2 as [Bch Hall2].
    simpl in IHch, Bch. destruct (IHch _ _ _ _ _ _ Bch Hf) as [Bch' Bs0].
    assert (F2 : Forall (fun p => bal h (snd p)) d2).
    { rewrite E2. apply Forall_app. split; [exact Hall1 | constructor; [exact Bch' | exact Hall2]]. }
    assert (N2 : d2 <> []) by (rewrite E2; destruct l1; discriminate).
    destruct (internal_after_children (bal h) _ _ _ _ _ A N2 F2 Bs0)
      as (d1 & F1 & N1 & [(-> & ->) | (lo & hi & -> & -> & Flo & Fhi & Nlo & Nhi)]).
    + split; [apply b_bal_internal; auto | discriminate].
    + split; [apply b_bal_internal; auto |]. intros sn E. injection E as <-. apply b_bal_internal; auto.
  - simpl in H. destruct (leaf_insert l r c) as [[l' s0] c0] eqn:E. injection H as <- <- <-.
    destruct Hb as [-> Hne].
    destruct (leaf_halves_nonempty l r) as [Nhi Nlo].
    destruct (b_leaf_insert_spec _ _ _ _ _ _ E _ eq_refl) as [(-> & -> & _) | (-> & -> & _)].
    + split; [| discriminate]. split; [reflexivity |]. simpl.
      intros Z. apply (f_equal (@length _)) in Z. rewrite sorted_length in Z. discriminate.
    + split; [split; [reflexivity | exact (Nlo Hne)] |].
      intros sn Es. injection Es as <-. split; [reflexivity | exact Nhi].
Qed.

Lemma b_bal_min_key h n : bal h n -> exists a, min_key n = Some a.
Proof.
  destruct n as [cap o | cap [| [k ch] d] | l]; intros H.
  - destruct H.
  - destruct h; [destruct H | destruct H as [[] _]; reflexivity].
  - exists k. reflexivity.
  - destruct H as [_ Hne]. destruct (l_data l) as [| [k v] rest] eqn:E; [contradiction |].
    exists k. simpl. rewrite E. reflexivity.
Qed.

Lemma b_node_insert_some n : forall h r c, bal h n -> exists res, node_insert n r c = Some res.
Proof.
  induction n as [cap | cap ch _ | cap d IH | l] using bnode_ind; intros h r c Hb;
    [destruct Hb | destruct Hb | |].
  - destruct h as [| h]; [destruct Hb |]. apply b_bal_internal in Hb as [Hne Hall].
    destruct d as [| p q]; [contradiction |]. rewrite b_node_insert_internal.
    destruct (b_update_child_some (fun ch => node_insert ch r c) (p :: q) (find_child (p :: q) (fst r)))
      as [[[d2 s0] c2] U].
    + apply find_child_lt. discriminate.
    + rewrite Forall_forall in IH, Hall |- *. intros x Hx. exact (IH x Hx h r c (Hall x Hx)).
    + rewrite U. destruct (internal_after cap d2 s0). eexists. reflexivity.
  - simpl. destruct (leaf_insert l r c) as [[l' s0] c0]. eexists. reflexivity.
Qed.

Lemma perm_front {A} (a m c : list A) : Permutation (a ++ m ++ c) (m ++ a ++ c).
Proof.
  rewrite !app_assoc. apply Permutation_app_tail. apply Permutation_app_comm.
Qed.

Lemma node_insert_leaves n : forall h r c n' s c',
  bal h n -> node_insert n r c = Some (n', s, c') ->
  exists l rest l' s0, leaf_insert l r c = (l', s0, c') /\
    Permutation (leaves n) (l :: rest) /\
    Permutation (leaves n' ++ leaves_opt s) (l' :: leaves_opt s0 ++ rest).
Proof.
  induction n as [cap | cap ch _ | cap d IH | l] using bnode_ind; intros h r c n' s c' Hb H;
    [destruct Hb | destruct Hb | |].
  - destruct h as [| h]; [destruct Hb |]. apply b_bal_internal in Hb as [Hne Hall].
    destruct d as [| p q]; [contradiction |].
    rewrite b_node_insert_internal in H.
    destruct (update_child _ _ _) as [[[d2 s0] c2] |] eqn:U; [| discriminate].
    destruct (internal_after cap d2 s0) as [n1 s1] eqn:A. injection H as <- <- <-.
    destruct (b_update_child_spec _ _ _ _ _ _ U) as (l1 & k & ch & ch' & l2 & E1 & E2 & Hf).
    rewrite E1 in IH, Hall. apply Forall_app in IH as [_ IH]. apply Forall_app in Hall as [_ Hall2].
    apply Forall_cons_iff in IH as [IHch _]. apply Forall_cons_iff in Hall2 as [Bch _].
    simpl in IHch, Bch.
    destruct (IHch _ _ _ _ _ _ Bch Hf) as (l & rest & l' & sx & Li & P1 & P2).
    exists l, (rest ++ flat_map (fun p => leaves (snd p)) l1 ++ flat_map (fun p => leaves (snd p)) l2),
      l', sx. split; [exact Li | split].
    + rewrite E1, leaves_internal, flat_map_app. simpl. rewrite P1.
      change (l :: rest ++ ?x) with ((l :: rest) ++ x). apply perm_front.
    + assert (T : Forall (fun p : nat * Node => True) d2) by (apply Forall_forall; auto).
      assert (N2 : d2 <> []) by (rewrite E2; destruct l1; discriminate).
      destruct (b_internal_after_spec _ _ _ _ _ A) as (d1 & Hd1 & Hshape).
      assert (Eout : leaves n1 ++ leaves_opt s1 = flat_map (fun p => leaves (snd p)) d1).
      { destruct Hshape as [(-> & -> & _) | (-> & -> & _)].
        - cbn [leaves_opt]. rewrite app_nil_r. apply leaves_internal.
        - cbn [leaves_opt]. rewrite !leaves_internal, <- flat_map_app, firstn_skipn. reflexivity. }
      rewrite Eout.
      assert (Hd : Permutation (flat_map (fun p => leaves (snd p)) d1)
                     (flat_map (fun p => leaves (snd p)) d2 ++ leaves_opt s0)).
      { destruct Hd1 as [[-> [-> | (sn & -> & Hm)]] | (sn & k' & -> & _ & ->)].
        - simpl. rewrite app_nil_r. reflexivity.
        - destruct (b_node_insert_sibling_min _ _ _ _ _ _ Hf Hm).
        - rewrite (Permutation_flat_map _ (Facts.sort_by_key_perm _)), flat_map_app. simpl.
          rewrite app_nil_r. reflexivity. }
      rewrite Hd, E2, flat_map_app. simpl. rewrite <- !app_assoc.
      rewrite Facts.perm_swap_middle, P2.
      apply (Permutation_trans (perm_front _ _ _)). simpl. rewrite <- !app_assoc. reflexivity.
  - simpl in H. destruct (leaf_insert l r c) as [[l' s0] c0] eqn:E. injection H as <- <- <-.
    exists l, [], l', s0. split; [exact E | split; [reflexivity |]].
    simpl. rewrite app_nil_r. reflexivity.
Qed.

Lemma root_insert_some n r c :
  root_ok n -> exists n' c', node_insert n r c = Some (n', None, c') /\ root_ok n'.
Proof.
  destruct n as [cap [ch |] | cap d | l]; intros Hok; try contradiction.
  - destruct Hok as [h Hb]. destruct (b_node_insert_some ch h r c Hb) as [[[ch' s] c'] E].
    destruct (b_node_insert_bal _ _ _ _ _ _ _ Hb E) as [Bch' Bs].
    simpl. rewrite E. destruct s as [ins |].
    + destruct (b_bal_min_key _ _ Bch') as [a Ea]. destruct (b_bal_min_key _ _ (Bs ins eq_refl)) as [b Eb].
      rewrite Ea, Eb. eexists _, _. split; [reflexivity |]. exists (S h).
      apply b_bal_internal. split; [discriminate |].
      constructor; [exact Bch' | constructor; [exact (Bs ins eq_refl) | constructor]].
    + eexists _, _. split; [reflexivity |]. exists h. exact Bch'.
  - eexists _, _. split; [reflexivity |]. exists 0. split; [reflexivity | discriminate].
Qed.

Lemma root_insert_leaves n r c n' s c' :
  root_ok n -> node_insert n r c = Some (n', s, c') ->
  s = None /\
  ((exists cap, n = Root cap None /\ leaves n' = [mkLeaf cap [r] None c] /\ c' = S c) \/
   (exists l rest l' s0, leaf_insert l r c = (l', s0, c') /\
      Permutation (leaves n) (l :: rest) /\
      Permutation (leaves n') (l' :: leaves_opt s0 ++ rest))).
Proof.
  destruct n as [cap [ch |] | cap d | l]; intros Hok H; try contradiction.
  - destruct Hok as [h Hb]. simpl in H.
    destruct (node_insert ch r c) as [[[ch' sx] c0] |] eqn:E; [| discriminate].
    destruct (node_insert_leaves _ _ _ _ _ _ _ Hb E) as (l & rest & l' & s0 & Li & P1 & P2).
    destruct sx as [ins |].
    + destruct (min_key ch'), (min_key ins); try discriminate. injection H as <- <- <-.
      split; [reflexivity |]. right. exists l, rest, l', s0.
      split; [exact Li | split; [exact P1 |]]. simpl in P2 |- *. rewrite app_nil_r. exact P2.
    + injection H as <- <- <-. split; [reflexivity |]. right. exists l, rest, l', s0.
      split; [exact Li | split; [exact P1 |]]. simpl in P2 |- *. rewrite app_nil_r in P2. exact P2.
  - simpl in H. injection H as <- <- <-. split; [reflexivity |]. left. exists cap. auto.
Qed.

Lemma leaf_insert_entries l r c l' s0 c' :
  leaf_insert l r c = (l', s0, c') ->
  Permutation (l_data l' ++ flat_map l_data (leaves_opt s0)) (r :: l_data l).
Proof.
  intros E.
  assert (P : Permutation (UnsafeBPlus.sort_by_key (l_data l ++ [r])) (r :: l_data l))
    by (eapply perm_trans; [apply Facts.sort_by_key_perm | apply Permutation_app_comm]).
  destruct (b_leaf_insert_spec _ _ _ _ _ _ E _ eq_refl) as [(-> & -> & _) | (-> & -> & _)].
  - simpl. rewrite app_nil_r. exact P.
  - simpl. rewrite app_nil_r, firstn_skipn. exact P.
Qed.

Lemma root_insert_entries n r c n' s c' :
  root_ok n -> node_insert n r c = Some (n', s, c') -> Permutation (entries n') (r :: entries n).
Proof.
  intros Hok H. unfold entries.
  destruct (root_insert_leaves _ _ _ _ _ _ Hok H)
    as [_ [(cap & -> & -> & _) | (l & rest & l' & s0 & Li & P1 & P2)]].
  - reflexivity.
  - rewrite (Permutation_flat_map l_data P2), (Permutation_flat_map l_data P1). simpl.
    rewrite flat_map_app, app_assoc. apply (Permutation_app_tail _ (leaf_insert_entries _ _ _ _ _ _ Li)).
Qed.

Lemma b_insert_all_some ops : forall n c,
  root_ok n -> exists n' c', insert_all n ops c = Some (n', c') /\ root_ok n'.
Proof.
  induction ops as [| r ops IH]; intros n c Hok; simpl.
  - eexists _, _. split; [reflexivity | exact Hok].
  - destruct (root_insert_some n r c Hok) as (n1 & c1 & E & Hok1). rewrite E. exact (IH n1 c1 Hok1).
Qed.

Lemma b_insert_all_entries ops : forall n c n' c',
  root_ok n -> insert_all n ops c = Some (n', c') -> Permutation (entries n') (ops ++ entries n).
Proof.
  induction ops as [| r ops IH]; intros n c n' c' Hok H; simpl in H.
  - injection H as <- <-. reflexivity.
  - destruct (root_insert_some n r c Hok) as (n1 & c1 & E & Hok1). rewrite E in H.
    rewrite (IH _ _ _ _ Hok1 H), (root_insert_entries _ _ _ _ _ _ Hok E).
    simpl. symmetry. apply Permutation_middle.
Qed.

Lemma b_build_entries cap ops n c : build cap ops = Some (n, c) -> Permutation (entries n) ops.
Proof.
  intros H. rewrite (b_insert_all_entries ops (Root cap None) 0 _ _ I H).
  unfold entries. simpl. rewrite app_nil_r. reflexivity.
Qed.

Lemma build_root cap ops n c :
  build cap ops = Some (n, c) -> root_ok n /\ exists o, n = Root cap o.
Proof.
  unfold build. intros Hb.
  assert (Hr : forall n0 r c0 n1 s c1, node_insert n0 r c0 = Some (n1, s, c1) ->
                 (exists o, n0 = Root cap o) -> exists o, n1 = Root cap o).
  { intros n0 r c0 n1 s c1 E [o ->]. destruct o as [ch |]; simpl in E.
    - destruct (node_insert ch r c0) as [[[ch' [ins |]] c2] |]; [| | discriminate].
      + destruct (min_key ch'), (min_key ins); try discriminate. injection E as <- _ _. eauto.
      + injection E as <- _ _. eauto.
    - injection E as <- _ _. eauto. }
  assert (Gen : forall n0 c0, root_ok n0 -> (exists o, n0 = Root cap o) ->
                  insert_all n0 ops c0 = Some (n, c) -> root_ok n /\ exists o, n = Root cap o).
  { clear Hb. induction ops as [| r ops IH]; intros n0 c0 Hok Ho H; simpl in H.
    - injection H as <- <-. auto.
    - destruct (root_insert_some n0 r c0 Hok) as (n1 & c1 & E & Hok1). rewrite E in H.
      exact (IH n1 c1 Hok1 (Hr _ _ _ _ _ _ E Ho) H). }
  exact (Gen (Root cap None) 0 I (ex_intro _ None eq_refl) Hb).
Qed.

(** The forward references of the leaves read as a chain through an order
    of their identities, the first allocated leaf (identity 0) first. *)
Definition chain_inv (n : Node) (c : nat) : Prop :=
  exists order,
    Permutation (ids n) (seq 0 c) /\ Permutation order (ids n) /\
    Forall (fun l => l_next l = next_in order (l_id l)) (leaves n) /\
    (order = [] \/ hd_error order = Some 0).

Lemma next_in_insert_after_a order a c :
  In a order -> next_in (insert_after a c order) a = Some c.
Proof.
  induction order as [| y r IH]; simpl; [contradiction |]. intros Hin.
  destruct (y =? a) eqn:E; simpl; rewrite E; [reflexivity |].
  apply IH. destruct Hin as [-> | Hin]; [rewrite Nat.eqb_refl in E; discriminate | exact Hin].
Qed.

Lemma next_in_insert_after_c order a c :
  In a order -> ~ In c order -> next_in (insert_after a c order) c = next_in order a.
Proof.
  induction order as [| y r IH]; simpl; [contradiction |]. intros Hin Hc.
  assert (Yc : (y =? c) = false) by (apply Nat.eqb_neq; intros ->; apply Hc; left; reflexivity).
  destruct (y =? a) eqn:E; simpl; rewrite Yc.
  - rewrite Nat.eqb_refl. reflexivity.
  - apply IH; [| intros H; apply Hc; right; exact H].
    destruct Hin as [-> | Hin]; [rewrite Nat.eqb_refl in E; discriminate | exact Hin].
Qed.

Lemma hd_insert_after order a c : hd_error (insert_after a c order) = hd_error order.
Proof. destruct order as [| y r]; simpl; [| destruct (y =? a)]; reflexivity. Qed.

Lemma next_in_insert_after_other order a c x :
  x <> a -> x <> c -> next_in (insert_after a c order) x = next_in order x.
Proof.
  intros Ha Hc. induction order as [| y r IH]; simpl; [reflexivity |].
  destruct (y =? a) eqn:E; simpl.
  - apply Nat.eqb_eq in E. subst y.
    assert (E1 : (a =? x) = false) by (apply Nat.eqb_neq; congruence).
    assert (E2 : (c =? x) = false) by (apply Nat.eqb_neq; congruence).
    rewrite E1, E2. reflexivity.
  - destruct (y =? x); [apply hd_insert_after | exact IH].
Qed.

Lemma perm_insert_after order a c :
  In a order -> Permutation (insert_after a c order) (c :: order).
Proof.
  induction order as [| y r IH]; simpl; [contradiction |]. intros Hin.
  destruct (y =? a) eqn:E.
  - apply perm_swap.
  - destruct Hin as [-> | Hin]; [rewrite Nat.eqb_refl in E; discriminate |].
    eapply perm_trans; [apply perm_skip, IH, Hin | apply perm_swap].
Qed.

Lemma next_in_app p x s : ~ In x p -> next_in (p ++ x :: s) x = hd_error s.
Proof.
  induction p as [| y p IH]; simpl; intros Hn.
  - rewrite Nat.eqb_refl. reflexivity.
  - assert (E : (y =? x) = false) by (apply Nat.eqb_neq; intros ->; apply Hn; left; reflexivity).
    rewrite E. apply IH. intros H; apply Hn; right; exact H.
Qed.

Lemma seq_lt c x : In x (seq 0 c) -> x < c.
Proof. intros H. apply in_seq in H. lia. Qed.

Lemma root_insert_chain n r c n' s c' :
  root_ok n -> chain_inv n c -> node_insert n r c = Some (n', s, c') -> chain_inv n' c'.
Proof.
  intros Hok (order & Pid & Po & Hl & Hh) H.
  destruct (root_insert_leaves _ _ _ _ _ _ Hok H)
    as [_ [(cap & -> & El & ->) | (l & rest & l' & s0 & Li & P1 & P2)]].
  - assert (c = 0) as ->.
    { apply Permutation_length in Pid. rewrite length_seq in Pid. exact (eq_sym Pid). }
    exists [0]. unfold ids. rewrite El. simpl.
    split; [reflexivity | split; [reflexivity | split; [| right; reflexivity]]].
    repeat constructor.
  - assert (Pids : Permutation (ids n) (l_id l :: map l_id rest))
      by (unfold ids; exact (Permutation_map l_id P1)).
    assert (ND : NoDup (l_id l :: map l_id rest)).
    { apply (Permutation_NoDup (Permutation_trans (Permutation_sym Pid) Pids)), seq_NoDup. }
    assert (Lt : forall x, In x (l_id l :: map l_id rest) -> x < c).
    { intros x Hx. apply seq_lt. apply (Permutation_in _ Pid), (Permutation_in _ (Permutation_sym Pids)), Hx. }
    assert (Hl' : Forall (fun l0 => l_next l0 = next_in order (l_id l0)) (l :: rest))
      by exact (Permutation_Forall P1 Hl).
    inversion Hl' as [| ? ? Hll Hrest]; subst.
    assert (Ain : In (l_id l) order)
      by (apply (Permutation_in _ (Permutation_sym Po)), (Permutation_in _ (Permutation_sym Pids)); left; reflexivity).
    destruct (b_leaf_insert_spec _ _ _ _ _ _ Li _ eq_refl) as [(-> & -> & ->) | (-> & -> & ->)].
    + assert (Pn : Permutation (ids n') (l_id l :: map l_id rest))
        by (unfold ids; exact (Permutation_map l_id P2)).
      exists order. split; [| split; [| split; [| exact Hh]]].
      * eapply perm_trans; [exact Pn |]. eapply perm_trans; [apply Permutation_sym, Pids | exact Pid].
      * eapply perm_trans; [exact Po |]. eapply perm_trans; [exact Pids | apply Permutation_sym, Pn].
      * apply (Permutation_Forall (Permutation_sym P2)). constructor; [exact Hll | exact Hrest].
    + set (a := l_id l) in *.
      assert (Cn : ~ In c order).
      { intros Hc. apply (Permutation_in _ Po), (Permutation_in _ Pids), Lt in Hc. lia. }
      assert (Pn : Permutation (ids n') (a :: c :: map l_id rest))
        by (unfold ids; exact (Permutation_map l_id P2)).
      exists (insert_after a c order). split; [| split; [| split]].
      * eapply perm_trans; [exact Pn |]. eapply perm_trans; [apply perm_swap |].
        rewrite seq_S. simpl. eapply perm_trans; [| apply Permutation_cons_append].
        apply perm_skip. eapply perm_trans; [apply Permutation_sym, Pids | exact Pid].
      * eapply perm_trans; [apply perm_insert_after, Ain |].
        eapply perm_trans; [apply perm_skip; eapply perm_trans; [exact Po | exact Pids] |].
        eapply perm_trans; [apply perm_swap | apply Permutation_sym, Pn].
      * apply (Permutation_Forall (Permutation_sym P2)). constructor; [| constructor].
        -- simpl. symmetry. apply next_in_insert_after_a, Ain.
        -- simpl. rewrite (next_in_insert_after_c _ _ _ Ain Cn). exact Hll.
        -- rewrite Forall_forall in Hrest |- *. intros x Hx. rewrite Hrest by exact Hx.
           inversion ND as [| ? ? Na _]. symmetry. apply next_in_insert_after_other.
           ++ intros E. apply Na. rewrite <- E. apply in_map, Hx.
           ++ intros E. assert (Hlt : l_id x < c) by (apply Lt; right; apply in_map, Hx). lia.
      * right. rewrite hd_insert_after. destruct Hh as [-> | Hh]; [contradiction | exact Hh].
Qed.

Lemma insert_all_chain ops : forall n c n' c',
  root_ok n -> chain_inv n c -> insert_all n ops c = Some (n', c') -> chain_inv n' c'.
Proof.
  induction ops as [| r ops IH]; intros n c n' c' Hok Hc H; simpl in H.
  - injection H as <- <-. exact Hc.
  - destruct (root_insert_some n r c Hok) as (n1 & c1 & E & Hok1). rewrite E in H.
    exact (IH _ _ _ _ Hok1 (root_insert_chain _ _ _ _ _ _ Hok Hc E) H).
Qed.

Lemma build_chain cap ops n c : build cap ops = Some (n, c) -> chain_inv n c.
Proof.
  intros H. apply (insert_all_chain ops (Root cap None) 0 _ _ I); [| exact H].
  exists []. unfold ids. simpl. split; [constructor | split; [constructor | split; [constructor | left; reflexivity]]].
Qed.

Lemma follow_order heap order :
  NoDup order -> Permutation order (map l_id heap) ->
  Forall (fun l => l_next l = next_in order (l_id l)) heap ->
  forall s p l fuel, In l heap -> order = p ++ l_id l :: s -> length s < fuel ->
  exists ch, follow heap fuel l = Some ch /\ map l_id ch = l_id l :: s /\ incl ch heap.
Proof.
  intros ND Po Hl. rewrite Forall_forall in Hl.
  induction s as [| y s IH]; intros p l fuel Hin Eo Hf; (destruct fuel as [| f]; [simpl in Hf; lia |]);
    simpl; rewrite (Hl l Hin);
    assert (Np : ~ In (l_id l) p) by (intros Hp; rewrite Eo in ND; apply (NoDup_remove_2 _ _ _ ND), in_or_app; left; exact Hp);
    rewrite Eo, (next_in_app _ _ _ Np); simpl.
  - exists [l]. split; [reflexivity | split; [reflexivity |]]. intros x [<- | []]. exact Hin.
  - destruct (find (fun l0 => l_id l0 =? y) heap) as [ly |] eqn:F.
    + destruct (find_some _ _ F) as [Hly Ey]. apply Nat.eqb_eq in Ey.
      destruct (IH (p ++ [l_id l]) ly f Hly) as (ch & Ef & Em & Hi).
      { rewrite Eo, Ey, <- app_assoc. reflexivity. }
      { simpl in Hf. lia. }
      rewrite Ef. simpl. exists (l :: ch). split; [reflexivity |]. split.
      * simpl. rewrite Em, Ey. reflexivity.
      * intros x [<- | Hx]; [exact Hin | exact (Hi x Hx)].
    + exfalso. assert (Hy : In y (map l_id heap)).
      { apply (Permutation_in _ Po). rewrite Eo. apply in_or_app. right. right. left. reflexivity. }
      apply in_map_iff in Hy. destruct Hy as (x & Ex & Hx).
      pose proof (find_none _ _ F x Hx) as Fx. simpl in Fx. rewrite Ex, Nat.eqb_refl in Fx. discriminate.
Qed.

Lemma chain_from_first n c :
  chain_inv n c -> leaves n <> [] ->
  exists l0 ch, In l0 (leaves n) /\ l_id l0 = 0 /\
    follow (leaves n) (S (length (leaves n))) l0 = Some ch /\ Permutation ch (leaves n).
Proof.
  intros (order & Pid & Po & Hl & Hh) Hne.
  assert (NDi : NoDup (ids n)) by (apply (Permutation_NoDup (Permutation_sym Pid)), seq_NoDup).
  assert (ND : NoDup order) by exact (Permutation_NoDup (Permutation_sym Po) NDi).
  destruct order as [| z s].
  { apply Permutation_nil in Po. unfold ids in Po. destruct (leaves n); [contradiction | discriminate]. }
  destruct Hh as [Hh | Hh]; [discriminate |]. injection Hh as ->.
  assert (Hz : In 0 (map l_id (leaves n))) by (apply (Permutation_in _ Po); left; reflexivity).
  apply in_map_iff in Hz. destruct Hz as (l0 & E0 & Hin0).
  assert (Len : length (0 :: s) = length (leaves n))
    by (rewrite (Permutation_length Po); unfold ids; apply length_map).
  destruct (follow_order (leaves n) (0 :: s) ND Po Hl s [] l0 (S (length (leaves n))) Hin0)
    as (ch & Ef & Em & Hi).
  { rewrite E0. reflexivity. }
  { simpl in Len. lia. }
  exists l0, ch. split; [exact Hin0 | split; [exact E0 | split; [exact Ef |]]].
  apply NoDup_Permutation_bis; [| | exact Hi].
  - apply (NoDup_map_inv l_id). rewrite Em, E0. exact ND.
  - apply (f_equal (@length nat)) in Em. rewrite length_map in Em. simpl in Em, Len. lia.
Qed.

Lemma build_ids_b cap ops n c : build cap ops = Some (n, c) -> Permutation (ids n) (seq 0 c).
Proof. intros H. destruct (build_chain _ _ _ _ H) as (order & P & _). exact P. Qed.

(** A leaf as [LeafNode::insert] keeps it in a tree of capacity [cap]: the
    tree's capacity, between one and [cap] records, sorted by key. *)
Definition leaf_ok (cap : nat) (l : LeafNode) : Prop :=
  l_cap l = cap /\ 0 < length (l_data l) <= cap /\
  StronglySorted UnsafeBPlus.key_le (l_data l).

Lemma b_ssorted_app_inv {A} (R : A -> A -> Prop) a b :
  StronglySorted R (a ++ b) -> StronglySorted R a /\ StronglySorted R b.
Proof.
  induction a as [| x a IH]; simpl; intros H; [split; [constructor | exact H] |].
  apply StronglySorted_inv in H as [H1 H2]. destruct (IH H1) as [Sa Sb].
  split; [| exact Sb]. constructor; [exact Sa |]. apply Forall_app in H2. apply H2.
Qed.

Lemma leaf_insert_ok cap l r c l' s0 c' :
  0 < cap -> leaf_ok cap l -> leaf_insert l r c = (l', s0, c') ->
  leaf_ok cap l' /\ Forall (leaf_ok cap) (leaves_opt s0).
Proof.
  intros Hc (Ec & Hlen & _) E.
  set (sorted := UnsafeBPlus.sort_by_key (l_data l ++ [r])).
  assert (Ss : StronglySorted UnsafeBPlus.key_le sorted) by apply Facts.sort_by_key_sorted.
  assert (Ls : length sorted = S (length (l_data l))) by apply sorted_length.
  unfold leaf_insert in E. destruct (leaf_is_full _) eqn:F;
    unfold leaf_is_full in F; cbn [l_cap l_data] in F; fold sorted in E, F.
  - apply Nat.ltb_lt in F. cbn [leaf_split l_data l_cap l_next l_id] in E.
    injection E as <- <- _.
    pose proof (Nat.div_mod_eq (length sorted) 2). pose proof (Nat.mod_upper_bound (length sorted) 2 ltac:(discriminate)).
    rewrite <- (firstn_skipn (length sorted / 2) sorted) in Ss.
    apply b_ssorted_app_inv in Ss as [S1 S2].
    split; [| cbn [leaves_opt leaves]; apply Forall_cons; [| apply Forall_nil]];
      unfold leaf_ok; cbn [l_cap l_data]; rewrite ?length_firstn, ?length_skipn;
      change (fst (Nat.divmod (length sorted) 1 0 1)) with (length sorted / 2).
    + split; [exact Ec | split; [unfold Record in *; lia | exact S1]].
    + split; [exact Ec | split; [unfold Record in *; lia | exact S2]].
  - apply Nat.ltb_ge in F. injection E as <- <- _. split; [| constructor].
    unfold leaf_ok. cbn [l_cap l_data]. split; [exact Ec | split; [unfold Record in *; lia | exact Ss]].
Qed.

Lemma root_insert_cap cap o r c n1 s c1 :
  node_insert (Root cap o) r c = Some (n1, s, c1) -> exists o', n1 = Root cap o'.
Proof.
  intros E. destruct o as [ch |]; simpl in E.
  - destruct (node_insert ch r c) as [[[ch' [ins |]] c2] |]; [| | discriminate].
    + destruct (min_key ch'), (min_key ins); try discriminate. injection E as <- _ _. eauto.
    + injection E as <- _ _. eauto.
  - injection E as <- _ _. eauto.
Qed.

Lemma root_insert_leaf_ok cap o r c n' s c' :
  0 < cap -> root_ok (Root cap o) -> Forall (leaf_ok cap) (leaves (Root cap o)) ->
  node_insert (Root cap o) r c = Some (n', s, c') -> Forall (leaf_ok cap) (leaves n').
Proof.
  intros Hc Hok Hl H.
  destruct (root_insert_leaves _ _ _ _ _ _ Hok H)
    as [_ [(cap0 & E0 & El & _) | (l & rest & l' & s0 & Li & P1 & P2)]].
  - injection E0 as <- _. rewrite El. constructor; [| constructor].
    unfold leaf_ok. cbn [l_cap l_data length]. split; [reflexivity | split; [lia |]].
    repeat constructor.
  - apply (Permutation_Forall P1) in Hl. inversion Hl as [| ? ? Hl0 Hrest]; subst.
    destruct (leaf_insert_ok _ _ _ _ _ _ _ Hc Hl0 Li) as [Ok1 Ok2].
    apply (Permutation_Forall (Permutation_sym P2)). constructor; [exact Ok1 |].
    apply Forall_app. split; assumption.
Qed.

Lemma build_leaf_ok cap ops n c :
  0 < cap -> build cap ops = Some (n, c) -> Forall (leaf_ok cap) (leaves n).
Proof.
  unfold build. intros Hc.
  assert (Gen : forall o c0, root_ok (Root cap o) -> Forall (leaf_ok cap) (leaves (Root cap o)) ->
                  insert_all (Root cap o) ops c0 = Some (n, c) -> Forall (leaf_ok cap) (leaves n)).
  { induction ops as [| r ops IH]; intros o c0 Hok Hl H; cbn [insert_all] in H.
    - injection H as <- <-. exact Hl.
    - destruct (root_insert_some _ r c0 Hok) as (n1 & c1 & E & Hok1). rewrite E in H.
      destruct (root_insert_cap _ _ _ _ _ _ _ E) as [o1 ->].
      exact (IH o1 c1 Hok1 (root_insert_leaf_ok _ _ _ _ _ _ _ Hc Hok Hl E) H). }
  intros H. exact (Gen None 0 I (Forall_nil _) H).
Qed.

Lemma build_root_shape cap ops n c :
  build cap ops = Some (n, c) ->
  (ops = [] /\ n = Root cap None) \/
  (ops <> [] /\ exists ch h, n = Root cap (Some ch) /\ bal h ch).
Proof.
  intros H. destruct (build_root _ _ _ _ H) as [Hok [o ->]].
  destruct ops as [| r ops].
  - left. unfold build in H. simpl in H. injection H as <- _. auto.
  - right. split; [discriminate |]. destruct o as [ch |].
    + exists ch. destruct Hok as [h Hb]. exists h. auto.
    + apply b_build_entries in H. unfold entries in H. simpl in H.
      apply Permutation_nil in H. discriminate.
Qed.

(** Every internal node below a root of capacity [cap] carries that
    capacity and holds at most [cap + 1] pairs ([InternalNode::is_full]
    counts the pair of the minimum key apart). *)
Fixpoint internal_ok (cap : nat) (n : Node) {struct n} : Prop :=
  match n with
  | Root _ data => match data with Some ch => internal_ok cap ch | None => True end
  | Internal cap' data => cap' = cap /\ length data <= cap + 1 /\ all_children (internal_ok cap) data
  | Leaf _ => True
  end.

Lemma internal_ok_internal cap cap' d :
  internal_ok cap (Internal cap' d) <->
  cap' = cap /\ length d <= cap + 1 /\ Forall (fun p => internal_ok cap (snd p)) d.
Proof. simpl. rewrite b_all_children_Forall. reflexivity. Qed.

Lemma node_insert_internal_ok cap n : forall h r c n' s c',
  bal h n -> internal_ok cap n -> node_insert n r c = Some (n', s, c') ->
  internal_ok cap n' /\ (forall sn, s = Some sn -> internal_ok cap sn).
Proof.
  induction n as [cap0 | cap0 ch _ | cap0 d IH | l] using bnode_ind; intros h r c n' s c' Hb Hi H;
    [destruct Hb | destruct Hb | |].
  - destruct h as [| h]; [destruct Hb |]. apply b_bal_internal in Hb as [Hne Hall].
    apply internal_ok_internal in Hi as (-> & Hlen & Hio).
    destruct d as [| p q]; [contradiction |].
    rewrite b_node_insert_internal in H.
    destruct (update_child _ _ _) as [[[d2 s0] c2] |] eqn:U; [| discriminate].
    destruct (internal_after cap d2 s0) as [n1 s1] eqn:A. injection H as <- <- <-.
    destruct (b_update_child_spec _ _ _ _ _ _ U) as (l1 & k & ch & ch' & l2 & E1 & E2 & Hf).
    assert (L2 : length d2 = length (p :: q)) by (rewrite E1, E2, !length_app; reflexivity).
    rewrite E1 in IH, Hall, Hio. apply Forall_app in IH as [_ IH].
    apply Forall_app in Hall as [_ Hall2]. apply Forall_app in Hio as [Hio1 Hio2].
    apply Forall_cons_iff in IH as [IHch _]. apply Forall_cons_iff in Hall2 as [Bch _].
    apply Forall_cons_iff in Hio2 as [Ich Hio2].
    simpl in IHch, Bch, Ich. destruct (IHch _ _ _ _ _ _ Bch Ich Hf) as [Ich' Is0].
    assert (F2 : Forall (fun p => internal_ok cap (snd p)) d2).
    { rewrite E2. apply Forall_app. split; [exact Hio1 | constructor; [exact Ich' | exact Hio2]]. }
    assert (N2 : d2 <> []) by (rewrite E2; destruct l1; discriminate).
    destruct (internal_after_children (internal_ok cap) _ _ _ _ _ A N2 F2 Is0)
      as (d1 & F1 & _ & [(-> & ->) | (lo & hi & -> & -> & Flo & Fhi & _ & _)]);
    destruct (b_internal_after_spec _ _ _ _ _ A) as (d3 & Hd3 & Sh);
    assert (L3 : length d3 <= S (length d2))
      by (destruct Hd3 as [(-> & _) | (sn & k0 & _ & _ & ->)];
          [lia | rewrite Facts.sort_snoc_length; lia]);
    destruct Sh as [(E & Es & Hl3) | (E & Es & Hl3)]; try discriminate Es.
    + injection E as ->. split; [apply internal_ok_internal; auto | discriminate].
    + injection E as ->. injection Es as ->.
      pose proof (Nat.div_mod_eq (length d3) 2).
      pose proof (Nat.mod_upper_bound (length d3) 2 ltac:(discriminate)).
      cbn [length] in Hlen, L2.
      split.
      * apply internal_ok_internal. split; [reflexivity | split; [| exact Flo]].
        rewrite length_firstn. change (fst (Nat.divmod (length d3) 1 0 1)) with (length d3 / 2). lia.
      * intros sn Es. injection Es as <-. apply internal_ok_internal.
        split; [reflexivity | split; [| exact Fhi]]. rewrite length_skipn. change (fst (Nat.divmod (length d3) 1 0 1)) with (length d3 / 2). lia.
  - simpl in H. destruct (leaf_insert l r c) as [[l' s0] c0] eqn:E. injection H as <- <- <-.
    split; [exact I |]. intros sn Es. subst s0.
    destruct (b_leaf_insert_spec _ _ _ _ _ _ E _ eq_refl) as [(Z & _) | (Z & _)];
      [discriminate Z | injection Z as Z; subst sn; exact I].
Qed.

Lemma root_insert_internal_ok cap o r c n' s c' :
  0 < cap -> root_ok (Root cap o) -> internal_ok cap (Root cap o) ->
  node_insert (Root cap o) r c = Some (n', s, c') -> internal_ok cap n'.
Proof.
  intros Hc Hok Hi H. destruct o as [ch |]; simpl in H.
  - destruct Hok as [h Hb]. simpl in Hi.
    destruct (node_insert ch r c) as [[[ch' sx] c0] |] eqn:E; [| discriminate].
    destruct (node_insert_internal_ok _ _ _ _ _ _ _ _ Hb Hi E) as [Ich' Is].
    destruct sx as [ins |].
    + destruct (min_key ch'), (min_key ins); try discriminate. injection H as <- _ _.
      simpl. split; [reflexivity | split; [lia |]]. split; [exact Ich' | split; [exact (Is _ eq_refl) | exact I]].
    + injection H as <- _ _. exact Ich'.
  - injection H as <- _ _. exact I.
Qed.

Lemma build_internal_ok cap ops n c :
  0 < cap -> build cap ops = Some (n, c) -> internal_ok cap n.
Proof.
  unfold build. intros Hc.
  assert (Gen : forall o c0, root_ok (Root cap o) -> internal_ok cap (Root cap o) ->
                  insert_all (Root cap o) ops c0 = Some (n, c) -> internal_ok cap n).
  { induction ops as [| r ops IH]; intros o c0 Hok Hi H; cbn [insert_all] in H.
    - injection H as <- <-. exact Hi.
    - destruct (root_insert_some _ r c0 Hok) as (n1 & c1 & E & Hok1). rewrite E in H.
      destruct (root_insert_cap _ _ _ _ _ _ _ E) as [o1 ->].
      exact (IH o1 c1 Hok1 (root_insert_internal_ok _ _ _ _ _ _ _ Hc Hok Hi E) H). }
  intros H. exact (Gen None 0 I I H).
Qed.

End BPlusFacts.

Module Tests.
Import UnsafeBPlus.

(** The unit tests of [src/unsafebplus/src/lib.rs], on the model. *)
Example test_insert_1 :
  option_map (fun t => search t 1) (build 3 [(1, 1)]) = Some (Some 1).
Proof. reflexivity. Qed.

Example test_insert_2 :
  option_map (fun t => (search t 24, search t 10, search t 11, search t 12,
                        search_range t 11 11))
    (build 3 [(11, 11); (25, 25); (12, 12); (24, 24); (13, 13); (10, 10); (14, 14)])
  = Some (Some 24, Some 10, Some 11, Some 12, Some [11]).
Proof. reflexivity. Qed.

Example test_insert_3 :
  option_map (fun t => (search_range t 11 13, search_range t 11 24, search_range t 0 100))
    (build 3 [(11, 11); (25, 25); (12, 12); (24, 24); (13, 13); (10, 10); (14, 14)])
  = Some (Some [11; 12; 13], Some [11; 12; 13; 14; 24],
          Some [10; 11; 12; 13; 14; 24; 25]).
Proof. reflexivity. Qed.

Example test_insert_4 :
  option_map (fun t => search_range t 11 11)
    (build 3 [(11, 11); (25, 25); (12, 12); (14, 14); (15, 15); (16, 16); (17, 17)])
  = Some (Some [11]).
Proof. reflexivity. Qed.

(** The spec's first concrete scenario. *)
Example scenario_1 :
  option_map (fun t => (search t 5, option_map chain_entries (t_node t)))
    (build 3 [(1, 1); (5, 5); (2, 2); (4, 4); (3, 3)])
  = Some (Some 5, Some (Some [(1, 1); (2, 2); (3, 3); (4, 4); (5, 5)])).
Proof. reflexivity. Qed.

End Tests.

Module Claims.
Import UnsafeBPlus Samples Facts.

(** C1 (code_bug): after inserting [stale_ops] (distinct keys) with
    capacity 4, [search 1] returns nothing although key 1 was inserted
    with value 1. *)
Theorem C1_search_misses_inserted_key :
  NoDup (map fst stale_ops) /\ In (1, 1) stale_ops /\
  option_map (fun t => search t 1) (build 4 stale_ops) = Some None.
Proof.
  split; [| split].
  - repeat constructor; simpl; intuition discriminate.
  - simpl; tauto.
  - reflexivity.
Qed.

(** C2 (code_bug): after inserting [cut_ops] with capacity 1,
    [search_range 10 30] returns only the values of keys 10 and 15; those
    of 20 and 30 are missing. *)
Theorem C2_range_scan_misses_values :
  option_map (fun t => search_range t 10 30) (build 1 cut_ops) = Some (Some [10; 15]).
Proof. reflexivity. Qed.

(** C3 (code_bug): inserting 10, 20, 30, 40, 50 and then 1 with capacity 4
    goes through the first-entry fallback; the root's first separator stays
    10 while its child's minimum key becomes 1. *)
Theorem C3_separator_not_minimum :
  match build 4 [(10, 10); (20, 20); (30, 30); (40, 40); (50, 50); (1, 1)] with
  | Some t =>
      match t_node t with
      | Some (Internal _ ((k, ch) :: _) as r) =>
          k = 10 /\ first_leaf_key ch = Some 1 /\ separators_ok r = false
      | _ => False
      end
  | None => False
  end.
Proof. vm_compute. repeat split. Qed.


(** C6 (code_bug): after inserting [cut_ops] with capacity 1 the tree has
    four leaves, but only two are reached from the leftmost leaf. *)
Theorem C6_chain_misses_leaves :
  match build 1 cut_ops with
  | Some t =>
      match t_node t with
      | Some r => option_map (@length LeafNode) (leaf_chain r) = Some 2 /\
                  length (leaves r) = 4
      | None => False
      end
  | None => False
  end.
Proof. vm_compute. split; reflexivity. Qed.

(** C7 (code_bug): after inserting [stale_ops] with capacity 4 the chain
    from the leftmost leaf yields the keys 3, 10, 20, 1, 2, 30, 40, 50, and
    the full range scan returns the values in that order. *)
Theorem C7_chain_not_sorted :
  match build 4 stale_ops with
  | Some t =>
      match t_node t with
      | Some r => option_map (map fst) (chain_entries r) = Some [3; 10; 20; 1; 2; 30; 40; 50] /\
                  search_range t 0 100 = Some [3; 10; 20; 1; 2; 30; 40; 50]
      | None => False
      end
  | None => False
  end.
Proof. vm_compute. split; reflexivity. Qed.

(** C9 (counterexample): [InternalNode::insert] on an internal node with
    no child does not fail: it makes a fresh leaf child holding the entry. *)
Theorem C9_empty_internal_recovers :
  node_insert (Internal 3 []) 5 7 0 =
  Some (Internal 3 [(5, Leaf (mkLeaf 3 [(5, 7)] None 0))], None, 1).
Proof. reflexivity. Qed.

(** C4 (confirmed): in every tree built by insertions from
    [BPlusTree::new(cap)], every internal node routes every probe key to the
    same child on the insertion path ([find_mut_node]) as on the search and
    range-scan paths ([find_node]), and that child is the last one whose key
    is [<=] the probe, or the first one when there is none. *)
Theorem C4_routing_rule_shared (cap : nat) (ops : list (Key * Data)) (t : BPlusTree)
  (r : Node) (icap : nat) (ns : list (Key * Node)) (key : Key)
  (Hb : build cap ops = Some t) (Hr : t_node t = Some r)
  (Hs : sub_node r (Internal icap ns)) :
  find_mut_node ns key = find_node ns key /\ find_node ns key = spec_route ns key.
Proof.
  pose proof (build_sorted _ _ _ Hb) as St. unfold tree_sorted in St. rewrite Hr in St.
  apply (sub_node_sorted _ _ Hs) in St. apply sorted_internal in St as [St _].
  now apply route_sorted.
Qed.

Lemma C4_witness :
  find_mut_node sample_children 12 = find_node sample_children 12 /\
  find_node sample_children 12 = spec_route sample_children 12.
Proof.
  apply (C4_routing_rule_shared 3 sample_ops sample_tree (Internal 3 sample_children) 3
           sample_children 12); [vm_compute; reflexivity | reflexivity | constructor].
Defined.



(** C8 (code_bug): root growth keys the old child by [Node::min_key],
    which for an internal child is its first separator, not its least key.
    With capacity 1, after inserting 10 and 20, inserting 1 makes the
    root's child split; the new root keys the old child by 10 although that
    child holds only the key 1.  The same holds in bplus
    ([RootNode::insert]). *)
Theorem C8_root_key_not_minimum :
  match build 1 [(10, 10); (20, 20)] with
  | Some t =>
      match t_node t, tree_insert t 1 1 with
      | Some n, Some t' =>
          match node_insert n 1 1 (t_cnt t) with
          | Some (n', Some s, _) =>
              t_node t' = Some (Internal 1 [(10, n'); (10, s)]) /\
              min_key n' = Some 10 /\ entries n' = [(1, 1)]
          | _ => False
          end
      | _, _ => False
      end
  | None => False
  end /\
  match BPlus.build 1 [(10, 11); (20, 11)] with
  | Some (BPlus.Root cap (Some ch), c) =>
      match BPlus.node_insert ch (1, 11) c, BPlus.node_insert (BPlus.Root cap (Some ch)) (1, 11) c with
      | Some (ch', Some ins, _), Some (r', _, _) =>
          r' = BPlus.Root 1 (Some (BPlus.Internal 1 [(10, ch'); (10, ins)])) /\
          BPlus.min_key ch' = Some 10 /\ BPlus.entries ch' = [(1, 11)]
      | _, _ => False
      end
  | _ => False
  end.
Proof. split; vm_compute; repeat split. Qed.

(** C9 (corrected): [InternalNode::insert] on an internal node with no
    child does not fail: it adds a fresh leaf child holding the entry,
    keyed by the inserted key, and reports no split; point search and range
    scan on such a node return nothing.  No internal node of a tree built by
    insertions from [BPlusTree::new(cap)] is without children. *)
Theorem C9_empty_internal_behaviour :
  (forall cap key d c, node_insert (Internal cap []) key d c =
                       Some (Internal cap [(key, new_leaf_node cap key d c)], None, S c)) /\
  (forall cap key, node_search (Internal cap []) key = None) /\
  (forall heap cap mn mx, node_search_range heap (Internal cap []) mn mx = Some []) /\
  (forall cap ops t r icap ns, build cap ops = Some t -> t_node t = Some r ->
                               sub_node r (Internal icap ns) -> ns <> []).
Proof.
  split; [reflexivity |]. split; [reflexivity |]. split.
  - intros heap cap mn mx. simpl. destruct (mx <? mn); reflexivity.
  - intros cap ops t r icap ns Hb Hr Hs.
    pose proof (build_bal _ _ _ Hb) as B. unfold tree_bal in B. rewrite Hr in B.
    destruct B as [h B]. destruct (sub_node_bal _ _ Hs _ B) as [h' B'].
    destruct h' as [| h']; [destruct B' |]. exact (proj1 (proj1 (bal_internal _ _ _) B')).
Qed.

Lemma C9_witness : sample_children <> [].
Proof.
  apply (proj2 (proj2 (proj2 C9_empty_internal_behaviour)) 3 sample_ops sample_tree
           (Internal 3 sample_children) 3 sample_children);
    [vm_compute; reflexivity | reflexivity | constructor].
Defined.

(** C10 (confirmed): insertion never replaces an entry: the leaf entries
    after [BPlusTree::insert(key, d)] are those before plus [(key, d)] (as a
    multiset); and within the leaf that receives it, [(key, d)] is placed
    after every entry already there with a key [<=] [key], in particular
    after every earlier entry with the same key. *)
Theorem C10_duplicates_retained :
  (forall t key d t', tree_insert t key d = Some t' ->
     Permutation (tree_entries t') ((key, d) :: tree_entries t)) /\
  (forall l key d c l' s c', leaf_insert l key d c = (l', s, c') ->
     exists l1 l2, l_data l' ++ entries_opt s = l1 ++ (key, d) :: l2 /\
                   Permutation (l1 ++ l2) (l_data l) /\
                   Forall (fun e => key < fst e) l2).
Proof.
  split; [exact tree_insert_entries |].
  intros l key d c l' s c' H.
  destruct (ins_by_key_split (key, d) (sort_by_key (l_data l)) (sort_by_key_sorted _))
    as (l1 & l2 & E1 & E2 & F).
  exists l1, l2. split; [| split; [rewrite <- E2; apply sort_by_key_perm | exact F]].
  rewrite <- E1, <- sort_by_key_snoc.
  destruct (leaf_insert_spec _ _ _ _ _ _ _ H _ eq_refl) as [(-> & -> & _) | (nw & -> & -> & -> & _)].
  - apply app_nil_r.
  - simpl. rewrite entries_leaf. apply firstn_skipn.
Qed.

Lemma C10_witness :
  Permutation (tree_entries (mkTree 3 (Some (Internal 3
       [(1, Leaf (mkLeaf 3 [(1, 1); (2, 2)] (Some 1) 0));
        (3, Leaf (mkLeaf 3 [(3, 3); (3, 4)] None 1))])) 2))
    ((3, 4) :: tree_entries full_tree) /\
  (exists l1 l2, l_data (mkLeaf 3 [(3, 3); (3, 4)] None 0) ++ entries_opt None =
                 l1 ++ (3, 4) :: l2 /\
                 Permutation (l1 ++ l2) [(3, 3)] /\ Forall (fun e => 3 < fst e) l2).
Proof.
  split.
  - apply (proj1 C10_duplicates_retained full_tree 3 4). vm_compute. reflexivity.
  - apply (proj2 C10_duplicates_retained (mkLeaf 3 [(3, 3)] None 0) 3 4 5
      (mkLeaf 3 [(3, 3); (3, 4)] None 0) None 5). reflexivity.
Defined.

End Claims.

(** * Further properties of the insertion and search code *)
Module Extras.
Import UnsafeBPlus Samples Facts Facts2.

(** X1: [BPlusTree::insert] never panics: every sequence of insertions
    from [BPlusTree::new(cap)] succeeds, for every capacity (the
    [find_mut_node(..).unwrap()] and the [min_key().unwrap()] of root growth
    never meet [None]). *)
Theorem X1_insert_never_panics (cap : nat) (ops : list (Key * Data)) :
  exists t, build cap ops = Some t.
Proof. apply insert_all_some; exact I. Qed.

(** X2: in every tree built by insertions, all leaves lie at the same
    depth (the height of the root), every leaf holds an entry and every
    internal node has a child. *)
Theorem X2_build_balanced (cap : nat) (ops : list (Key * Data)) (t : BPlusTree) (r : Node)
  (Hb : build cap ops = Some t) (Hr : t_node t = Some r) :
  bal (height r) r.
Proof.
  pose proof (build_bal _ _ _ Hb) as B. unfold tree_bal in B. rewrite Hr in B.
  destruct B as [h B]. rewrite (bal_height _ _ B). exact B.
Qed.

Lemma X2_witness : bal (height (Internal 3 sample_children)) (Internal 3 sample_children).
Proof.
  apply (X2_build_balanced 3 sample_ops sample_tree); [vm_compute; reflexivity | reflexivity].
Defined.

(** X3: in every tree built by insertions, the entries of every leaf are in
    ascending key order and the children of every internal node are in
    ascending separator order. *)
Theorem X3_build_sorted (cap : nat) (ops : list (Key * Data)) (t : BPlusTree)
  (Hb : build cap ops = Some t) :
  tree_sorted t.
Proof. exact (build_sorted _ _ _ Hb). Qed.

Lemma X3_witness : tree_sorted sample_tree.
Proof. apply (X3_build_sorted 3 sample_ops). vm_compute. reflexivity. Defined.

(** X4: the leaf entries of a tree built by a sequence of insertions are
    exactly the inserted pairs, as a multiset: nothing is lost, replaced or
    duplicated by splits, sorting or root growth. *)
Theorem X4_build_entries (cap : nat) (ops : list (Key * Data)) (t : BPlusTree)
  (Hb : build cap ops = Some t) :
  Permutation (tree_entries t) ops.
Proof. exact (build_entries _ _ _ Hb). Qed.

Lemma X4_witness : Permutation (tree_entries sample_tree) sample_ops.
Proof. apply (X4_build_entries 3). vm_compute. reflexivity. Defined.

(** X5: occupancy after insertions: every leaf of a tree built with
    capacity [cap] holds at most [max cap 1] entries and every internal node
    at most [max (cap + 1) 2] children, all nodes carrying the tree's
    capacity. *)
Theorem X5_build_sizes (cap : nat) (ops : list (Key * Data)) (t : BPlusTree)
  (Hb : build cap ops = Some t) :
  tree_sizes t.
Proof. exact (build_sizes _ _ _ Hb). Qed.

Lemma X5_witness : tree_sizes sample_tree.
Proof. apply (X5_build_sizes 3 sample_ops). vm_compute. reflexivity. Defined.

(** X6: point search never invents a value: when [search(key)] returns a
    value on a tree built by insertions, that value was inserted with that
    key. *)
Theorem X6_search_sound (cap : nat) (ops : list (Key * Data)) (t : BPlusTree)
  (key : Key) (v : Data)
  (Hb : build cap ops = Some t) (Hs : search t key = Some v) :
  In (key, v) ops.
Proof.
  apply (Permutation_in _ (build_entries _ _ _ Hb)).
  unfold search in Hs. unfold tree_entries.
  destruct (t_node t) as [n |]; [| discriminate].
  exact (node_search_sound n key v Hs).
Qed.

Lemma X6_witness : In (12, 12) sample_ops.
Proof.
  apply (X6_search_sound 3 sample_ops sample_tree 12 12); vm_compute; reflexivity.
Defined.

(** X7: when the first inserted key is smaller than every later one and
    all keys are distinct, no insertion takes the first-entry fallback, and
    the built tree keeps every separator equal to its child's minimum key
    and all leaf entries, in structural order, strictly ascending. *)
Theorem X7_ordered_when_first_key_least (cap : nat) (k0 : Key) (d0 : Data)
  (rest : list (Key * Data)) (t : BPlusTree)
  (Hb : build cap ((k0, d0) :: rest) = Some t)
  (Hd : NoDup (map fst ((k0, d0) :: rest)))
  (Hl : Forall (fun e => k0 < fst e) rest) :
  tree_ordered t.
Proof. exact (build_ordered _ _ _ _ _ Hb Hd Hl). Qed.

Lemma X7_witness : tree_ordered asc_tree.
Proof.
  apply (X7_ordered_when_first_key_least 2 2 20
           [(9, 90); (5, 50); (7, 70); (3, 30); (8, 80); (4, 40)]).
  - vm_compute. reflexivity.
  - repeat constructor; simpl; lia.
  - repeat constructor.
Defined.

(** X8: round trip under the same condition: after inserting pairs with
    distinct keys whose first key is the least, [search(key)] returns the
    value inserted with [key], for every inserted key. *)
Theorem X8_search_round_trip (cap : nat) (k0 : Key) (d0 : Data)
  (rest : list (Key * Data)) (t : BPlusTree)
  (Hb : build cap ((k0, d0) :: rest) = Some t)
  (Hd : NoDup (map fst ((k0, d0) :: rest)))
  (Hl : Forall (fun e => k0 < fst e) rest)
  (key : Key) (v : Data) (Hin : In (key, v) ((k0, d0) :: rest)) :
  search t key = Some v.
Proof. exact (build_search _ _ _ _ _ Hb Hd Hl key v Hin). Qed.

Lemma X8_witness : search asc_tree 3 = Some 30.
Proof.
  apply (X8_search_round_trip 2 2 20
           [(9, 90); (5, 50); (7, 70); (3, 30); (8, 80); (4, 40)]).
  - vm_compute. reflexivity.
  - repeat constructor; simpl; lia.
  - repeat constructor.
  - simpl. tauto.
Defined.

(** X9: range scans never invent values: whenever the result of
    [search_range(min_key, max_key)] on a tree built by insertions is
    determined (the scan reads no forward reference whose target was moved
    by [InternalNode::split]), every value it returns was inserted with a
    key [<= max_key]. *)
Theorem X9_search_range_sound (cap : nat) (ops : list (Key * Data)) (t : BPlusTree)
  (min_key max_key : Key) (r : list Data)
  (Hb : build cap ops = Some t) (Hr : search_range t min_key max_key = Some r)
  (v : Data) (Hv : In v r) :
  exists k, k <= max_key /\ In (k, v) ops.
Proof.
  destruct (search_range_sound _ _ _ _ Hr v Hv) as (k & Hk & Hin).
  exists k. split; [exact Hk |]. exact (Permutation_in _ (build_entries _ _ _ Hb) Hin).
Qed.

Lemma X9_witness : exists k, k <= 24 /\ In (k, 14) sample_ops.
Proof.
  apply (X9_search_range_sound 3 sample_ops sample_tree 12 24 [12; 13; 14; 24]).
  - vm_compute. reflexivity.
  - vm_compute. reflexivity.
  - simpl. tauto.
Defined.

(** X10: leaf allocations: the leaves of a tree built by insertions carry
    exactly the identities [0 .. cnt - 1] of the leaves allocated so far,
    each once: no allocated leaf is dropped and no two leaves share an
    identity. *)
Theorem X10_leaf_identities (cap : nat) (ops : list (Key * Data)) (t : BPlusTree)
  (Hb : build cap ops = Some t) :
  Permutation (tree_ids t) (seq 0 (t_cnt t)).
Proof. exact (build_ids _ _ _ Hb). Qed.

Lemma X10_witness : Permutation (tree_ids sample_tree) (seq 0 (t_cnt sample_tree)).
Proof. apply (X10_leaf_identities 3 sample_ops). vm_compute. reflexivity. Defined.

(** X18: root growth.  When the root's child (a balanced node of height
    [h]) reports a split on insertion, [BPlusTree::insert] makes the new
    root an internal node with exactly the two entries ([min_key] of the old
    child, old child) and ([min_key] of the sibling, sibling), where
    [Node::min_key] is the first separator of an internal node and the
    first key of a leaf; the old child changes at most in its forward
    reference, the new root is balanced and one level higher. *)
Theorem X18_root_growth (t : BPlusTree) (n : Node) (h : nat) (key : Key) (d : Data)
  (n' s : Node) (c' : nat)
  (Hn : t_node t = Some n) (Hb : bal h n)
  (Hsplit : node_insert n key d (t_cnt t) = Some (n', Some s, c')) :
  exists a b old',
    min_key n' = Some a /\ min_key s = Some b /\
    tree_insert t key d =
      Some (mkTree (t_cap t) (Some (Internal (t_cap t) [(a, old'); (b, s)])) c') /\
    forget old' = forget n' /\
    bal (S h) (Internal (t_cap t) [(a, old'); (b, s)]) /\
    height (Internal (t_cap t) [(a, old'); (b, s)]) = S (height n).
Proof.
  destruct (node_insert_bal _ _ _ _ _ _ _ _ Hb Hsplit) as [Hn' Hs].
  specialize (Hs s eq_refl).
  destruct (bal_min_key _ _ Hn') as [a Ea]. destruct (bal_min_key _ _ Hs) as [b Eb].
  destruct (grow_root (t_cap t) n' s) as [r |] eqn:G.
  2:{ unfold grow_root in G. rewrite Ea, Eb in G. discriminate. }
  pose proof (grow_root_bal _ _ _ _ _ Hn' Hs G) as Br.
  destruct (grow_root_spec _ _ _ _ G) as (a' & b' & old' & Ea' & Eb' & -> & Ef & _).
  rewrite Ea in Ea'. injection Ea' as <-. rewrite Eb in Eb'. injection Eb' as <-.
  exists a, b, old'. split; [exact Ea | split; [exact Eb |]].
  split; [unfold tree_insert; rewrite Hn, Hsplit, G; reflexivity |].
  split; [exact Ef | split; [exact Br |]].
  rewrite (bal_height _ _ Br), (bal_height _ _ Hb). reflexivity.
Qed.

Lemma X18_witness :
  exists a b old',
    min_key (Leaf (mkLeaf 3 [(1, 1); (2, 2)] None 0)) = Some a /\
    min_key (Leaf (mkLeaf 3 [(3, 3); (4, 4)] None 1)) = Some b /\
    tree_insert full_tree 4 4 =
      Some (mkTree 3 (Some (Internal 3 [(a, old'); (b, Leaf (mkLeaf 3 [(3, 3); (4, 4)] None 1))])) 2) /\
    forget old' = forget (Leaf (mkLeaf 3 [(1, 1); (2, 2)] None 0)) /\
    bal 1 (Internal 3 [(a, old'); (b, Leaf (mkLeaf 3 [(3, 3); (4, 4)] None 1))]) /\
    height (Internal 3 [(a, old'); (b, Leaf (mkLeaf 3 [(3, 3); (4, 4)] None 1))]) =
      S (height full_leaf).
Proof.
  apply (X18_root_growth full_tree full_leaf 0 4 4).
  - reflexivity.
  - simpl. split; [reflexivity | discriminate].
  - vm_compute. reflexivity.
Defined.

End Extras.

Module BPlusExtras.
Import BPlus BPlusFacts Samples.

(** X11: in the [bplus] crate, [Node::new(cap)] followed by any sequence
    of [insert(..).unwrap()] never panics: no [unwrap] in
    [RootNode::insert] meets [None] and no insertion returns [Err]. *)
Theorem X11_b_insert_never_panics cap ops : exists n c, build cap ops = Some (n, c).
Proof.
  destruct (b_insert_all_some ops (Root cap None) 0 I) as (n & c & E & _).
  exists n, c. exact E.
Qed.

(** X12: the records held by the leaves of the built tree are exactly the
    inserted records, with their multiplicities. *)
Theorem X12_b_build_entries cap ops n c (Hb : build cap ops = Some (n, c)) :
  Permutation (entries n) ops.
Proof. exact (b_build_entries cap ops n c Hb). Qed.

Lemma X12_witness :
  build 2 b_test_ops = Some (b_test_tree, 4) /\ Permutation (entries b_test_tree) b_test_ops.
Proof.
  split; [vm_compute; reflexivity |].
  apply (X12_b_build_entries 2 b_test_ops b_test_tree 4). vm_compute. reflexivity.
Defined.

(** X13: the handle stays a [RootNode] of the given capacity; it is empty
    exactly when nothing was inserted, and otherwise holds a node whose
    leaves all lie at the same depth, none of them empty, and whose
    internal nodes all have a child. *)
Theorem X13_b_root_shape cap ops n c (Hb : build cap ops = Some (n, c)) :
  (ops = [] /\ n = Root cap None) \/
  (ops <> [] /\ exists ch h, n = Root cap (Some ch) /\ bal h ch).
Proof. exact (build_root_shape cap ops n c Hb). Qed.

Lemma X13_witness :
  build 2 b_test_ops = Some (b_test_tree, 4) /\
  ((b_test_ops = [] /\ b_test_tree = Root 2 None) \/
   (b_test_ops <> [] /\ exists ch h, b_test_tree = Root 2 (Some ch) /\ bal h ch)).
Proof.
  split; [vm_compute; reflexivity |].
  apply (X13_b_root_shape 2 b_test_ops b_test_tree 4). vm_compute. reflexivity.
Defined.

(** X14: after at least one insertion, following the [Weak] forward
    references from the first allocated leaf visits every leaf of the
    tree exactly once, and the walk ends (the last leaf has no [next]). *)
Theorem X14_b_leaf_chain cap ops n c (Hb : build cap ops = Some (n, c)) (Hne : ops <> []) :
  exists l0 ch, In l0 (leaves n) /\ l_id l0 = 0 /\
    follow (leaves n) (S (length (leaves n))) l0 = Some ch /\ Permutation ch (leaves n).
Proof.
  apply (chain_from_first n c (build_chain cap ops n c Hb)).
  intros E. apply Hne. apply Permutation_nil.
  rewrite <- (b_build_entries cap ops n c Hb). unfold entries. rewrite E. reflexivity.
Qed.

Lemma X14_witness :
  build 2 b_test_ops = Some (b_test_tree, 4) /\ b_test_ops <> [] /\
  exists l0 ch, In l0 (leaves b_test_tree) /\ l_id l0 = 0 /\
    follow (leaves b_test_tree) (S (length (leaves b_test_tree))) l0 = Some ch /\
    Permutation ch (leaves b_test_tree).
Proof.
  split; [vm_compute; reflexivity |]. split; [discriminate |].
  apply (X14_b_leaf_chain 2 b_test_ops b_test_tree 4); [vm_compute; reflexivity | discriminate].
Defined.

(** X15: the leaves are the allocations 0 .. c-1 of [LeafNode]s (the
    first leaf and the one made by each leaf split), each exactly once:
    no allocated leaf is lost from the tree. *)
Theorem X15_b_leaf_identities cap ops n c (Hb : build cap ops = Some (n, c)) :
  Permutation (ids n) (seq 0 c).
Proof. exact (build_ids_b cap ops n c Hb). Qed.

Lemma X15_witness :
  build 2 b_test_ops = Some (b_test_tree, 4) /\ Permutation (ids b_test_tree) (seq 0 4).
Proof.
  split; [vm_compute; reflexivity |].
  apply (X15_b_leaf_identities 2 b_test_ops b_test_tree 4). vm_compute. reflexivity.
Defined.

(** X16: with a positive capacity, every leaf carries the tree's capacity
    and holds between one and [cap] records, sorted by key
    ([LeafNode::insert] sorts, and splits once it holds [cap + 1]). *)
Theorem X16_b_leaves_ok cap ops n c (Hc : 0 < cap) (Hb : build cap ops = Some (n, c)) :
  Forall (leaf_ok cap) (leaves n).
Proof. exact (build_leaf_ok cap ops n c Hc Hb). Qed.

Lemma X16_witness :
  0 < 2 /\ build 2 b_test_ops = Some (b_test_tree, 4) /\ Forall (leaf_ok 2) (leaves b_test_tree).
Proof.
  split; [lia |]. split; [vm_compute; reflexivity |].
  apply (X16_b_leaves_ok 2 b_test_ops b_test_tree 4); [lia | vm_compute; reflexivity].
Defined.

(** X17: with a positive capacity, every internal node carries the tree's
    capacity and holds at most [cap + 1] pairs ([InternalNode::is_full]
    splits at [cap + 2]). *)
Theorem X17_b_internal_ok cap ops n c (Hc : 0 < cap) (Hb : build cap ops = Some (n, c)) :
  internal_ok cap n.
Proof. exact (build_internal_ok cap ops n c Hc Hb). Qed.

Lemma X17_witness :
  0 < 2 /\ build 2 b_test_ops = Some (b_test_tree, 4) /\ internal_ok 2 b_test_tree.
Proof.
  split; [lia |]. split; [vm_compute; reflexivity |].
  apply (X17_b_internal_ok 2 b_test_ops b_test_tree 4); [lia | vm_compute; reflexivity].
Defined.

End BPlusExtras.
